(** * Pike: request-status coordinator, response codec, dispatcher store
      procedure and director matching

    A shallow embedding of the Go packages [cache] (status table,
    persisted response records, content negotiation), [middleware]
    (the dispatcher's [save]), [util] (codec wrappers) and [pike]
    (the director's [Match]).

    Conventions.
    - Go's [uint32]/[uint16]/[int] values are integers in [Z]; every
      operation that can wrap in Go has its wrap-around written out.
    - A Go [[]byte] is a [list byte]; a nil slice and an empty slice are
      both the empty list (the code only ever looks at [len]).  Slices
      handed out by the store have capacity equal to their length.
    - [time.Now().Unix()] is an explicit argument [now].
    - A [chan int] is a channel identifier; [None] is the nil channel.
      Sends and closes are recorded, in order, in the client's trace.
    - The exclusive lock makes every operation of the status table one
      atomic step; each operation is a function on the client state. *)

From Stdlib Require Import ZArith Lia.
From Stdlib Require Import Strings.Byte.
From stdpp Require Import gmap strings list fin_maps.

Local Open Scope Z_scope.

(** ** Machine integers *)

Module U.

Definition uint32 (z : Z) : Z := z mod 2 ^ 32.
Definition uint16 (z : Z) : Z := z mod 2 ^ 16.

(** [a - b] and [a + b] on [uint32]. *)
Definition sub32 (a b : Z) : Z := uint32 (a - b).
Definition add32 (a b : Z) : Z := uint32 (a + b).

Definition is_u32 (z : Z) : Prop := 0 <= z < 2 ^ 32.
Definition is_u16 (z : Z) : Prop := 0 <= z < 2 ^ 16.

End U.

(** ** Bytes and the little-endian helpers *)

Definition byte_of_Z (z : Z) : byte :=
  match Byte.of_N (Z.to_N (z mod 256)) with
  | Some b => b
  | None => x00
  end.

Definition Z_of_byte (b : byte) : Z := Z.of_N (Byte.to_N b).

(* binary.LittleEndian.PutUint16 *)
Definition uint16ToBytes (v : Z) : list byte :=
  [byte_of_Z v; byte_of_Z (Z.shiftr v 8)].

(* binary.LittleEndian.Uint16; indexing past the end panics *)
Definition bytesToUint16 (buf : list byte) : option Z :=
  match buf with
  | b0 :: b1 :: _ => Some (Z.lor (Z_of_byte b0) (Z.shiftl (Z_of_byte b1) 8))
  | _ => None
  end.

(* binary.LittleEndian.PutUint32 *)
Definition uint32ToBytes (v : Z) : list byte :=
  [byte_of_Z v; byte_of_Z (Z.shiftr v 8);
   byte_of_Z (Z.shiftr v 16); byte_of_Z (Z.shiftr v 24)].

(* binary.LittleEndian.Uint32 *)
Definition bytesToUint32 (buf : list byte) : option Z :=
  match buf with
  | b0 :: b1 :: b2 :: b3 :: _ =>
      Some (Z.lor (Z.lor (Z.lor (Z_of_byte b0) (Z.shiftl (Z_of_byte b1) 8))
                         (Z.shiftl (Z_of_byte b2) 16))
                  (Z.shiftl (Z_of_byte b3) 24))
  | _ => None
  end.

(** [data[lo:hi]]: panics ([None]) unless [lo <= hi <= len(data)]. *)
Definition slice (data : list byte) (lo hi : Z) : option (list byte) :=
  if bool_decide (0 <= lo ∧ lo <= hi ∧ hi <= Z.of_nat (length data))
  then Some (take (Z.to_nat (hi - lo)) (drop (Z.to_nat lo) data))
  else None.

Definition len (b : list byte) : Z := Z.of_nat (length b).

(** ** Go results and the external libraries

    A Go [(value, error)] pair keeps both components; [None] is the nil
    error.  The compression, JSON, key-value store and regular-expression
    libraries are not part of the repository: they are interfaces. *)

Definition error := string.

Class Codecs := {
  (* compress/gzip: what a writer opened at a valid level has produced
     after Write and Close, or the error Write reported *)
  gzip_Write : Z -> list byte -> list byte + error;
  (* compress/gzip NewReader followed by ioutil.ReadAll: the bytes read
     so far together with the error, if any *)
  gzip_ReadAll : list byte -> list byte * option error;
  (* cbrotli.Encode with the given quality (LGWin 0) *)
  cbrotli_Encode : list byte -> Z -> list byte * option error;
  (* cbrotli.Decode *)
  cbrotli_Decode : list byte -> list byte * option error
}.

Class Json := {
  (* json.Marshal of an http.Header *)
  json_Marshal : gmap string (list string) -> list byte + error;
  (* json.Unmarshal into a freshly made, empty http.Header *)
  json_Unmarshal : list byte -> gmap string (list string) + error
}.

Class Store := {
  (* the error, if any, pogreb reports for Put of this key and value;
     a failed Put leaves the database as it was *)
  db_Put_err : string -> list byte -> option error;
  (* the error, if any, pogreb reports for Get of this key *)
  db_Get_err : string -> option error
}.

(** ** Package util *)

Module util.
Section util.
Context {codecs : Codecs}.

Definition gzip_DefaultCompression : Z := -1.
Definition gzip_BestCompression : Z := 9.

(* Gzip: the error of NewWriterLevel is dropped, so for a level above
   BestCompression the writer is nil and Write panics ([None]). *)
Definition Gzip (buf : list byte) (level : Z) : option (list byte * option error) :=
  let level := if level <=? 0 then gzip_DefaultCompression else level in
  if gzip_BestCompression <? level then None
  else match gzip_Write level buf with
       | inr err => Some ([], Some err)
       | inl out => Some (out, None)
       end.

Definition BrotliEncode (buf : list byte) (quality : Z) : list byte * option error :=
  let quality := if quality =? 0 then 9 else quality in
  cbrotli_Encode buf quality.

Definition BrotliDecode (buf : list byte) : list byte * option error :=
  cbrotli_Decode buf.

Definition Gunzip (buf : list byte) : list byte * option error :=
  gzip_ReadAll buf.

End util.
End util.

(** ** Package cache *)

Module cache.

(* request statuses: iota + 1 *)
Definition Pass : Z := 1.
Definition Fetching : Z := 2.
Definition Waiting : Z := 3.
Definition HitForPass : Z := 4.
Definition Cacheable : Z := 5.

(* the package constant CompressMinLength (the record field of the same
   name keeps the name) *)
Definition DefaultCompressMinLength : Z := 1024.
Definition GzipEncoding : string := "gzip".
Definition BrEncoding : string := "br".

(* http.StatusNoContent *)
Definition StatusNoContent : Z := 204.

Definition ErrBodyCotentNotFound : error := "content not found".

Record Response := {
  CreatedAt : Z;                          (* uint32 *)
  StatusCode : Z;                         (* uint16 *)
  TTL : Z;                                (* uint16 *)
  Header : gmap string (list string);     (* http.Header *)
  Body : list byte;
  GzipBody : list byte;
  BrBody : list byte;
  CompressLevel : Z;                      (* int *)
  CompressMinLength : Z                   (* int *)
}.

Definition chan := nat.

Record RequestStatus := {
  createdAt : Z;                          (* uint32 *)
  ttl : Z;                                (* uint16 *)
  status : Z;                             (* int *)
  waitingChans : list chan
}.

(* what happens on channels: [c <- v] and [close(c)] *)
Inductive chan_event :=
| Send (ch : chan) (v : Z)
| Close (ch : chan).

Record Client := {
  rsMap : gmap string RequestStatus;
  db : gmap string (list byte);           (* contents of the pogreb database *)
  nextChan : chan;                        (* the next channel [make] returns *)
  trace : list chan_event
}.

Definition set_rsMap (m : gmap string RequestStatus) (c : Client) : Client :=
  {| rsMap := m; db := db c; nextChan := nextChan c; trace := trace c |}.

(* the test both isExpired and the coordinator inline:
   rs.ttl != 0 && now-rs.createdAt > uint32(rs.ttl), with now a uint32 *)
Definition isExpired (now : Z) (rs : RequestStatus) : bool :=
  negb (ttl rs =? 0) && (ttl rs <? U.sub32 (U.uint32 now) (createdAt rs)).

(* the first branch of lockAndUpdateRsMap *)
Definition newFetching (now : Z) : RequestStatus :=
  {| createdAt := U.uint32 now; ttl := 0; status := Fetching; waitingChans := [] |}.

Definition addWaiter (ch : chan) (rs : RequestStatus) : RequestStatus :=
  {| createdAt := createdAt rs; ttl := ttl rs; status := status rs;
     waitingChans := waitingChans rs ++ [ch] |}.

Definition lockAndUpdateRsMap (now : Z) (k : string) (c : Client)
  : Client * (Z * option chan) :=
  let fresh := (set_rsMap (<[k := newFetching now]> (rsMap c)) c, (Fetching, None)) in
  match rsMap c !! k with
  | None => fresh
  | Some rs =>
      if isExpired now rs then fresh
      else if status rs =? Fetching then
        let ch := nextChan c in
        ({| rsMap := <[k := addWaiter ch rs]> (rsMap c); db := db c;
            nextChan := S ch; trace := trace c |},
         (Waiting, Some ch))
      else (c, (status rs, None))
  end.

Definition GetRequestStatus (now : Z) (key : string) (c : Client)
  : Client * (Z * option chan) :=
  match rsMap c !! key with
  | None => lockAndUpdateRsMap now key c
  | Some rs =>
      if isExpired now rs then lockAndUpdateRsMap now key c
      else if status rs =? Fetching then lockAndUpdateRsMap now key c
      else (c, (status rs, None))
  end.

(* the loop over waitingChans: one send and one close per channel *)
Definition notify (st : Z) (chans : list chan) (tr : list chan_event)
  : list chan_event :=
  foldl (fun tr ch => tr ++ [Send ch st; Close ch]) tr chans.

Definition UpdateRequestStatus (key : string) (st : Z) (ttl' : Z) (c : Client)
  : Client :=
  match rsMap c !! key with
  | None => c
  | Some rs =>
      {| rsMap := <[key := {| createdAt := createdAt rs; ttl := ttl';
                              status := st; waitingChans := [] |}]> (rsMap c);
         db := db c; nextChan := nextChan c;
         trace := notify st (waitingChans rs) (trace c) |}
  end.

(* the methods HitForPass and Cacheable of Client (the constants of the
   same names keep the names) *)
Definition Client_HitForPass (key : string) (ttl' : Z) (c : Client) : Client :=
  UpdateRequestStatus key HitForPass ttl' c.

Definition Client_Cacheable (key : string) (ttl' : Z) (c : Client) : Client :=
  UpdateRequestStatus key Cacheable ttl' c.

(* the condition of the sweep: ttl != 0 && now-v.createdAt > uint32(ttl)+uint32(delay) *)
Definition sweepable (now32 delay : Z) (v : RequestStatus) : bool :=
  negb (ttl v =? 0)
  && (U.add32 (ttl v) (U.uint32 delay) <? U.sub32 now32 (createdAt v)).

(* the delay ClearExpired works with *)
Definition effectiveDelay (delay : Z) : Z := if delay <? 0 then 60 else delay.

(* the body of the range loop of ClearExpired *)
Definition sweepEntry (now32 delay : Z) (k : string) (v : RequestStatus)
    (c : Client) : Client :=
  if sweepable now32 delay v
  then {| rsMap := delete k (rsMap c); db := delete k (db c);
          nextChan := nextChan c; trace := trace c |}
  else c.

(* Go ranges over the map in an unspecified order; entries deleted during
   the loop are the ones already visited. *)
Definition ClearExpired (now : Z) (delay : Z) (c : Client) : Client :=
  let now32 := U.uint32 now in
  let delay := effectiveDelay delay in
  map_fold (sweepEntry now32 delay) c (rsMap c).

Definition Remove (key : string) (c : Client) : Client :=
  {| rsMap := delete key (rsMap c); db := delete key (db c);
     nextChan := nextChan c; trace := trace c |}.

(* Init: an empty status table *)
Definition Init (store : gmap string (list byte)) : Client :=
  {| rsMap := ∅; db := store; nextChan := O; trace := [] |}.

(** *** Content negotiation *)

Section negotiation.
Context {codecs : Codecs}.

Definition getRawBody (r : Response) : list byte * option error :=
  if negb (len (Body r) =? 0) then (Body r, None)
  else if negb (len (GzipBody r) =? 0) then util.Gunzip (GzipBody r)
  else if negb (len (BrBody r) =? 0) then util.BrotliDecode (BrBody r)
  else ([], Some ErrBodyCotentNotFound).

(* strings.Contains *)
Fixpoint strings_Contains (s sub : string) : bool :=
  String.prefix sub s
  || match s with
     | EmptyString => false
     | String _ s' => strings_Contains s' sub
     end.

(* One round of the loop over supportEncondings.  [Some None] is
   [continue], [Some (Some res)] is [return], [None] is a panic. *)
Definition GetBody_try (r : Response) (acceptEncoding enc : string)
  : option (option (list byte * string)) :=
  let level := CompressLevel r in
  if negb (strings_Contains acceptEncoding enc) then Some None
  else if String.eqb enc BrEncoding then
    if negb (len (BrBody r) =? 0) then Some (Some (BrBody r, enc))
    else
      match getRawBody r with
      | (_, Some _) => Some None
      | (raw, None) =>
          match util.BrotliEncode raw level with
          | (_, Some _) => Some None
          | (brBody, None) => Some (Some (brBody, enc))
          end
      end
  else if String.eqb enc GzipEncoding then
    if negb (len (GzipBody r) =? 0) then Some (Some (GzipBody r, enc))
    else
      match util.Gzip (Body r) level with
      | None => None
      | Some (_, Some _) => Some None
      | Some (gzipBody, None) => Some (Some (gzipBody, enc))
      end
  else Some None.

(* the statements after the loop *)
Definition GetBody_fallback (r : Response) : list byte * string :=
  if (len (Body r) =? 0) && negb (len (GzipBody r) =? 0)
  then (fst (util.Gunzip (GzipBody r)), "")
  else (Body r, "").

Fixpoint GetBody_loop (r : Response) (acceptEncoding : string)
    (encs : list string) : option (list byte * string) :=
  match encs with
  | [] => Some (GetBody_fallback r)
  | enc :: rest =>
      match GetBody_try r acceptEncoding enc with
      | None => None
      | Some (Some res) => Some res
      | Some None => GetBody_loop r acceptEncoding rest
      end
  end.

Definition supportEncondings : list string := [BrEncoding; GzipEncoding].

(* [None] is a panic (inside util.Gzip). *)
Definition GetBody (r : Response) (acceptEncoding : string)
  : option (list byte * string) :=
  if StatusCode r =? StatusNoContent then Some ([], "")
  else
    let compressMinLength :=
      if CompressMinLength r =? 0 then DefaultCompressMinLength
      else CompressMinLength r in
    let rawBodySize := len (Body r) in
    if negb (rawBodySize =? 0) && (rawBodySize <? compressMinLength)
    then Some (Body r, "")
    else GetBody_loop r acceptEncoding supportEncondings.

End negotiation.

(** *** The persisted form *)

Section persistence.
Context {json : Json} {kv : Store}.

(* the record SaveResponse serialises: bytes.Join of the eleven parts *)
Definition encodeResponse (createdAt' : Z) (resp : Response)
    (header : list byte) : list byte :=
  let body := Body resp in
  let gzipBody := GzipBody resp in
  let brBody := BrBody resp in
  uint32ToBytes createdAt'
  ++ uint16ToBytes (StatusCode resp)
  ++ uint16ToBytes (TTL resp)
  ++ uint32ToBytes (U.uint32 (len header))
  ++ uint32ToBytes (U.uint32 (len body))
  ++ uint32ToBytes (U.uint32 (len gzipBody))
  ++ uint32ToBytes (U.uint32 (len brBody))
  ++ header ++ body ++ gzipBody ++ brBody.

Definition SaveResponse (now : Z) (key : string) (resp : Response)
    (c : Client) : Client * option error :=
  let createdAt' :=
    if CreatedAt resp =? 0 then U.uint32 now else CreatedAt resp in
  match json_Marshal (Header resp) with
  | inr err => (c, Some err)
  | inl header =>
      let data := encodeResponse createdAt' resp header in
      match db_Put_err key data with
      | Some err => (c, Some err)
      | None =>
          ({| rsMap := rsMap c; db := <[key := data]> (db c);
              nextChan := nextChan c; trace := trace c |}, None)
      end
  end.

Definition emptyResponse : Response :=
  {| CreatedAt := 0; StatusCode := 0; TTL := 0; Header := ∅;
     Body := []; GzipBody := []; BrBody := [];
     CompressLevel := 0; CompressMinLength := 0 |}.

(* the parse of GetResponse on a non-empty value; [None] is a panic
   (slice bounds out of range), otherwise the record and the error *)
Definition decodeResponse (data : list byte)
  : option (option Response * option error) :=
  b ← slice data 0 4; createdAt' ← bytesToUint32 b;
  b ← slice data 4 6; statusCode ← bytesToUint16 b;
  b ← slice data 6 8; ttl' ← bytesToUint16 b;
  b ← slice data 8 12; headerLength ← bytesToUint32 b;
  b ← slice data 12 16; bodyLength ← bytesToUint32 b;
  b ← slice data 16 20; gzipLength ← bytesToUint32 b;
  b ← slice data 20 24; brLength ← bytesToUint32 b;
  let offset := 24 in
  hdr ← slice data offset (U.add32 offset headerLength);
  let offset := U.add32 offset headerLength in
  match json_Unmarshal hdr with
  | inr err =>
      Some (Some {| CreatedAt := createdAt'; StatusCode := statusCode;
                    TTL := ttl'; Header := ∅; Body := []; GzipBody := [];
                    BrBody := []; CompressLevel := 0;
                    CompressMinLength := 0 |}, Some err)
  | inl header =>
      body ← slice data offset (U.add32 offset bodyLength);
      let offset := U.add32 offset bodyLength in
      gzipBody ← slice data offset (U.add32 offset gzipLength);
      let offset := U.add32 offset gzipLength in
      brBody ← slice data offset (U.add32 offset brLength);
      Some (Some {| CreatedAt := createdAt'; StatusCode := statusCode;
                    TTL := ttl'; Header := header; Body := body;
                    GzipBody := gzipBody; BrBody := brBody;
                    CompressLevel := 0; CompressMinLength := 0 |}, None)
  end.

(* [None] is a panic; [Some (None, None)] is the nil record with the nil
   error *)
Definition GetResponse (key : string) (c : Client)
  : option (option Response * option error) :=
  match db_Get_err key with
  | Some err => Some (None, Some err)
  | None =>
      match db c !! key with
      | None => Some (None, None)
      | Some data =>
          if len data =? 0 then Some (None, None)
          else decodeResponse data
      end
  end.

End persistence.

End cache.

(** ** Package middleware: the dispatcher's store procedure *)

Module middleware.
Import cache.

(** Modelled from the spec: the constant [HitForPassTTL] is declared in
    a file of the package that is not among the sources; the spec gives
    the default hit-for-pass TTL as 300 s. *)
Definition HitForPassTTL : Z := 300.

Section save.
Context {codecs : Codecs} {json : Json} {kv : Store}.

(* the closure doSave: the result of SaveResponse is not looked at *)
Definition doSave (now : Z) (client : Client) (identity : string)
    (resp : Response) : Client :=
  let client := fst (SaveResponse now identity resp client) in
  Client_Cacheable identity (TTL resp) client.

Definition set_GzipBody_dropBody (gzipBody : list byte) (resp : Response) :=
  {| CreatedAt := CreatedAt resp; StatusCode := StatusCode resp;
     TTL := TTL resp; Header := Header resp; Body := [];
     GzipBody := gzipBody; BrBody := BrBody resp;
     CompressLevel := CompressLevel resp;
     CompressMinLength := CompressMinLength resp |}.

Definition set_BrBody (brBody : list byte) (resp : Response) :=
  {| CreatedAt := CreatedAt resp; StatusCode := StatusCode resp;
     TTL := TTL resp; Header := Header resp; Body := Body resp;
     GzipBody := GzipBody resp; BrBody := brBody;
     CompressLevel := CompressLevel resp;
     CompressMinLength := CompressMinLength resp |}.

(* the part of save after the raw body has been obtained *)
Definition save_compress (now : Z) (client : Client) (identity : string)
    (resp : Response) (body : list byte) : option (Client * Response) :=
  let level := CompressLevel resp in
  let compressMinLength :=
    if CompressMinLength resp =? 0 then DefaultCompressMinLength
    else CompressMinLength resp in
  let bodyLength := len body in
  if bodyLength =? 0
  then Some (Client_HitForPass identity HitForPassTTL client, resp)
  else if bodyLength <? compressMinLength
  then Some (doSave now client identity resp, resp)
  else
    resp1 ←
      (if len (GzipBody resp) =? 0 then
         match util.Gzip body level with
         | None => None
         | Some (gzipBody, _) =>
             if negb (len gzipBody =? 0)
             then Some (set_GzipBody_dropBody gzipBody resp)
             else Some resp
         end
       else Some resp);
    let resp2 :=
      if len (BrBody resp1) =? 0
      then set_BrBody (fst (util.BrotliEncode body level)) resp1
      else resp1 in
    Some (doSave now client identity resp2, resp2).

(* save changes the record it is given; the result is the client and
   that record afterwards.  [None] is a panic (inside util.Gzip). *)
Definition save (now : Z) (client : Client) (identity : string)
    (resp : Response) (compressible : bool) : option (Client * Response) :=
  if (StatusCode resp =? StatusNoContent) || negb compressible
  then Some (doSave now client identity resp, resp)
  else
    let body := Body resp in
    if len body =? 0 then
      if negb (len (GzipBody resp) =? 0) then
        match util.Gunzip (GzipBody resp) with
        | (_, Some _) => Some (doSave now client identity resp, resp)
        | (unzipBody, None) => save_compress now client identity resp unzipBody
        end
      else if negb (len (BrBody resp) =? 0) then
        match util.BrotliDecode (BrBody resp) with
        | (_, Some _) => Some (doSave now client identity resp, resp)
        | (unzipBody, None) => save_compress now client identity resp unzipBody
        end
      else save_compress now client identity resp body
    else save_compress now client identity resp body.

End save.
End middleware.

(** ** Package pike: the director's Match *)

Module pike.

(** The regular expressions of package regexp, as far as Match needs
    them: characters and classes of characters, concatenation,
    alternation and repetition, and the empty-width assertions.  An
    expression is matched against a part of the text; an assertion
    consumes nothing and looks at the character before the place where
    it stands and at the one after it ([None] at either end of the
    text), as syntax.EmptyOpContext does.  [Regexp.Match] reports
    whether the text contains any match. *)
Inductive regex :=
| Void
| Eps
| Chr (a : Ascii.ascii)
| AnyChr
| Cls (f : Ascii.ascii -> bool)
| Cat (r1 r2 : regex)
| Alt (r1 r2 : regex)
| Star (r : regex)
| Look (f : option Ascii.ascii -> option Ascii.ascii -> bool).

(* \w: [0-9A-Za-z_] *)
Definition isWordChar (a : Ascii.ascii) : bool :=
  let n := Ascii.nat_of_ascii a in
  ((48 <=? n) && (n <=? 57) || (65 <=? n) && (n <=? 90)
   || (97 <=? n) && (n <=? 122) || (n =? 95))%nat.

Definition isWord (o : option Ascii.ascii) : bool :=
  match o with
  | Some a => isWordChar a
  | None => false
  end.

Definition isNewline (a : Ascii.ascii) : bool :=
  Ascii.eqb a (Ascii.ascii_of_nat 10).

(* the six assertions of the syntax: [\A] and [^] (beginning of the
   text), [\z] and [$] (end of the text), [^] and [$] under the flag m
   (beginning and end of a line), [\b] and [\B] (at, and not at, an
   ASCII word boundary) *)
Definition Bol : regex :=
  Look (fun p _ => if p is None then true else false).
Definition Eol : regex :=
  Look (fun _ n => if n is None then true else false).
Definition BolLine : regex :=
  Look (fun p _ => if p is Some a then isNewline a else true).
Definition EolLine : regex :=
  Look (fun _ n => if n is Some a then isNewline a else true).
Definition WordB : regex :=
  Look (fun p n => xorb (isWord p) (isWord n)).
Definition NoWordB : regex :=
  Look (fun p n => negb (xorb (isWord p) (isWord n))).

(* [r] matches the empty string standing between [p] and [n] *)
Fixpoint nullable (p n : option Ascii.ascii) (r : regex) : bool :=
  match r with
  | Void => false
  | Eps => true
  | Chr _ => false
  | AnyChr => false
  | Cls _ => false
  | Cat r1 r2 => nullable p n r1 && nullable p n r2
  | Alt r1 r2 => nullable p n r1 || nullable p n r2
  | Star _ => true
  | Look f => f p n
  end.

(* what is left of [r] after the character [a], read where [p] is the
   character before it *)
Fixpoint deriv (p : option Ascii.ascii) (a : Ascii.ascii) (r : regex)
  : regex :=
  match r with
  | Void => Void
  | Eps => Void
  | Chr b => if Ascii.eqb a b then Eps else Void
  | AnyChr => Eps
  | Cls f => if f a then Eps else Void
  | Cat r1 r2 =>
      if nullable p (Some a) r1
      then Alt (Cat (deriv p a r1) r2) (deriv p a r2)
      else Cat (deriv p a r1) r2
  | Alt r1 r2 => Alt (deriv p a r1) (deriv p a r2)
  | Star r1 => Cat (deriv p a r1) (Star r1)
  | Look _ => Void
  end.

(* the first character of [s], or [n] after an empty [s] *)
Definition headOr (s : string) (n : option Ascii.ascii)
  : option Ascii.ascii :=
  match s with
  | EmptyString => n
  | String a _ => Some a
  end.

(* the last character of [s], or [p] before an empty [s] *)
Fixpoint lastOr (s : string) (p : option Ascii.ascii)
  : option Ascii.ascii :=
  match s with
  | EmptyString => p
  | String a s' => lastOr s' (Some a)
  end.

(* [r] matches the whole of [s], which stands between [p] and [n] *)
Fixpoint matchAt (p n : option Ascii.ascii) (r : regex) (s : string)
  : bool :=
  match s with
  | EmptyString => nullable p n r
  | String a s' => matchAt (Some a) n (deriv p a r) s'
  end.

(* [r] matches the whole text [s] *)
Definition fullMatch (r : regex) (s : string) : bool :=
  matchAt None None r s.

(* [r] matches some prefix of [s], the rest of a text read up to [p] *)
Fixpoint prefixMatch (p : option Ascii.ascii) (r : regex) (s : string)
  : bool :=
  nullable p (headOr s None) r
  || match s with
     | EmptyString => false
     | String a s' => prefixMatch (Some a) (deriv p a r) s'
     end.

(* [r] matches somewhere in [s], the rest of a text read up to [p] *)
Fixpoint searchFrom (p : option Ascii.ascii) (r : regex) (s : string)
  : bool :=
  prefixMatch p r s
  || match s with
     | EmptyString => false
     | String a s' => searchFrom (Some a) r s'
     end.

(* Regexp.Match: the text [s] contains a match of [r] *)
Definition Regexp_Match (r : regex) (s : string) : bool :=
  searchFrom None r s.

(* the expression of [^(?:r)$] *)
Definition anchored (r : regex) : regex := Cat Bol (Cat r Eol).

Class RegexpSyntax := {
  (* regexp.MustCompile: [None] is the panic on a pattern that does not
     parse *)
  MustCompile : string -> option regex
}.

Record Director := {
  Hosts : list string;
  Prefixs : list string
}.

Section director.
Context {syntax : RegexpSyntax}.

(* the loop over hosts: stops at the first match, compiles each pattern
   it reaches; [None] is the panic of MustCompile *)
Fixpoint matchHosts (host : string) (hosts : list string) (match_ : bool)
  : option bool :=
  match hosts with
  | [] => Some match_
  | item :: rest =>
      if match_ then Some match_
      else
        reg ← MustCompile item;
        matchHosts host rest (if Regexp_Match reg host then true else match_)
  end.

(* the loop over prefixs *)
Fixpoint matchPrefixs (uri : string) (prefixs : list string) (match_ : bool)
  : bool :=
  match prefixs with
  | [] => match_
  | item :: rest =>
      matchPrefixs uri rest
        (if negb match_ && String.prefix item uri then true else match_)
  end.

Definition Match (d : Director) (host uri : string) : option bool :=
  let hosts := Hosts d in
  let prefixs := Prefixs d in
  if (length hosts =? 0)%nat && (length prefixs =? 0)%nat then Some true
  else
    match_ ←
      (if negb (length hosts =? 0)%nat then matchHosts host hosts false
       else Some false);
    if negb (length hosts =? 0)%nat && negb match_ then Some match_
    else if negb (length prefixs =? 0)%nat
         then Some (matchPrefixs uri prefixs false)
         else Some match_.

End director.
End pike.

(** ** Predicates on the state of the status table *)

Module Inv.
Import cache.

(** The data model's invariant on stored statuses: Waiting is only ever
    an answer, never the status of an entry. *)
Definition noWaitingStored (c : Client) : Prop :=
  forall k rs, rsMap c !! k = Some rs -> status rs <> Waiting.

(** Every channel waiting in the table was handed out by the client. *)
Definition chansBelow (c : Client) : Prop :=
  forall k rs ch, rsMap c !! k = Some rs -> ch ∈ waitingChans rs ->
    (ch < nextChan c)%nat.

(** The operations the proxy performs on the status table. *)
Inductive op :=
| OpGetRequestStatus (now : Z) (key : string)
| OpHitForPass (key : string) (ttl' : Z)
| OpCacheable (key : string) (ttl' : Z)
| OpClearExpired (now : Z) (delay : Z)
| OpRemove (key : string).

Definition run (o : op) (c : Client) : Client :=
  match o with
  | OpGetRequestStatus now key => fst (GetRequestStatus now key c)
  | OpHitForPass key ttl' => Client_HitForPass key ttl' c
  | OpCacheable key ttl' => Client_Cacheable key ttl' c
  | OpClearExpired now delay => ClearExpired now delay c
  | OpRemove key => Remove key c
  end.

(** The states a client reaches from [Init]. *)
Inductive reachable : Client -> Prop :=
| reach_Init store : reachable (Init store)
| reach_step o c : reachable c -> reachable (run o c).

(** The sweep condition of ClearExpired as a proposition. *)
Definition expiredWithGrace (now delay : Z) (v : RequestStatus) : Prop :=
  ttl v <> 0
  /\ U.sub32 (U.uint32 now) (createdAt v) > U.add32 (ttl v) (U.uint32 delay).

(** The expiry condition of GetRequestStatus as a proposition. *)
Definition expiredAt (now : Z) (rs : RequestStatus) : Prop :=
  ttl rs <> 0 /\ U.sub32 (U.uint32 now) (createdAt rs) > ttl rs.

(** What one pass of the sweep has done after visiting the entries [m]. *)
Definition swept (now32 delay : Z) (c0 r : Client)
    (m : gmap string RequestStatus) : Prop :=
  nextChan r = nextChan c0 /\ trace r = trace c0 /\
  forall k,
    match m !! k with
    | Some v =>
        if sweepable now32 delay v
        then rsMap r !! k = None /\ db r !! k = None
        else rsMap r !! k = rsMap c0 !! k /\ db r !! k = db c0 !! k
    | None => rsMap r !! k = rsMap c0 !! k /\ db r !! k = db c0 !! k
    end.

(** A record as the proxy builds it: the fields are in the ranges of
    their Go types and createdAt has been set (SaveResponse takes a
    zero createdAt for "not set" and stores the current time). *)
Definition wellFormedResponse (r : Response) : Prop :=
  U.is_u32 (CreatedAt r) /\ CreatedAt r <> 0
  /\ U.is_u16 (StatusCode r) /\ U.is_u16 (TTL r).

(** The persisted form has four bytes for each length and GetResponse
    computes its offsets in uint32. *)
Definition fitsWireFormat (header : list byte) (r : Response) : Prop :=
  24 + len header + len (Body r) + len (GzipBody r) + len (BrBody r) < 2 ^ 32.

End Inv.

(** ** Small instances of the library interfaces

    Enough of each library to run the definitions on concrete inputs:
    framings that store the data after a magic prefix, a JSON codec for
    the empty header object, stores that always accept or always refuse
    a Put, and two readings of host patterns: one of patterns without
    metacharacters, one that also knows escapes, the dot, the anchors
    and the word boundary. *)

Module Ref.

Definition stored_gzip : Codecs := {|
  gzip_Write := fun _ buf => inl (x1f :: x8b :: buf);
  gzip_ReadAll := fun buf =>
    match buf with
    | x1f :: x8b :: rest => (rest, None)
    | _ => ([], Some "gzip: invalid header"%string)
    end;
  cbrotli_Encode := fun buf _ => (xce :: buf, None);
  cbrotli_Decode := fun buf =>
    match buf with
    | xce :: rest => (rest, None)
    | _ => ([], Some "cbrotli: decode error"%string)
    end
|}.

Definition empty_object_json : Json := {|
  json_Marshal := fun h =>
    if decide (h = ∅) then inl [x7b; x7d] else inr "unsupported"%string;
  json_Unmarshal := fun b =>
    match b with
    | [x7b; x7d] => inl ∅
    | _ => inr "invalid character"%string
    end
|}.

Definition accepting_store : Store := {|
  db_Put_err := fun _ _ => None;
  db_Get_err := fun _ => None
|}.

Definition refusing_store : Store := {|
  db_Put_err := fun _ _ => Some "put failed"%string;
  db_Get_err := fun _ => None
|}.

Fixpoint literal (s : string) : pike.regex :=
  match s with
  | EmptyString => pike.Eps
  | String a s' => pike.Cat (pike.Chr a) (literal s')
  end.

(* regexp.MustCompile on a pattern without metacharacters *)
Definition literal_syntax : pike.RegexpSyntax := {|
  pike.MustCompile := fun s => Some (literal s)
|}.

Import Stdlib.Strings.Ascii.

Definition isMeta (c : ascii) : bool :=
  existsb (Ascii.eqb c) (String.list_ascii_of_string "*+?()[]{}|").

(* the fragment of the syntax made of literal characters, escaped
   punctuation, [.], [^], [$], [\b] and [\B]; no expression is given
   for a pattern outside it, and none for a trailing backslash, on
   which MustCompile panics *)
Fixpoint hostPattern (s : string) : option pike.regex :=
  match s with
  | EmptyString => Some pike.Eps
  | String c s' =>
      if Ascii.eqb c "^" then pike.Cat pike.Bol <$> hostPattern s'
      else if Ascii.eqb c "$" then pike.Cat pike.Eol <$> hostPattern s'
      else if Ascii.eqb c "."
      then pike.Cat (pike.Cls (fun a => negb (pike.isNewline a)))
             <$> hostPattern s'
      else if Ascii.eqb c "092" then
        match s' with
        | EmptyString => None
        | String e s'' =>
            if Ascii.eqb e "b" then pike.Cat pike.WordB <$> hostPattern s''
            else if Ascii.eqb e "B"
            then pike.Cat pike.NoWordB <$> hostPattern s''
            else if pike.isWordChar e then None
            else pike.Cat (pike.Chr e) <$> hostPattern s''
        end
      else if isMeta c then None
      else pike.Cat (pike.Chr c) <$> hostPattern s'
  end.

(* regexp.MustCompile on the patterns of that fragment *)
Definition host_syntax : pike.RegexpSyntax := {|
  pike.MustCompile := hostPattern
|}.

End Ref.

(** ** Package cache: the counters and listings of the status table *)

Module stats.
Import cache.

Class StoreSize := {
  (* pogreb's FileSize for the database with these contents (its error
     is dropped by GetStats) *)
  db_FileSize : gmap string (list byte) -> Z
}.

Record Stats := {
  Waiting : Z;
  Fetching : Z;
  HitForPass : Z;
  Cacheable : Z;
  FileSize : Z
}.

Record CachedResponse := {
  Key : string;
  TTL : Z;
  CreatedAt : Z
}.

Record FetchingResponse := {
  FKey : string;          (* the field Key of FetchingResponse *)
  FCreatedAt : Z          (* the field CreatedAt of FetchingResponse *)
}.

Definition Size (c : Client) : Z := Z.of_nat (size (rsMap c)).

(* the switch in the loop of GetStats *)
Definition countEntry (_ : string) (v : RequestStatus) (s : Stats) : Stats :=
  if status v =? cache.Fetching then
    {| Waiting := Waiting s + Z.of_nat (length (waitingChans v));
       Fetching := Fetching s + 1; HitForPass := HitForPass s;
       Cacheable := Cacheable s; FileSize := FileSize s |}
  else if status v =? cache.HitForPass then
    {| Waiting := Waiting s; Fetching := Fetching s;
       HitForPass := HitForPass s + 1; Cacheable := Cacheable s;
       FileSize := FileSize s |}
  else if status v =? cache.Cacheable then
    {| Waiting := Waiting s; Fetching := Fetching s;
       HitForPass := HitForPass s; Cacheable := Cacheable s + 1;
       FileSize := FileSize s |}
  else s.

Definition GetStats {fsize : StoreSize} (c : Client) : Stats :=
  let mb := 1024 * 1024 in
  map_fold countEntry
    {| Waiting := 0; Fetching := 0; HitForPass := 0; Cacheable := 0;
       FileSize := Z.quot (db_FileSize (db c)) mb |}
    (rsMap c).

(* the body of the loop of GetCachedList *)
Definition cachedEntry (now32 : Z) (key : string) (v : RequestStatus)
    (cacheDatas : list CachedResponse) : list CachedResponse :=
  if negb (status v =? cache.Cacheable)
     || (U.add32 (createdAt v) (ttl v) <? now32)
  then cacheDatas
  else cacheDatas ++ [{| Key := key; TTL := ttl v; CreatedAt := createdAt v |}].

Definition GetCachedList (now : Z) (c : Client) : list CachedResponse :=
  map_fold (cachedEntry (U.uint32 now)) [] (rsMap c).

(* the body of the loop of GetFetchingList *)
Definition fetchingEntry (key : string) (v : RequestStatus)
    (fetchingDatas : list FetchingResponse) : list FetchingResponse :=
  if negb (status v =? cache.Fetching) then fetchingDatas
  else fetchingDatas ++ [{| FKey := key; FCreatedAt := createdAt v |}].

Definition GetFetchingList (c : Client) : list FetchingResponse :=
  map_fold fetchingEntry [] (rsMap c).

End stats.

(** ** More predicates on the state of the status table *)

Module Wake.
Import cache Inv.

(** The shape of an entry in a state the proxy reaches: a fetch under
    way never expires (its ttl is 0), and only a fetch under way has
    waiters. *)
Definition entryShape (rs : RequestStatus) : Prop :=
  (status rs = Fetching /\ ttl rs = 0)
  \/ ((status rs = HitForPass \/ status rs = Cacheable)
      /\ waitingChans rs = []).

Definition tableShape (c : Client) : Prop :=
  forall k rs, rsMap c !! k = Some rs -> entryShape rs.

(** [ch] is in the waiter list of some entry. *)
Definition waitingAt (c : Client) (ch : chan) : Prop :=
  exists k rs, rsMap c !! k = Some rs /\ ch ∈ waitingChans rs.

(** No channel waits twice, in one entry or in two. *)
Definition distinctWaiters (c : Client) : Prop :=
  (forall k rs, rsMap c !! k = Some rs -> NoDup (waitingChans rs))
  /\ (forall k1 k2 rs1 rs2 ch,
        rsMap c !! k1 = Some rs1 -> rsMap c !! k2 = Some rs2 ->
        ch ∈ waitingChans rs1 -> ch ∈ waitingChans rs2 -> k1 = k2).

(** The trace of a sequence of wake-ups: a send, then the close. *)
Definition wakeTrace (l : list (chan * Z)) : list chan_event :=
  flat_map (fun p => [Send p.1 p.2; Close p.1]) l.

(** Every channel in the trace was woken once: sent one status and
    closed at once, and it waits nowhere any more. *)
Definition wokenOnce (c : Client) : Prop :=
  exists l,
    trace c = wakeTrace l
    /\ NoDup l.*1
    /\ forall ch, ch ∈ l.*1 -> (ch < nextChan c)%nat /\ ~ waitingAt c ch.

Definition wakeInv (c : Client) : Prop :=
  chansBelow c /\ distinctWaiters c /\ wokenOnce c.

End Wake.

(** ** Further small instances *)

Module Ref2.

(* a store that takes one megabyte and a half per record *)
Definition flat_size : stats.StoreSize := {|
  stats.db_FileSize := fun d => Z.of_nat (size d) * (1536 * 1024)
|}.

End Ref2.

(** ** Predicates on records and on what the store procedure leaves *)

Module StoreInv.
Import cache middleware.

(** The two ways save can leave the key. *)
Definition settled (c c' : Client) (key : string) (rs : RequestStatus)
    (r : Response) : Prop :=
  exists st t,
    ((st = Cacheable /\ t = TTL r) \/ (st = HitForPass /\ t = HitForPassTTL))
    /\ rsMap c' !! key
       = Some {| createdAt := createdAt rs; ttl := t; status := st;
                 waitingChans := [] |}
    /\ trace c' = trace c ++ flat_map (fun ch => [Send ch st; Close ch])
                              (waitingChans rs).

(** Everything but the three buffers is the same. *)
Definition sameMeta (r r' : Response) : Prop :=
  CreatedAt r' = CreatedAt r /\ StatusCode r' = StatusCode r
  /\ TTL r' = TTL r /\ Header r' = Header r
  /\ CompressLevel r' = CompressLevel r
  /\ CompressMinLength r' = CompressMinLength r.

(** Some buffer of the record is populated. *)
Definition hasContent (r : Response) : Prop :=
  Body r <> [] \/ GzipBody r <> [] \/ BrBody r <> [].

End StoreInv.

(** ** Package pike: the director's configuration and backend selection *)

Module director.

(** The fields of Director that its configuration methods and Select
    read or write. *)
Record Director := {
  Name : string;
  Policy : string;
  Backends : list string;
  AvailableBackends : list string;
  Hosts : list string;
  Prefixs : list string;
  Priority : Z;
  roubin : Z                               (* uint32 *)
}.

(** What a selector reads of a request (pike.Context is not among the
    sources): the value Header.Get gives for a field, the value of a
    cookie if the request has it, RealIP() and RequestURI. *)
Record Context := {
  Header_Get : string -> string;
  Cookie : string -> option string;
  RealIP : string;
  RequestURI : string
}.

(* the host and prefix lists, as Match sees them *)
Definition matcher (d : Director) : pike.Director :=
  {| pike.Hosts := Hosts d; pike.Prefixs := Prefixs d |}.

(* funk.ContainsString *)
Fixpoint ContainsString (s : list string) (v : string) : bool :=
  match s with
  | [] => false
  | x :: rest => String.eqb x v || ContainsString rest v
  end.

(* funk.IndexOfString: the first index holding [v], or -1 *)
Fixpoint IndexOfString (s : list string) (v : string) : Z :=
  match s with
  | [] => -1
  | x :: rest =>
      if String.eqb x v then 0
      else let i := IndexOfString rest v in
           if i =? -1 then -1 else i + 1
  end.

(* append(s[0:index], s[index+1:]...) *)
Definition cutAt (s : list string) (index : Z) : list string :=
  take (Z.to_nat index) s ++ drop (Z.to_nat (index + 1)) s.

Definition set_Priority (p : Z) (d : Director) : Director :=
  {| Name := Name d; Policy := Policy d; Backends := Backends d;
     AvailableBackends := AvailableBackends d; Hosts := Hosts d;
     Prefixs := Prefixs d; Priority := p; roubin := roubin d |}.

Definition set_Hosts (h : list string) (d : Director) : Director :=
  {| Name := Name d; Policy := Policy d; Backends := Backends d;
     AvailableBackends := AvailableBackends d; Hosts := h;
     Prefixs := Prefixs d; Priority := Priority d; roubin := roubin d |}.

Definition set_Prefixs (p : list string) (d : Director) : Director :=
  {| Name := Name d; Policy := Policy d; Backends := Backends d;
     AvailableBackends := AvailableBackends d; Hosts := Hosts d;
     Prefixs := p; Priority := Priority d; roubin := roubin d |}.

Definition set_Backends (b : list string) (d : Director) : Director :=
  {| Name := Name d; Policy := Policy d; Backends := b;
     AvailableBackends := AvailableBackends d; Hosts := Hosts d;
     Prefixs := Prefixs d; Priority := Priority d; roubin := roubin d |}.

Definition set_AvailableBackends (b : list string) (d : Director) : Director :=
  {| Name := Name d; Policy := Policy d; Backends := Backends d;
     AvailableBackends := b; Hosts := Hosts d;
     Prefixs := Prefixs d; Priority := Priority d; roubin := roubin d |}.

Definition set_roubin (r : Z) (d : Director) : Director :=
  {| Name := Name d; Policy := Policy d; Backends := Backends d;
     AvailableBackends := AvailableBackends d; Hosts := Hosts d;
     Prefixs := Prefixs d; Priority := Priority d; roubin := r |}.

Definition RefreshPriority (d : Director) : Director :=
  let priority := 8 in
  let priority := if negb (length (Hosts d) =? 0)%nat then priority - 4
                  else priority in
  let priority := if negb (length (Prefixs d) =? 0)%nat then priority - 2
                  else priority in
  set_Priority priority d.

Definition AddBackend (backend : string) (d : Director) : Director :=
  let backends := Backends d in
  if negb (ContainsString backends backend)
  then set_Backends (backends ++ [backend]) d
  else d.

Definition RemoveBackend (backend : string) (d : Director) : Director :=
  let backends := Backends d in
  let index := IndexOfString backends backend in
  if negb (index =? -1) then set_Backends (cutAt backends index) d else d.

Definition AddAvailableBackend (backend : string) (d : Director) : Director :=
  let backends := AvailableBackends d in
  if negb (ContainsString backends backend)
  then set_AvailableBackends (backends ++ [backend]) d
  else d.

Definition RemoveAvailableBackend (backend : string) (d : Director) : Director :=
  let backends := AvailableBackends d in
  let index := IndexOfString backends backend in
  if negb (index =? -1)
  then set_AvailableBackends (cutAt backends index) d else d.

Definition AddHost (host : string) (d : Director) : Director :=
  let hosts := Hosts d in
  if negb (ContainsString hosts host)
  then RefreshPriority (set_Hosts (hosts ++ [host]) d)
  else d.

Definition RemoveHost (host : string) (d : Director) : Director :=
  let hosts := Hosts d in
  let index := IndexOfString hosts host in
  if negb (index =? -1)
  then RefreshPriority (set_Hosts (cutAt hosts index) d)
  else d.

Definition AddPrefix (prefix : string) (d : Director) : Director :=
  let prefixs := Prefixs d in
  if negb (ContainsString prefixs prefix)
  then RefreshPriority (set_Prefixs (prefixs ++ [prefix]) d)
  else d.

Definition RemovePrefix (prefix : string) (d : Director) : Director :=
  let prefixs := Prefixs d in
  let index := IndexOfString prefixs prefix in
  if negb (index =? -1)
  then RefreshPriority (set_Prefixs (cutAt prefixs index) d)
  else d.

(* Directors.Less *)
Definition Less (di dj : Director) : bool := Priority di <? Priority dj.

(** *** Selection *)

(* hash/fnv New32a, Write, Sum32 *)
Definition fnv_offset32 : Z := 2166136261.
Definition fnv_prime32 : Z := 16777619.

Fixpoint fnv1a (h : Z) (s : string) : Z :=
  match s with
  | EmptyString => h
  | String a s' =>
      fnv1a (U.uint32 (Z.lxor h (Z.of_N (Ascii.N_of_ascii a)) * fnv_prime32)) s'
  end.

Definition hash (s : string) : Z := fnv1a fnv_offset32 s.

(* SelectFunc: the third argument is what rand.Uint32() returns at this
   call; the director comes back with its round-robin counter *)
Definition SelectFunc : Type := Context -> Director -> Z -> Z * Director.

Definition first : string := "first".
Definition random : string := "random".
Definition roundRobin : string := "roundRobin".
Definition ipHash : string := "ipHash".
Definition uriHash : string := "uriHash".
Definition headerHashPrefix : string := "header:".
Definition cookieHashPrefix : string := "cookie:".

Definition errNotSupportPolicy : error := "not support the policy".

Definition AddSelect (name : string) (fn : SelectFunc)
    (selectFuncMap : gmap string SelectFunc) : gmap string SelectFunc :=
  <[name := fn]> selectFuncMap.

Definition AddSelectByHeader (name headerField : string)
    (selectFuncMap : gmap string SelectFunc) : gmap string SelectFunc :=
  AddSelect name (fun c d _ => (hash (Header_Get c headerField), d))
    selectFuncMap.

Definition AddSelectByCookie (name cookieName : string)
    (selectFuncMap : gmap string SelectFunc) : gmap string SelectFunc :=
  AddSelect name
    (fun c d _ =>
       let s := match Cookie c cookieName with
                | Some v => v
                | None => ""%string
                end in
       (hash s, d))
    selectFuncMap.

(* the package's init *)
Definition init : gmap string SelectFunc :=
  AddSelect uriHash (fun c d _ => (hash (RequestURI c), d))
    (AddSelect ipHash (fun c d _ => (hash (RealIP c), d))
       (AddSelect roundRobin
          (fun c d _ =>
             (* atomic.AddUint32(&d.roubin, 1) *)
             let v := U.add32 (roubin d) 1 in (v, set_roubin v d))
          (AddSelect random (fun c d rnd => (rnd, d))
             (AddSelect first (fun c d _ => (0, d)) ∅)))).

(* policy[len(prefix):] *)
Definition dropPrefix (prefix s : string) : string :=
  String.substring (String.length prefix)
    (String.length s - String.length prefix) s.

Definition AddPolicySelectFunc (policy : string)
    (selectFuncMap : gmap string SelectFunc)
  : gmap string SelectFunc * option error :=
  if (String.length policy =? 0)%nat then (selectFuncMap, None)
  else if String.eqb policy first then (selectFuncMap, None)
  else if String.eqb policy random then (selectFuncMap, None)
  else if String.eqb policy roundRobin then (selectFuncMap, None)
  else if String.eqb policy ipHash then (selectFuncMap, None)
  else if String.eqb policy uriHash then (selectFuncMap, None)
  else if String.prefix headerHashPrefix policy then
    (AddSelectByHeader policy (dropPrefix headerHashPrefix policy)
       selectFuncMap, None)
  else if String.prefix cookieHashPrefix policy then
    (AddSelectByCookie policy (dropPrefix cookieHashPrefix policy)
       selectFuncMap, None)
  else (selectFuncMap, Some errNotSupportPolicy).

(* Select: the backend chosen and the director afterwards *)
Definition Select (selectFuncMap : gmap string SelectFunc) (c : Context)
    (rnd : Z) (d : Director) : string * Director :=
  let policy := if (String.length (Policy d) =? 0)%nat then roundRobin
                else Policy d in
  match selectFuncMap !! policy with
  | None => (""%string, d)
  | Some fn =>
      let availableBackends := AvailableBackends d in
      let count := U.uint32 (Z.of_nat (length availableBackends)) in
      if count =? 0 then (""%string, d)
      else
        let '(index, d') := fn c d rnd in
        (* index%count is below the length: the index expression cannot
           be out of range *)
        (nth (Z.to_nat (index mod count)) availableBackends ""%string, d')
  end.

(* that many Selects in a row, for the same request *)
Fixpoint SelectMany (selectFuncMap : gmap string SelectFunc) (c : Context)
    (rnds : list Z) (d : Director) : list string * Director :=
  match rnds with
  | [] => ([], d)
  | rnd :: rest =>
      let '(b, d1) := Select selectFuncMap c rnd d in
      let '(bs, d2) := SelectMany selectFuncMap c rest d1 in
      (b :: bs, d2)
  end.

(** The priority RefreshPriority computes is the one stored. *)
Definition priorityFresh (d : Director) : Prop :=
  Priority d = 8 - (if bool_decide (Hosts d = []) then 0 else 4)
                 - (if bool_decide (Prefixs d = []) then 0 else 2).

(** A change of configuration. *)
Inductive change :=
| ChAddHost (h : string) | ChRemoveHost (h : string)
| ChAddPrefix (p : string) | ChRemovePrefix (p : string)
| ChAddBackend (b : string) | ChRemoveBackend (b : string)
| ChAddAvailableBackend (b : string) | ChRemoveAvailableBackend (b : string).

Definition apply (ch : change) (d : Director) : Director :=
  match ch with
  | ChAddHost h => AddHost h d
  | ChRemoveHost h => RemoveHost h d
  | ChAddPrefix p => AddPrefix p d
  | ChRemovePrefix p => RemovePrefix p d
  | ChAddBackend b => AddBackend b d
  | ChRemoveBackend b => RemoveBackend b d
  | ChAddAvailableBackend b => AddAvailableBackend b d
  | ChRemoveAvailableBackend b => RemoveAvailableBackend b d
  end.

End director.

(** ** Package util: cut *)

Module humanize.
Import Stdlib.Strings.Ascii.

(* [cut] looks at the last byte and recurses on the string without it:
   on the reversed string that is the head and the tail *)
Fixpoint cut_rev (r : list Ascii.ascii) : list Ascii.ascii :=
  match r with
  | [] => []
  | ch :: rest =>
      if Ascii.eqb ch "0"%char || Ascii.eqb ch "."%char
      then cut_rev rest
      else r
  end.

Definition cut (str : string) : string :=
  String.string_of_list_ascii (rev (cut_rev (rev (String.list_ascii_of_string str)))).

(* the bytes cut strips *)
Definition zeroOrDot (ch : Ascii.ascii) : Prop :=
  ch = "0"%char \/ ch = "."%char.

End humanize.

(** ** Package proxy: the selection policies *)

Module proxy.

(** What the policies read of an UpstreamHost (the type is declared in a
    file that is not among the sources): the result of Available() and
    the number of connections. *)
Record UpstreamHost := {
  Host : string;
  Conns : Z;                               (* int64 *)
  Available : bool
}.

Definition MaxInt64 : Z := 2 ^ 63 - 1.

(* First.Select *)
Fixpoint First_Select (pool : list UpstreamHost) : option UpstreamHost :=
  match pool with
  | [] => None
  | host :: rest => if Available host then Some host else First_Select rest
  end.

(* pool[i], for an index known to be in range *)
Definition at_index (pool : list UpstreamHost) (i : Z) : option UpstreamHost :=
  pool !! Z.to_nat i.

(* the loop of RoundRobin.Select with [n] rounds to go; [None] is a panic
   (index out of range), otherwise the host found, if any, and the
   counter *)
Fixpoint RoundRobin_loop (pool : list UpstreamHost) (poolLen : Z) (n : nat)
    (robin : Z) : option (option UpstreamHost * Z) :=
  match n with
  | O => Some (None, robin)
  | S n' =>
      let robin := U.add32 robin 1 in
      host ← at_index pool (robin mod poolLen);
      if Available host then Some (Some host, robin)
      else RoundRobin_loop pool poolLen n' robin
  end.

Definition RoundRobin_Select (pool : list UpstreamHost) (robin : Z)
  : option (option UpstreamHost * Z) :=
  let poolLen := U.uint32 (Z.of_nat (length pool)) in
  RoundRobin_loop pool poolLen (Z.to_nat poolLen) robin.

(* the loop of hostByHashing from round [i], with [n] rounds to go *)
Fixpoint hostByHashing_loop (pool : list UpstreamHost) (poolLen : Z)
    (n : nat) (i : Z) (index : Z) : option (option UpstreamHost) :=
  match n with
  | O => Some None
  | S n' =>
      let index := U.add32 index i in
      host ← at_index pool (index mod poolLen);
      if Available host then Some (Some host)
      else hostByHashing_loop pool poolLen n' (i + 1) index
  end.

(* [None] is a panic: the division by zero on an empty pool *)
Definition hostByHashing (pool : list UpstreamHost) (s : string)
  : option (option UpstreamHost) :=
  let poolLen := U.uint32 (Z.of_nat (length pool)) in
  if poolLen =? 0 then None
  else
    let index := director.hash s mod poolLen in
    hostByHashing_loop pool poolLen (Z.to_nat poolLen) 0 index.

(* the state of the loop of LeastConn.Select; [calls] counts the calls
   of rand.Int() *)
Record leastState := {
  bestHost : option UpstreamHost;
  count : Z;
  leastConn : Z;
  calls : nat
}.

(* one round of the loop; [rand k] is what the k-th call of rand.Int()
   returns *)
Definition LeastConn_step (rand : nat -> Z) (st : leastState)
    (host : UpstreamHost) : leastState :=
  if negb (Available host) then st
  else
    let st1 :=
      if Conns host <? leastConn st
      then {| bestHost := bestHost st; count := 0; leastConn := Conns host;
              calls := calls st |}
      else st in
    if Conns host =? leastConn st1 then
      let count' := count st1 + 1 in
      if Z.rem (rand (calls st1)) count' =? 0
      then {| bestHost := Some host; count := count';
              leastConn := leastConn st1; calls := S (calls st1) |}
      else {| bestHost := bestHost st1; count := count';
              leastConn := leastConn st1; calls := S (calls st1) |}
    else st1.

Definition LeastConn_Select (rand : nat -> Z) (pool : list UpstreamHost)
  : option UpstreamHost :=
  bestHost
    (foldl (LeastConn_step rand)
       {| bestHost := None; count := 0; leastConn := MaxInt64; calls := O |}
       pool).

(* the loop of Random.Select: the host kept so far, the count and the
   number of calls of rand.Int() *)
Definition Random_step (rand : nat -> Z)
    (st : option UpstreamHost * Z * nat) (host : UpstreamHost)
  : option UpstreamHost * Z * nat :=
  let '(randHost, count, calls) := st in
  if negb (Available host) then st
  else
    let count := count + 1 in
    if Z.rem (rand calls) count =? 0 then (Some host, count, S calls)
    else (randHost, count, S calls).

Definition Random_Select (rand : nat -> Z) (pool : list UpstreamHost)
  : option UpstreamHost :=
  (foldl (Random_step rand) (None, 0, O) pool).1.1.

End proxy.

(** * Properties *)

(** ** The little-endian helpers *)

Section le_facts.

Lemma Z_of_byte_of_Z z : Z_of_byte (byte_of_Z z) = z mod 256.
Proof.
  unfold Z_of_byte, byte_of_Z.
  assert (Hr : 0 <= z mod 256 < 256) by (apply Z.mod_pos_bound; lia).
  destruct (Byte.of_N (Z.to_N (z mod 256))) as [b|] eqn:E.
  - apply Byte.to_of_N in E. rewrite E. lia.
  - apply Byte.of_N_None_iff in E. lia.
Qed.

Lemma Z_of_byte_range b : 0 <= Z_of_byte b < 256.
Proof.
  unfold Z_of_byte. pose proof (Byte.to_N_bounded b). lia.
Qed.

Lemma byte_of_Z_of_byte b : byte_of_Z (Z_of_byte b) = b.
Proof.
  unfold byte_of_Z. pose proof (Z_of_byte_range b) as Hr.
  rewrite Z.mod_small by lia. unfold Z_of_byte.
  rewrite N2Z.id, Byte.of_to_N. reflexivity.
Qed.

Lemma byte_lane_bit v k n :
  0 <= k -> 0 <= n ->
  Z.testbit (Z.shiftl (Z.shiftr v k mod 256) k) n
  = (k <=? n) && (n <? k + 8) && Z.testbit v n.
Proof.
  intros Hk Hn. change 256 with (2 ^ 8).
  rewrite Z.shiftl_spec by lia.
  destruct (Z.leb_spec k n) as [Hle|Hlt]; simpl.
  - rewrite Z.testbit_mod_pow2, Z.shiftr_spec by lia.
    replace (n - k + k) with n by lia.
    destruct (Z.ltb_spec (n - k) 8), (Z.ltb_spec n (k + 8)); try lia; reflexivity.
  - apply Z.testbit_neg_r. lia.
Qed.

Lemma byte_lane0_bit v n :
  0 <= n -> Z.testbit (v mod 256) n = (n <? 8) && Z.testbit v n.
Proof. intros Hn. change 256 with (2 ^ 8). apply Z.testbit_mod_pow2. lia. Qed.

Lemma le_join16 v :
  Z.lor (v mod 256) (Z.shiftl (Z.shiftr v 8 mod 256) 8) = v mod 2 ^ 16.
Proof.
  apply Z.bits_inj'. intros n Hn.
  rewrite Z.lor_spec, byte_lane0_bit, byte_lane_bit, Z.testbit_mod_pow2 by lia.
  destruct (Z.ltb_spec n 8), (Z.leb_spec 8 n), (Z.ltb_spec n (8 + 8)),
    (Z.ltb_spec n 16); try lia; simpl; rewrite ?orb_false_r; reflexivity.
Qed.

Lemma le_join32 v :
  Z.lor (Z.lor (Z.lor (v mod 256) (Z.shiftl (Z.shiftr v 8 mod 256) 8))
               (Z.shiftl (Z.shiftr v 16 mod 256) 16))
        (Z.shiftl (Z.shiftr v 24 mod 256) 24) = v mod 2 ^ 32.
Proof.
  apply Z.bits_inj'. intros n Hn.
  rewrite !Z.lor_spec, byte_lane0_bit, !byte_lane_bit, Z.testbit_mod_pow2 by lia.
  destruct (Z.ltb_spec n 8), (Z.leb_spec 8 n), (Z.ltb_spec n (8 + 8)),
    (Z.leb_spec 16 n), (Z.ltb_spec n (16 + 8)), (Z.leb_spec 24 n),
    (Z.ltb_spec n (24 + 8)), (Z.ltb_spec n 32); try lia; simpl;
    rewrite ?orb_false_r; reflexivity.
Qed.

Lemma bytesToUint16_uint16ToBytes v rest :
  bytesToUint16 (uint16ToBytes v ++ rest) = Some (U.uint16 v).
Proof.
  unfold bytesToUint16, uint16ToBytes; simpl.
  rewrite !Z_of_byte_of_Z, le_join16. reflexivity.
Qed.

Lemma bytesToUint32_uint32ToBytes v rest :
  bytesToUint32 (uint32ToBytes v ++ rest) = Some (U.uint32 v).
Proof.
  unfold bytesToUint32, uint32ToBytes; simpl.
  rewrite !Z_of_byte_of_Z, le_join32. reflexivity.
Qed.

End le_facts.

(** ** The request-status table *)

Section status_table.
Import cache Inv.

Lemma isExpired_spec now rs : isExpired now rs = true <-> expiredAt now rs.
Proof.
  unfold isExpired, expiredAt.
  rewrite andb_true_iff, negb_true_iff, Z.eqb_neq, Z.ltb_lt. lia.
Qed.

Lemma isExpired_false now rs : isExpired now rs = false <-> ~ expiredAt now rs.
Proof. rewrite <- isExpired_spec. destruct (isExpired now rs); naive_solver. Qed.

Lemma sweepable_spec now delay v :
  sweepable (U.uint32 now) delay v = true <-> expiredWithGrace now delay v.
Proof.
  unfold sweepable, expiredWithGrace.
  rewrite andb_true_iff, negb_true_iff, Z.eqb_neq, Z.ltb_lt. lia.
Qed.

(** In the ranges the values really have (no clock running backwards, no
    overflow of ttl + delay) the two conditions are the plain ones. *)
Lemma expiredAt_plain now rs :
  U.is_u32 now -> 0 <= createdAt rs <= now ->
  expiredAt now rs <-> (ttl rs <> 0 /\ now - createdAt rs > ttl rs).
Proof.
  unfold expiredAt, U.is_u32, U.sub32, U.uint32. intros Hn Hc.
  rewrite (Z.mod_small now) by lia.
  rewrite (Z.mod_small (now - createdAt rs)) by lia. reflexivity.
Qed.

Lemma expiredWithGrace_plain now delay v :
  U.is_u32 now -> 0 <= createdAt v <= now -> 0 <= ttl v -> 0 <= delay ->
  ttl v + delay < 2 ^ 32 ->
  expiredWithGrace now delay v
  <-> (ttl v <> 0 /\ now - createdAt v > ttl v + delay).
Proof.
  unfold expiredWithGrace, U.is_u32, U.sub32, U.add32, U.uint32.
  intros Hn Hc Ht Hd Hs.
  rewrite (Z.mod_small now), (Z.mod_small delay) by lia.
  rewrite (Z.mod_small (now - createdAt v)), (Z.mod_small (ttl v + delay)) by lia.
  reflexivity.
Qed.

(** GetRequestStatus re-checks under the exclusive lock what it checked
    under the shared one: in one atomic step it is lockAndUpdateRsMap. *)
Lemma GetRequestStatus_lockAndUpdateRsMap now key c :
  GetRequestStatus now key c = lockAndUpdateRsMap now key c.
Proof.
  unfold GetRequestStatus, lockAndUpdateRsMap.
  destruct (rsMap c !! key) as [rs|]; [|reflexivity].
  destruct (isExpired now rs); [reflexivity|].
  destruct (status rs =? Fetching); reflexivity.
Qed.

Lemma notify_flat_map st chans tr :
  notify st chans tr = tr ++ flat_map (fun ch => [Send ch st; Close ch]) chans.
Proof.
  unfold notify. revert tr.
  induction chans as [|ch chans IH]; intros tr; simpl.
  - by rewrite app_nil_r.
  - rewrite IH, <- app_assoc. reflexivity.
Qed.

Lemma sweep_fold now32 delay c0 m :
  swept now32 delay c0 (map_fold (sweepEntry now32 delay) c0 m) m.
Proof.
  apply (map_fold_weak_ind (fun r m => swept now32 delay c0 r m)).
  - split; [done|split; [done|]]. intros k. by rewrite lookup_empty.
  - intros i x m' r Hi (Hn & Ht & Hk). unfold sweepEntry.
    destruct (sweepable now32 delay x) eqn:Hs; simpl;
      (split; [done|split; [done|]]); intros k;
      specialize (Hk k); destruct (decide (i = k)) as [->|Hne].
    + rewrite lookup_insert_eq, Hs. simpl. by rewrite !lookup_delete_eq.
    + rewrite lookup_insert_ne by done. simpl.
      rewrite !lookup_delete_ne by done. exact Hk.
    + rewrite lookup_insert_eq, Hs. by rewrite Hi in Hk.
    + rewrite lookup_insert_ne by done. exact Hk.
Qed.

Lemma ClearExpired_lookup now delay c k :
  let c' := ClearExpired now delay c in
  match rsMap c !! k with
  | Some v =>
      if sweepable (U.uint32 now) (effectiveDelay delay) v
      then rsMap c' !! k = None /\ db c' !! k = None
      else rsMap c' !! k = Some v /\ db c' !! k = db c !! k
  | None => rsMap c' !! k = None /\ db c' !! k = db c !! k
  end.
Proof.
  intros c'.
  destruct (sweep_fold (U.uint32 now) (effectiveDelay delay) c (rsMap c))
    as (_ & _ & Hk).
  specialize (Hk k). fold (ClearExpired now delay c) in Hk. fold c' in Hk.
  destruct (rsMap c !! k) as [v|] eqn:E; [|exact Hk].
  destruct (sweepable _ _ v); exact Hk.
Qed.

Lemma ClearExpired_subset now delay c k rs :
  rsMap (ClearExpired now delay c) !! k = Some rs -> rsMap c !! k = Some rs.
Proof.
  intros Hl. pose proof (ClearExpired_lookup now delay c k) as Hk. simpl in Hk.
  destruct (rsMap c !! k) as [v|];
    [destruct (sweepable _ _ v)|]; destruct Hk as [Hk _]; congruence.
Qed.

Lemma ClearExpired_nextChan now delay c :
  nextChan (ClearExpired now delay c) = nextChan c.
Proof.
  by destruct (sweep_fold (U.uint32 now) (effectiveDelay delay) c (rsMap c))
    as (Hn & _ & _).
Qed.

(** *** The invariants hold in every reachable state *)

Lemma lockAndUpdateRsMap_lookup now key c k rs :
  rsMap (lockAndUpdateRsMap now key c).1 !! k = Some rs ->
  rsMap c !! k = Some rs
  \/ (k = key /\ rs = newFetching now)
  \/ (k = key /\ exists rs0, rsMap c !! key = Some rs0
                 /\ status rs0 = Fetching /\ rs = addWaiter (nextChan c) rs0
                 /\ nextChan (lockAndUpdateRsMap now key c).1 = S (nextChan c)).
Proof.
  unfold lockAndUpdateRsMap.
  destruct (rsMap c !! key) as [rs0|] eqn:E.
  - destruct (isExpired now rs0).
    + simpl. destruct (decide (key = k)) as [->|Hne].
      * rewrite lookup_insert_eq. naive_solver.
      * rewrite lookup_insert_ne by done. naive_solver.
    + destruct (Z.eqb_spec (status rs0) Fetching) as [Hf|Hf]; simpl.
      * destruct (decide (key = k)) as [->|Hne].
        -- rewrite lookup_insert_eq. naive_solver.
        -- rewrite lookup_insert_ne by done. naive_solver.
      * naive_solver.
  - simpl. destruct (decide (key = k)) as [->|Hne].
    + rewrite lookup_insert_eq. naive_solver.
    + rewrite lookup_insert_ne by done. naive_solver.
Qed.

Lemma lockAndUpdateRsMap_nextChan now key c :
  (nextChan c <= nextChan (lockAndUpdateRsMap now key c).1)%nat.
Proof.
  unfold lockAndUpdateRsMap.
  destruct (rsMap c !! key) as [rs0|]; [|simpl; lia].
  destruct (isExpired now rs0); [simpl; lia|].
  destruct (status rs0 =? Fetching); simpl; lia.
Qed.

Lemma UpdateRequestStatus_lookup key st ttl' c k rs :
  rsMap (UpdateRequestStatus key st ttl' c) !! k = Some rs ->
  rsMap c !! k = Some rs
  \/ (k = key /\ status rs = st /\ waitingChans rs = []).
Proof.
  unfold UpdateRequestStatus.
  destruct (rsMap c !! key) as [rs0|] eqn:E; [|naive_solver].
  simpl. destruct (decide (key = k)) as [->|Hne].
  - rewrite lookup_insert_eq. intros [= <-]. naive_solver.
  - rewrite lookup_insert_ne by done. naive_solver.
Qed.

Lemma UpdateRequestStatus_nextChan key st ttl' c :
  nextChan (UpdateRequestStatus key st ttl' c) = nextChan c.
Proof.
  unfold UpdateRequestStatus. by destruct (rsMap c !! key).
Qed.

Lemma Remove_lookup key c k rs :
  rsMap (Remove key c) !! k = Some rs -> rsMap c !! k = Some rs.
Proof.
  unfold Remove; simpl. destruct (decide (key = k)) as [->|Hne].
  - by rewrite lookup_delete_eq.
  - by rewrite lookup_delete_ne.
Qed.

Lemma noWaitingStored_Init store : noWaitingStored (Init store).
Proof. intros k rs. unfold Init; simpl. by rewrite lookup_empty. Qed.

Lemma noWaitingStored_run o c : noWaitingStored c -> noWaitingStored (run o c).
Proof.
  intros Hc k rs Hl. destruct o as [now key|key t|key t|now delay|key]; simpl in Hl.
  - rewrite GetRequestStatus_lockAndUpdateRsMap in Hl.
    apply lockAndUpdateRsMap_lookup in Hl
      as [Hl|[[_ ->]|[_ (rs0 & Hl & Hf & -> & _)]]]; simpl.
    + by eapply Hc.
    + done.
    + by rewrite Hf.
  - apply UpdateRequestStatus_lookup in Hl as [Hl|(_ & -> & _)];
      [by eapply Hc|done].
  - apply UpdateRequestStatus_lookup in Hl as [Hl|(_ & -> & _)];
      [by eapply Hc|done].
  - apply ClearExpired_subset in Hl. by eapply Hc.
  - apply Remove_lookup in Hl. by eapply Hc.
Qed.

Lemma reachable_noWaitingStored c : reachable c -> noWaitingStored c.
Proof.
  induction 1 as [store|o c _ IH];
    [apply noWaitingStored_Init|by apply noWaitingStored_run].
Qed.

Lemma chansBelow_Init store : chansBelow (Init store).
Proof. intros k rs ch. unfold Init; simpl. by rewrite lookup_empty. Qed.

Lemma chansBelow_run o c : chansBelow c -> chansBelow (run o c).
Proof.
  intros Hc k rs ch Hl Hin.
  destruct o as [now key|key t|key t|now delay|key]; simpl in *;
    unfold Client_HitForPass, Client_Cacheable in *.
  - rewrite GetRequestStatus_lockAndUpdateRsMap in *.
    pose proof (lockAndUpdateRsMap_nextChan now key c) as Hle.
    apply lockAndUpdateRsMap_lookup in Hl
      as [Hl|[[_ ->]|[-> (rs0 & Hl & Hf & -> & Hn)]]]; simpl in Hin.
    + specialize (Hc _ _ _ Hl Hin). lia.
    + by apply elem_of_nil in Hin.
    + rewrite Hn. apply elem_of_app in Hin as [Hin|Hin].
      * specialize (Hc _ _ _ Hl Hin). lia.
      * apply list_elem_of_singleton in Hin. lia.
  - rewrite UpdateRequestStatus_nextChan.
    apply UpdateRequestStatus_lookup in Hl as [Hl|(_ & _ & Hw)].
    + by eapply Hc.
    + rewrite Hw in Hin. by apply elem_of_nil in Hin.
  - rewrite UpdateRequestStatus_nextChan.
    apply UpdateRequestStatus_lookup in Hl as [Hl|(_ & _ & Hw)].
    + by eapply Hc.
    + rewrite Hw in Hin. by apply elem_of_nil in Hin.
  - rewrite ClearExpired_nextChan. apply ClearExpired_subset in Hl. by eapply Hc.
  - apply Remove_lookup in Hl. by eapply Hc.
Qed.

End status_table.

(** ** The coordinator's contracts *)

Section coordinator.
Import cache Inv.

(** C1, the claim as worded: whenever the entry of the key is in
    Fetching state, GetRequestStatus leaves an entry whose createdAt is
    now.  This fails: a caller that finds an unexpired Fetching entry
    is queued on it and the entry keeps the createdAt of the fetch that
    is under way (here 100, while now is 200). *)
Lemma GetRequestStatus_createdAt_now_cex :
  ~ (forall now key c rs,
       rsMap c !! key = Some rs -> status rs = Fetching ->
       exists rs', rsMap (GetRequestStatus now key c).1 !! key = Some rs'
                   /\ status rs' = Fetching
                   /\ createdAt rs' = U.uint32 now).
Proof.
  intros Hclaim.
  pose (rs0 := {| createdAt := 100; ttl := 0; status := Fetching;
                  waitingChans := [] |}).
  pose (c0 := {| rsMap := {["k" := rs0]}; db := ∅; nextChan := O;
                 trace := [] |}).
  destruct (Hclaim 200 "k"%string c0 rs0) as (rs' & Hl & _ & Hc).
  - apply lookup_singleton_eq.
  - reflexivity.
  - unfold GetRequestStatus, lockAndUpdateRsMap in Hl. simpl in Hl.
    rewrite lookup_singleton_eq in Hl. simpl in Hl.
    rewrite lookup_insert_eq in Hl. injection Hl as <-.
    simpl in Hc. vm_compute in Hc. discriminate Hc.
Qed.

(** C1, amended: GetRequestStatus, in one atomic step,
    - when the key has no entry or its entry is expired (ttl not 0 and
      now - createdAt > ttl in uint32 arithmetic), installs a new entry
      in Fetching state with createdAt now, ttl 0 and no waiter, and
      answers Fetching with the nil channel;
    - when the entry is unexpired and Fetching, answers Waiting with a
      channel just made and appends that channel to the entry's waiters,
      the entry keeping its createdAt, ttl and status;
    - in every other case answers the stored status with the nil channel
      and changes nothing;
    and it never touches another key, the store or the trace. *)
Theorem GetRequestStatus_contract now key c :
  let c' := (GetRequestStatus now key c).1 in
  let st := (GetRequestStatus now key c).2.1 in
  let ch := (GetRequestStatus now key c).2.2 in
  ((rsMap c !! key = None
    \/ exists rs, rsMap c !! key = Some rs /\ expiredAt now rs) ->
     st = Fetching /\ ch = None /\ nextChan c' = nextChan c /\
     rsMap c' !! key = Some {| createdAt := U.uint32 now; ttl := 0;
                               status := Fetching; waitingChans := [] |})
  /\ (forall rs, rsMap c !! key = Some rs -> ~ expiredAt now rs ->
        status rs = Fetching ->
        st = Waiting /\ ch = Some (nextChan c) /\
        nextChan c' = S (nextChan c) /\
        rsMap c' !! key = Some {| createdAt := createdAt rs; ttl := ttl rs;
                                  status := Fetching;
                                  waitingChans := waitingChans rs ++ [nextChan c] |} /\
        (chansBelow c -> forall k rs0, rsMap c !! k = Some rs0 ->
           nextChan c ∉ waitingChans rs0))
  /\ (forall rs, rsMap c !! key = Some rs -> ~ expiredAt now rs ->
        status rs <> Fetching ->
        st = status rs /\ ch = None /\ c' = c)
  /\ (forall k, k <> key -> rsMap c' !! k = rsMap c !! k)
  /\ db c' = db c /\ trace c' = trace c.
Proof.
  intros c' st ch. subst c' st ch.
  rewrite GetRequestStatus_lockAndUpdateRsMap. unfold lockAndUpdateRsMap.
  destruct (rsMap c !! key) as [rs0|] eqn:E.
  - destruct (isExpired now rs0) eqn:He.
    + apply isExpired_spec in He. simpl.
      repeat apply conj; try done.
      * intros _. by rewrite lookup_insert_eq.
      * intros rs [= <-] Hne. done.
      * intros rs [= <-] Hne. done.
      * intros k Hk. by rewrite lookup_insert_ne.
    + apply isExpired_false in He.
      destruct (Z.eqb_spec (status rs0) Fetching) as [Hf|Hf]; simpl.
      * repeat apply conj; try done.
        -- intros [[=]|(rs & [= <-] & Hx)]. done.
        -- intros rs [= <-] _ _. repeat apply conj; try done.
           ++ rewrite lookup_insert_eq. unfold addWaiter. by rewrite Hf.
           ++ intros Hb k rs1 Hl Hin.
              specialize (Hb _ _ _ Hl Hin). lia.
        -- intros rs [= <-] _ Hn. done.
        -- intros k Hk. by rewrite lookup_insert_ne.
      * repeat apply conj; try done.
        -- intros [[=]|(rs & [= <-] & Hx)]. done.
        -- intros rs [= <-] _ Hn. done.
        -- intros rs [= <-] _ _. done.
  - simpl. repeat apply conj; try done.
    + intros _. by rewrite lookup_insert_eq.
    + intros k Hk. by rewrite lookup_insert_ne.
Qed.

(** A waiter arriving at time 200 on a fetch started at time 100. *)
Lemma GetRequestStatus_contract_witness :
  let rs0 := {| createdAt := 100; ttl := 0; status := Fetching;
                waitingChans := [7%nat] |} in
  let c0 := {| rsMap := {["k" := rs0]}; db := ∅; nextChan := 8%nat;
               trace := [] |} in
  (GetRequestStatus 200 "k" c0).2 = (Waiting, Some 8%nat)
  /\ rsMap (GetRequestStatus 200 "k" c0).1 !! "k"
     = Some {| createdAt := 100; ttl := 0; status := Fetching;
               waitingChans := [7%nat; 8%nat] |}.
Proof.
  intros rs0 c0.
  destruct (GetRequestStatus_contract 200 "k" c0) as (_ & H & _).
  destruct (H rs0) as (Hst & Hch & _ & Hl & _).
  - apply lookup_singleton_eq.
  - unfold expiredAt. simpl. intros [Hne _]. apply Hne. reflexivity.
  - reflexivity.
  - split; [|exact Hl].
    destruct (GetRequestStatus 200 "k" c0) as [c1 [st ch]]; simpl in *.
    by rewrite Hst, Hch.
Defined.

(** C9: in a state that stores no Waiting status (the data model's
    invariant, kept by every operation), GetRequestStatus returns a
    channel exactly when it answers Waiting; an answer of Fetching,
    HitForPass or Cacheable comes with the nil channel. *)
Theorem GetRequestStatus_chan_iff_Waiting now key c :
  noWaitingStored c ->
  let st := (GetRequestStatus now key c).2.1 in
  let ch := (GetRequestStatus now key c).2.2 in
  (ch <> None <-> st = Waiting)
  /\ (st = Fetching \/ st = HitForPass \/ st = Cacheable -> ch = None).
Proof.
  intros Hinv st ch.
  assert (Hiff : ch <> None <-> st = Waiting).
  { subst st ch. rewrite GetRequestStatus_lockAndUpdateRsMap.
    unfold lockAndUpdateRsMap.
    destruct (rsMap c !! key) as [rs0|] eqn:E; [|simpl; split; done].
    destruct (isExpired now rs0); [simpl; split; done|].
    destruct (status rs0 =? Fetching); simpl; [split; done|].
    specialize (Hinv _ _ E). split; done. }
  split; [exact Hiff|].
  intros Hst. destruct ch as [n|]; [|reflexivity].
  assert (Hw : st = Waiting) by (apply Hiff; discriminate).
  rewrite Hw in Hst. destruct Hst as [Hst|[Hst|Hst]]; discriminate Hst.
Qed.

(** A Cacheable entry queried while fresh. *)
Lemma GetRequestStatus_chan_iff_Waiting_witness :
  let c0 := {| rsMap := {["k" := {| createdAt := 100; ttl := 60;
                                    status := Cacheable;
                                    waitingChans := [] |}]};
               db := ∅; nextChan := O; trace := [] |} in
  noWaitingStored c0
  /\ ((GetRequestStatus 120 "k" c0).2.2 <> None
      <-> (GetRequestStatus 120 "k" c0).2.1 = Waiting).
Proof.
  intros c0.
  assert (Hinv : noWaitingStored c0).
  { intros k rs Hl. unfold c0 in Hl; simpl in Hl.
    apply lookup_singleton_Some in Hl as [_ <-]. discriminate. }
  split; [exact Hinv|].
  exact (proj1 (GetRequestStatus_chan_iff_Waiting 120 "k" c0 Hinv)).
Defined.

(** C2: UpdateRequestStatus changes nothing when the key has no entry
    (none is created); when it has one, the entry gets the new status
    and ttl and keeps its createdAt, every waiting channel, in the order
    the waiters were appended, is sent the new status and closed, and
    the entry is left without waiters.  Other keys, the store and the
    channel supply are untouched. *)
Theorem UpdateRequestStatus_contract key st ttl' c :
  let c' := UpdateRequestStatus key st ttl' c in
  (rsMap c !! key = None -> c' = c)
  /\ (forall rs, rsMap c !! key = Some rs ->
        rsMap c' !! key = Some {| createdAt := createdAt rs; ttl := ttl';
                                  status := st; waitingChans := [] |}
        /\ trace c' = trace c
             ++ flat_map (fun ch => [Send ch st; Close ch]) (waitingChans rs))
  /\ (forall k, k <> key -> rsMap c' !! k = rsMap c !! k)
  /\ dom (rsMap c') = dom (rsMap c)
  /\ db c' = db c /\ nextChan c' = nextChan c.
Proof.
  intros c'. subst c'. unfold UpdateRequestStatus.
  destruct (rsMap c !! key) as [rs0|] eqn:E; simpl.
  - repeat apply conj; try done.
    + intros rs [= <-]. split.
      * by rewrite lookup_insert_eq.
      * apply notify_flat_map.
    + intros k Hk. by rewrite lookup_insert_ne.
    + apply dom_insert_lookup_L. by rewrite E.
  - repeat apply conj; done.
Qed.

(** Two waiters released by the transition to Cacheable. *)
Lemma UpdateRequestStatus_contract_witness :
  let rs0 := {| createdAt := 100; ttl := 0; status := Fetching;
                waitingChans := [0%nat; 1%nat] |} in
  let c0 := {| rsMap := {["k" := rs0]}; db := ∅; nextChan := 2%nat;
               trace := [] |} in
  rsMap (UpdateRequestStatus "k" Cacheable 60 c0) !! "k"
    = Some {| createdAt := 100; ttl := 60; status := Cacheable;
              waitingChans := [] |}
  /\ trace (UpdateRequestStatus "k" Cacheable 60 c0)
     = [Send 0%nat Cacheable; Close 0%nat; Send 1%nat Cacheable; Close 1%nat].
Proof.
  intros rs0 c0.
  destruct (UpdateRequestStatus_contract "k" Cacheable 60 c0) as (_ & H & _).
  exact (H rs0 (lookup_singleton_eq _ _)).
Defined.

(** C6: ClearExpired removes the status entry and the persisted record
    of exactly the entries with ttl not 0 and
    now - createdAt > ttl + delay (uint32 arithmetic, as the code
    computes it), and leaves every other entry and every other record as
    it was; a negative delay is replaced by 60. *)
Theorem ClearExpired_contract now delay c :
  let d := if delay <? 0 then 60 else delay in
  let c' := ClearExpired now delay c in
  (forall k v, rsMap c !! k = Some v -> expiredWithGrace now d v ->
     rsMap c' !! k = None /\ db c' !! k = None)
  /\ (forall k v, rsMap c !! k = Some v -> ~ expiredWithGrace now d v ->
        rsMap c' !! k = Some v /\ db c' !! k = db c !! k)
  /\ (forall k, rsMap c !! k = None ->
        rsMap c' !! k = None /\ db c' !! k = db c !! k)
  /\ (delay < 0 -> c' = ClearExpired now 60 c).
Proof.
  intros d c'. fold (effectiveDelay delay) in d.
  repeat apply conj.
  - intros k v Hl Hx. apply sweepable_spec in Hx.
    pose proof (ClearExpired_lookup now delay c k) as Hk. simpl in Hk.
    rewrite Hl in Hk. fold d in Hk. by rewrite Hx in Hk.
  - intros k v Hl Hx.
    pose proof (ClearExpired_lookup now delay c k) as Hk. simpl in Hk.
    rewrite Hl in Hk. fold d in Hk.
    destruct (sweepable (U.uint32 now) d v) eqn:Hs; [|exact Hk].
    apply sweepable_spec in Hs. contradiction.
  - intros k Hl.
    pose proof (ClearExpired_lookup now delay c k) as Hk. simpl in Hk.
    by rewrite Hl in Hk.
  - intros Hneg. subst c'. unfold ClearExpired, effectiveDelay.
    destruct (Z.ltb_spec delay 0); [reflexivity|lia].
Qed.

(** The spec's scenario: ttl 10, grace 60, swept at t = 71 and at
    t = 70, with another entry that never expires. *)
Lemma ClearExpired_contract_witness :
  let e := {| createdAt := 0; ttl := 10; status := Cacheable;
              waitingChans := [] |} in
  let c0 := {| rsMap := {["k" := e]}; db := {["k" := [x01]]};
               nextChan := O; trace := [] |} in
  (rsMap (ClearExpired 71 60 c0) !! "k" = None
   /\ db (ClearExpired 71 60 c0) !! "k" = None)
  /\ (rsMap (ClearExpired 70 60 c0) !! "k" = Some e
      /\ db (ClearExpired 70 60 c0) !! "k" = Some [x01]).
Proof.
  intros e c0. split.
  - destruct (ClearExpired_contract 71 60 c0) as (H & _).
    apply (H "k" e); [apply lookup_singleton_eq|].
    unfold expiredWithGrace; simpl. split; [discriminate|]. vm_compute. reflexivity.
  - destruct (ClearExpired_contract 70 60 c0) as (_ & H & _).
    destruct (H "k" e) as [H1 H2]; [apply lookup_singleton_eq| |].
    + unfold expiredWithGrace; simpl. intros [_ Hgt]. vm_compute in Hgt.
      discriminate Hgt.
    + split; [exact H1|]. rewrite H2. apply lookup_singleton_eq.
Defined.

End coordinator.

(** ** The persisted form *)

Section wire_format.
Import cache Inv.

Lemma len_app (a b : list byte) : len (a ++ b) = len a + len b.
Proof. unfold len. rewrite length_app. lia. Qed.

Lemma len_nonneg (a : list byte) : 0 <= len a.
Proof. unfold len. lia. Qed.

Lemma slice_mid (pre mid post : list byte) lo hi :
  lo = len pre -> hi = lo + len mid ->
  slice (pre ++ mid ++ post) lo hi = Some mid.
Proof.
  intros -> ->. unfold slice.
  rewrite bool_decide_eq_true_2.
  - f_equal. unfold len.
    replace (Z.to_nat (Z.of_nat (length pre) + Z.of_nat (length mid)
                       - Z.of_nat (length pre))) with (length mid) by lia.
    rewrite Nat2Z.id, drop_app_length, take_app_length. reflexivity.
  - rewrite !length_app. unfold len. lia.
Qed.

Lemma slice_last (pre mid : list byte) lo hi :
  lo = len pre -> hi = lo + len mid -> slice (pre ++ mid) lo hi = Some mid.
Proof.
  intros Hlo Hhi. rewrite <- (app_nil_r mid) at 1. by apply slice_mid.
Qed.

Lemma bytesToUint16_exact v : bytesToUint16 (uint16ToBytes v) = Some (U.uint16 v).
Proof.
  rewrite <- (app_nil_r (uint16ToBytes v)). apply bytesToUint16_uint16ToBytes.
Qed.

Lemma bytesToUint32_exact v : bytesToUint32 (uint32ToBytes v) = Some (U.uint32 v).
Proof.
  rewrite <- (app_nil_r (uint32ToBytes v)). apply bytesToUint32_uint32ToBytes.
Qed.

Lemma uint32_small v : U.is_u32 v -> U.uint32 v = v.
Proof. unfold U.is_u32, U.uint32. intros Hv. apply Z.mod_small. lia. Qed.

Lemma uint16_small v : U.is_u16 v -> U.uint16 v = v.
Proof. unfold U.is_u16, U.uint16. intros Hv. apply Z.mod_small. lia. Qed.

Lemma uint32_idemp v : U.uint32 (U.uint32 v) = U.uint32 v.
Proof. unfold U.uint32. apply Z.mod_mod. lia. Qed.

Context {json : Json}.

(** decodeResponse undoes encodeResponse, whatever createdAt was
    written. *)
Lemma decodeResponse_encodeResponse ca r hdr :
  U.is_u16 (StatusCode r) -> U.is_u16 (TTL r) ->
  fitsWireFormat hdr r ->
  json_Unmarshal hdr = inl (Header r) ->
  decodeResponse (encodeResponse ca r hdr)
  = Some (Some {| CreatedAt := U.uint32 ca; StatusCode := StatusCode r;
                  TTL := TTL r; Header := Header r; Body := Body r;
                  GzipBody := GzipBody r; BrBody := BrBody r;
                  CompressLevel := 0; CompressMinLength := 0 |}, None).
Proof.
  intros Hsc Httl Hfit Hjson. unfold fitsWireFormat in Hfit.
  pose proof (len_nonneg hdr). pose proof (len_nonneg (Body r)).
  pose proof (len_nonneg (GzipBody r)). pose proof (len_nonneg (BrBody r)).
  unfold encodeResponse, decodeResponse.
  set (bo := Body r) in *. set (gz := GzipBody r) in *. set (br := BrBody r) in *.
  set (a0 := uint32ToBytes ca). set (a1 := uint16ToBytes (StatusCode r)).
  set (a2 := uint16ToBytes (TTL r)).
  set (a3 := uint32ToBytes (U.uint32 (len hdr))).
  set (a4 := uint32ToBytes (U.uint32 (len bo))).
  set (a5 := uint32ToBytes (U.uint32 (len gz))).
  set (a6 := uint32ToBytes (U.uint32 (len br))).
  set (data := a0 ++ a1 ++ a2 ++ a3 ++ a4 ++ a5 ++ a6 ++ hdr ++ bo ++ gz ++ br).
  assert (E0 : slice data 0 4 = Some a0) by (by apply (slice_mid [])).
  assert (E1 : slice data 4 6 = Some a1) by (by apply (slice_mid a0)).
  assert (E2 : slice data 6 8 = Some a2).
  { subst data. rewrite (app_assoc a0). by apply slice_mid. }
  assert (E3 : slice data 8 12 = Some a3).
  { subst data. rewrite (app_assoc a0), (app_assoc (a0 ++ a1)). by apply slice_mid. }
  assert (E4 : slice data 12 16 = Some a4).
  { subst data. rewrite (app_assoc a0), (app_assoc (a0 ++ a1)),
      (app_assoc ((a0 ++ a1) ++ a2)). by apply slice_mid. }
  assert (E5 : slice data 16 20 = Some a5).
  { subst data. rewrite (app_assoc a0), (app_assoc (a0 ++ a1)),
      (app_assoc ((a0 ++ a1) ++ a2)), (app_assoc (((a0 ++ a1) ++ a2) ++ a3)).
    by apply slice_mid. }
  set (p6 := a0 ++ a1 ++ a2 ++ a3 ++ a4 ++ a5).
  set (p7 := a0 ++ a1 ++ a2 ++ a3 ++ a4 ++ a5 ++ a6).
  assert (D6 : data = p6 ++ a6 ++ hdr ++ bo ++ gz ++ br).
  { subst data p6. by rewrite <- !app_assoc. }
  assert (D7 : data = p7 ++ hdr ++ bo ++ gz ++ br).
  { subst data p7. by rewrite <- !app_assoc. }
  assert (L7 : len p7 = 24) by reflexivity.
  assert (E6 : slice data 20 24 = Some a6) by (rewrite D6; by apply slice_mid).
  subst a0 a1 a2 a3 a4 a5 a6.
  rewrite E0; cbn [mbind option_bind]; rewrite bytesToUint32_exact; cbn [mbind option_bind].
  rewrite E1; cbn [mbind option_bind]; rewrite bytesToUint16_exact; cbn [mbind option_bind].
  rewrite E2; cbn [mbind option_bind]; rewrite bytesToUint16_exact; cbn [mbind option_bind].
  rewrite E3; cbn [mbind option_bind]; rewrite bytesToUint32_exact; cbn [mbind option_bind].
  rewrite E4; cbn [mbind option_bind]; rewrite bytesToUint32_exact; cbn [mbind option_bind].
  rewrite E5; cbn [mbind option_bind]; rewrite bytesToUint32_exact; cbn [mbind option_bind].
  rewrite E6; cbn [mbind option_bind]; rewrite bytesToUint32_exact; cbn [mbind option_bind].
  rewrite !uint32_idemp, (uint16_small _ Hsc), (uint16_small _ Httl).
  rewrite (uint32_small (len hdr)), (uint32_small (len bo)),
    (uint32_small (len gz)), (uint32_small (len br))
    by (unfold U.is_u32; lia).
  unfold U.add32.
  rewrite (uint32_small (24 + len hdr)) by (unfold U.is_u32; lia).
  rewrite (uint32_small (24 + len hdr + len bo))
    by (unfold U.is_u32; lia).
  rewrite (uint32_small (24 + len hdr + len bo + len gz))
    by (unfold U.is_u32; lia).
  rewrite (uint32_small (24 + len hdr + len bo + len gz + len br))
    by (unfold U.is_u32; lia).
  assert (E7 : slice data 24 (24 + len hdr) = Some hdr)
    by (rewrite D7; by apply slice_mid).
  rewrite E7. cbn [mbind option_bind]. rewrite Hjson.
  assert (E8 : slice data (24 + len hdr) (24 + len hdr + len bo) = Some bo).
  { rewrite D7, (app_assoc p7). apply slice_mid; [rewrite len_app; lia|lia]. }
  assert (E9 : slice data (24 + len hdr + len bo)
                 (24 + len hdr + len bo + len gz) = Some gz).
  { rewrite D7, (app_assoc p7), (app_assoc (p7 ++ hdr)).
    apply slice_mid; [rewrite !len_app; lia|lia]. }
  assert (E10 : slice data (24 + len hdr + len bo + len gz)
                  (24 + len hdr + len bo + len gz + len br) = Some br).
  { rewrite D7, (app_assoc p7), (app_assoc (p7 ++ hdr)),
      (app_assoc ((p7 ++ hdr) ++ bo)).
    apply slice_last; [rewrite !len_app; lia|lia]. }
  rewrite E8. cbn [mbind option_bind]. rewrite E9. cbn [mbind option_bind].
  rewrite E10. reflexivity.
Qed.

Context {kv : Store}.

Lemma encodeResponse_nonempty ca r hdr : (len (encodeResponse ca r hdr) =? 0) = false.
Proof.
  apply Z.eqb_neq. unfold encodeResponse. rewrite len_app.
  pose proof (len_nonneg (uint16ToBytes (StatusCode r) ++ uint16ToBytes (TTL r)
    ++ uint32ToBytes (U.uint32 (len hdr))
    ++ uint32ToBytes (U.uint32 (len (Body r)))
    ++ uint32ToBytes (U.uint32 (len (GzipBody r)))
    ++ uint32ToBytes (U.uint32 (len (BrBody r)))
    ++ hdr ++ Body r ++ GzipBody r ++ BrBody r)).
  change (len (uint32ToBytes ca)) with 4. lia.
Qed.

(** What GetResponse reads back after a SaveResponse that succeeded,
    for any record in the ranges of its types: the createdAt that was
    written is the record's, or the current time when the record's is
    zero. *)
Lemma GetResponse_SaveResponse now key r c c' hdr :
  U.is_u16 (StatusCode r) -> U.is_u16 (TTL r) ->
  json_Marshal (Header r) = inl hdr ->
  json_Unmarshal hdr = inl (Header r) ->
  fitsWireFormat hdr r ->
  SaveResponse now key r c = (c', None) ->
  db_Get_err key = None ->
  GetResponse key c'
  = Some (Some {| CreatedAt := U.uint32 (if CreatedAt r =? 0 then U.uint32 now
                                         else CreatedAt r);
                  StatusCode := StatusCode r; TTL := TTL r;
                  Header := Header r; Body := Body r;
                  GzipBody := GzipBody r; BrBody := BrBody r;
                  CompressLevel := 0; CompressMinLength := 0 |}, None).
Proof.
  intros Hsc Httl Hm Hu Hfit Hsave Hget.
  unfold SaveResponse in Hsave. rewrite Hm in Hsave.
  destruct (db_Put_err key _) as [e|]; [discriminate Hsave|].
  injection Hsave as <-.
  unfold GetResponse. rewrite Hget. simpl. rewrite lookup_insert_eq.
  rewrite encodeResponse_nonempty.
  by apply decodeResponse_encodeResponse.
Qed.

(** C4: for a well-formed record (fields in the ranges of their types,
    createdAt set, a header that JSON carries faithfully, lengths that
    fit the four-byte length fields), what GetResponse parses from what
    SaveResponse stored has the same createdAt, statusCode, ttl, header
    mapping, body, gzipBody and brBody. *)
Theorem SaveResponse_GetResponse_roundtrip now key r c c' hdr :
  wellFormedResponse r ->
  json_Marshal (Header r) = inl hdr ->
  json_Unmarshal hdr = inl (Header r) ->
  fitsWireFormat hdr r ->
  SaveResponse now key r c = (c', None) ->
  db_Get_err key = None ->
  exists r',
    GetResponse key c' = Some (Some r', None)
    /\ CreatedAt r' = CreatedAt r /\ StatusCode r' = StatusCode r
    /\ TTL r' = TTL r /\ Header r' = Header r /\ Body r' = Body r
    /\ GzipBody r' = GzipBody r /\ BrBody r' = BrBody r.
Proof.
  intros (Hca & Hnz & Hsc & Httl) Hm Hu Hfit Hsave Hget.
  eexists. split.
  - by eapply GetResponse_SaveResponse.
  - simpl. repeat apply conj; try reflexivity.
    destruct (Z.eqb_spec (CreatedAt r) 0); [contradiction|].
    by apply uint32_small.
Qed.

(** C10: when the store reports no error and holds nothing, or an empty
    value, for the key, GetResponse returns the nil record with the nil
    error. *)
Theorem GetResponse_miss_nil_nil key c :
  db_Get_err key = None ->
  (db c !! key = None \/ db c !! key = Some []) ->
  GetResponse key c = Some (None, None).
Proof.
  intros Hget [Hl|Hl]; unfold GetResponse; rewrite Hget, Hl; reflexivity.
Qed.

End wire_format.

(** A 200 response with a two-byte body, stored and read back. *)
Lemma SaveResponse_GetResponse_roundtrip_witness :
  let r0 := {| cache.CreatedAt := 1500000000; cache.StatusCode := 200;
               cache.TTL := 60; cache.Header := ∅;
               cache.Body := [x68; x69]; cache.GzipBody := [];
               cache.BrBody := []; cache.CompressLevel := 6;
               cache.CompressMinLength := 1024 |} in
  let c1 := (cache.SaveResponse (json := Ref.empty_object_json)
               (kv := Ref.accepting_store) 1500000100 "k" r0
               (cache.Init ∅)).1 in
  exists r',
    cache.GetResponse (json := Ref.empty_object_json)
      (kv := Ref.accepting_store) "k" c1 = Some (Some r', None)
    /\ cache.CreatedAt r' = 1500000000 /\ cache.StatusCode r' = 200
    /\ cache.TTL r' = 60 /\ cache.Header r' = ∅
    /\ cache.Body r' = [x68; x69]
    /\ cache.GzipBody r' = [] /\ cache.BrBody r' = [].
Proof.
  intros r0 c1.
  apply (SaveResponse_GetResponse_roundtrip (json := Ref.empty_object_json)
           (kv := Ref.accepting_store) 1500000100 "k" r0 (cache.Init ∅) c1
           [x7b; x7d]).
  - unfold Inv.wellFormedResponse, U.is_u32, U.is_u16; simpl. lia.
  - reflexivity.
  - reflexivity.
  - unfold Inv.fitsWireFormat; simpl. reflexivity.
  - reflexivity.
  - reflexivity.
Defined.

(** A key the store has never seen. *)
Lemma GetResponse_miss_nil_nil_witness :
  cache.GetResponse (json := Ref.empty_object_json) (kv := Ref.accepting_store)
    "k" (cache.Init ∅) = Some (None, None).
Proof.
  apply (GetResponse_miss_nil_nil (json := Ref.empty_object_json)
           (kv := Ref.accepting_store)).
  - reflexivity.
  - left. reflexivity.
Defined.

(** ** Content negotiation and the store procedure *)

Section negotiation_and_store.
Import cache middleware.
Context {codecs : Codecs} {json : Json} {kv : Store}.

Lemma len_nil_iff (b : list byte) : (len b =? 0) = true <-> b = [].
Proof.
  rewrite Z.eqb_eq. unfold len. destruct b; simpl; split; intros Hb;
    try reflexivity; try discriminate Hb; lia.
Qed.

Lemma len_nonnil (b : list byte) : b <> [] -> (len b =? 0) = false.
Proof.
  intros Hb. destruct (len b =? 0) eqn:E; [|reflexivity].
  apply len_nil_iff in E. contradiction.
Qed.

(** The brotli branch does go through getRawBody: a record holding
    only a gzip buffer, asked for brotli, is decoded and re-encoded. *)
Lemma GetBody_br_of_gzipBody_only r raw out :
  StatusCode r <> StatusNoContent ->
  Body r = [] -> GzipBody r <> [] -> BrBody r = [] ->
  util.Gunzip (GzipBody r) = (raw, None) ->
  util.BrotliEncode raw (CompressLevel r) = (out, None) ->
  GetBody r "br" = Some (out, "br"%string).
Proof.
  intros Hsc Hb Hg Hbr Hz He. unfold GetBody.
  destruct (Z.eqb_spec (StatusCode r) StatusNoContent) as [|_]; [contradiction|].
  rewrite Hb. simpl.
  unfold GetBody_try. simpl. rewrite Hbr. simpl.
  unfold getRawBody. rewrite Hb, (len_nonnil _ Hg). simpl.
  rewrite Hz, He. reflexivity.
Qed.

(** A buffer already encoded the way the client accepts is served as it
    is (brotli first). *)
Lemma GetBody_brBody_as_is r acceptEncoding :
  StatusCode r <> StatusNoContent -> Body r = [] -> BrBody r <> [] ->
  strings_Contains acceptEncoding "br" = true ->
  GetBody r acceptEncoding = Some (BrBody r, "br"%string).
Proof.
  intros Hsc Hb Hbr Hc. unfold GetBody.
  destruct (Z.eqb_spec (StatusCode r) StatusNoContent) as [|_]; [contradiction|].
  rewrite Hb. simpl.
  unfold GetBody_try. unfold BrEncoding at 1. rewrite Hc. simpl.
  by rewrite (len_nonnil _ Hbr).
Qed.

(** C3, where the code departs from it: a record whose only populated
    buffer is brBody, asked for gzip.  The gzip branch compresses the
    raw body field, which is empty, without going through getRawBody:
    the answer is the gzip encoding of no bytes at all, whatever brBody
    holds. *)
Theorem GetBody_gzip_of_brBody_only r out :
  StatusCode r <> StatusNoContent ->
  Body r = [] -> GzipBody r = [] -> BrBody r <> [] ->
  util.Gzip [] (CompressLevel r) = Some (out, None) ->
  GetBody r "gzip" = Some (out, "gzip"%string).
Proof.
  intros Hsc Hb Hg Hbr Hz. unfold GetBody.
  destruct (Z.eqb_spec (StatusCode r) StatusNoContent) as [|_]; [contradiction|].
  rewrite Hb. simpl.
  unfold GetBody_try. simpl. rewrite Hg. simpl. rewrite Hb, Hz. reflexivity.
Qed.

(** C8: a record with status code 204 yields the empty body and the
    empty encoding for every Accept-Encoding, and the store procedure
    hands it, unchanged and without a call to any codec, to
    SaveResponse and marks the key Cacheable; what reaches the store is
    the serialisation of the record as it was given. *)
Theorem NoContent_GetBody_and_save r acceptEncoding now client identity
    compressible :
  StatusCode r = StatusNoContent ->
  GetBody r acceptEncoding = Some ([], ""%string)
  /\ save now client identity r compressible
     = Some (Client_Cacheable identity (TTL r)
               (SaveResponse now identity r client).1, r)
  /\ (forall hdr,
        json_Marshal (Header r) = inl hdr ->
        let data := encodeResponse
                      (if CreatedAt r =? 0 then U.uint32 now else CreatedAt r)
                      r hdr in
        db_Put_err identity data = None ->
        forall client' r',
          save now client identity r compressible = Some (client', r') ->
          db client' = <[identity := data]> (db client)).
Proof.
  intros Hsc. repeat apply conj.
  - unfold GetBody. by rewrite Hsc.
  - unfold save. by rewrite Hsc.
  - intros hdr Hm data Hput client' r'. unfold save. rewrite Hsc. simpl.
    intros [= <- <-]. unfold doSave, SaveResponse. rewrite Hm.
    fold data. rewrite Hput. simpl.
    unfold Client_Cacheable, UpdateRequestStatus. simpl.
    by destruct (rsMap client !! identity).
Qed.

(** C5, where the code departs from it: the closure doSave drops the
    error of SaveResponse, so when the Put fails the store is unchanged
    and the key is nevertheless marked Cacheable with the record's TTL
    (shown on the path that persists without compression). *)
Theorem save_Put_failure_marks_Cacheable now client identity resp rs hdr e :
  rsMap client !! identity = Some rs ->
  json_Marshal (Header resp) = inl hdr ->
  db_Put_err identity
    (encodeResponse (if CreatedAt resp =? 0 then U.uint32 now
                     else CreatedAt resp) resp hdr) = Some e ->
  exists client',
    save now client identity resp false = Some (client', resp)
    /\ db client' = db client
    /\ rsMap client' !! identity
       = Some {| createdAt := createdAt rs; ttl := TTL resp;
                 status := Cacheable; waitingChans := [] |}.
Proof.
  intros Hl Hm Hput. eexists. split.
  - unfold save. rewrite orb_true_r. reflexivity.
  - unfold doSave, SaveResponse. rewrite Hm, Hput. simpl.
    unfold Client_Cacheable, UpdateRequestStatus. rewrite Hl. simpl.
    by rewrite lookup_insert_eq.
Qed.

End negotiation_and_store.

(** brBody holds the framing of "hi"; the client accepts gzip only.  The
    body served is the framing of the empty string, not of "hi". *)
Lemma GetBody_gzip_of_brBody_only_witness :
  let r0 := {| cache.CreatedAt := 1500000000; cache.StatusCode := 200;
               cache.TTL := 60; cache.Header := ∅; cache.Body := [];
               cache.GzipBody := []; cache.BrBody := [xce; x68; x69];
               cache.CompressLevel := 0; cache.CompressMinLength := 0 |} in
  cache.GetBody (codecs := Ref.stored_gzip) r0 "gzip"
    = Some ([x1f; x8b], "gzip"%string)
  /\ cache.getRawBody (codecs := Ref.stored_gzip) r0 = ([x68; x69], None)
  /\ util.Gzip (codecs := Ref.stored_gzip) [x68; x69] 0
     = Some ([x1f; x8b; x68; x69], None).
Proof.
  intros r0. split; [|split; reflexivity].
  apply (GetBody_gzip_of_brBody_only (codecs := Ref.stored_gzip) r0).
  - discriminate.
  - reflexivity.
  - reflexivity.
  - discriminate.
  - reflexivity.
Defined.

(** A 204 record offered every encoding. *)
Lemma NoContent_GetBody_and_save_witness :
  let r0 := {| cache.CreatedAt := 1500000000; cache.StatusCode := 204;
               cache.TTL := 60; cache.Header := ∅; cache.Body := [];
               cache.GzipBody := []; cache.BrBody := [];
               cache.CompressLevel := 0; cache.CompressMinLength := 0 |} in
  cache.GetBody (codecs := Ref.stored_gzip) r0 "br, gzip"
    = Some ([], ""%string).
Proof.
  intros r0.
  exact (proj1 (NoContent_GetBody_and_save (codecs := Ref.stored_gzip)
                  (json := Ref.empty_object_json) (kv := Ref.accepting_store)
                  r0 "br, gzip" 0 (cache.Init ∅) "k" true eq_refl)).
Defined.

(** A store that refuses the Put: the key ends up Cacheable. *)
Lemma save_Put_failure_marks_Cacheable_witness :
  let r0 := {| cache.CreatedAt := 1500000000; cache.StatusCode := 200;
               cache.TTL := 60; cache.Header := ∅; cache.Body := [x68; x69];
               cache.GzipBody := []; cache.BrBody := [];
               cache.CompressLevel := 0; cache.CompressMinLength := 0 |} in
  let rs0 := {| cache.createdAt := 1500000000; cache.ttl := 0;
                cache.status := cache.Fetching; cache.waitingChans := [] |} in
  let c0 := {| cache.rsMap := {["k" := rs0]}; cache.db := ∅;
               cache.nextChan := O; cache.trace := [] |} in
  exists client',
    middleware.save (codecs := Ref.stored_gzip) (json := Ref.empty_object_json)
      (kv := Ref.refusing_store) 1500000001 c0 "k" r0 false
    = Some (client', r0)
    /\ cache.db client' = ∅
    /\ cache.rsMap client' !! "k"
       = Some {| cache.createdAt := 1500000000; cache.ttl := 60;
                 cache.status := cache.Cacheable; cache.waitingChans := [] |}.
Proof.
  intros r0 rs0 c0.
  apply (save_Put_failure_marks_Cacheable (codecs := Ref.stored_gzip)
           (json := Ref.empty_object_json) (kv := Ref.refusing_store)
           1500000001 c0 "k" r0 rs0 [x7b; x7d] "put failed"%string).
  - apply lookup_singleton_eq.
  - reflexivity.
  - reflexivity.
Defined.

(** ** The director's Match *)

Section director_match.
Import pike.

Lemma append_empty_r s : String.append s EmptyString = s.
Proof.
  induction s as [|a s IH]; [reflexivity|].
  change (String a (String.append s EmptyString) = String a s).
  by rewrite IH.
Qed.

Lemma append_nil t : String.append EmptyString t = t.
Proof. reflexivity. Qed.

Lemma append_cons a s t :
  String.append (String a s) t = String a (String.append s t).
Proof. reflexivity. Qed.

Lemma lastOr_Some s a : lastOr s (Some a) <> None.
Proof. revert a. induction s as [|b s IH]; intros a; simpl; [done|apply IH]. Qed.

Lemma lastOr_None s p : lastOr s p = None -> s = EmptyString /\ p = None.
Proof.
  destruct s as [|a s]; simpl; [done|].
  intros H. by apply lastOr_Some in H.
Qed.

Lemma headOr_None s n : headOr s n = None -> s = EmptyString /\ n = None.
Proof. by destruct s. Qed.

Lemma matchAt_Void p n s : matchAt p n Void s = false.
Proof. revert p. induction s as [|a s IH]; intros p; simpl; [done|apply IH]. Qed.

Lemma matchAt_Alt p n r1 r2 s :
  matchAt p n (Alt r1 r2) s = matchAt p n r1 s || matchAt p n r2 s.
Proof.
  revert p r1 r2. induction s as [|a s IH]; intros p r1 r2; simpl; [done|].
  apply IH.
Qed.

(** An empty-width assertion matches the empty string only, where it
    holds. *)
Lemma matchAt_Look p n f s :
  matchAt p n (Look f) s = true <-> s = EmptyString /\ f p n = true.
Proof.
  destruct s as [|a s]; cbn [matchAt nullable deriv].
  - split; [done|by intros [_ ?]].
  - rewrite matchAt_Void. split; [done|by intros [? _]].
Qed.

Lemma matchAt_Bol p n s :
  matchAt p n Bol s = true <-> s = EmptyString /\ p = None.
Proof.
  unfold Bol. rewrite matchAt_Look.
  destruct p; split; intros [? ?]; done.
Qed.

Lemma matchAt_Eol p n s :
  matchAt p n Eol s = true <-> s = EmptyString /\ n = None.
Proof.
  unfold Eol. rewrite matchAt_Look.
  destruct n; split; intros [? ?]; done.
Qed.

(** A concatenation matches [s] exactly when [s] splits into a part for
    each factor; each part is matched in its own surroundings. *)
Lemma matchAt_Cat p n r1 r2 s :
  matchAt p n (Cat r1 r2) s = true
  <-> exists s1 s2,
        s = String.append s1 s2
        /\ matchAt p (headOr s2 n) r1 s1 = true
        /\ matchAt (lastOr s1 p) n r2 s2 = true.
Proof.
  revert p r1. induction s as [|a s IH]; intros p r1.
  - simpl. rewrite andb_true_iff. split.
    + intros [H1 H2]. by exists EmptyString, EmptyString.
    + intros (s1 & s2 & Hs & H1 & H2).
      destruct s1; [|discriminate Hs]. rewrite append_nil in Hs. by subst s2.
  - cbn [matchAt deriv]. split.
    + intros Hm.
      assert (matchAt (Some a) n (Cat (deriv p a r1) r2) s = true
              \/ nullable p (Some a) r1 = true
                 /\ matchAt (Some a) n (deriv p a r2) s = true) as [Hc|[Hn Hc]].
      { destruct (nullable p (Some a) r1); [|by left].
        rewrite matchAt_Alt, orb_true_iff in Hm. destruct Hm; [by left|by right]. }
      * apply IH in Hc as (s1 & s2 & -> & H1 & H2).
        by exists (String a s1), s2.
      * by exists EmptyString, (String a s).
    + intros (s1 & s2 & Hs & H1 & H2). destruct s1 as [|a' s1].
      * rewrite append_nil in Hs. subst s2. simpl in H1, H2. rewrite H1.
        rewrite matchAt_Alt, H2. apply orb_true_r.
      * rewrite append_cons in Hs. injection Hs as <- ->.
        simpl in H1, H2.
        assert (matchAt (Some a) n (Cat (deriv p a r1) r2)
                  (String.append s1 s2) = true) as Hc.
        { apply IH. by exists s1, s2. }
        destruct (nullable p (Some a) r1); [|exact Hc].
        by rewrite matchAt_Alt, Hc.
Qed.

Lemma matchAt_Eps p n s : matchAt p n Eps s = true <-> s = EmptyString.
Proof.
  destruct s as [|a s]; cbn [matchAt nullable deriv]; [done|].
  by rewrite matchAt_Void.
Qed.

(** A class matches the strings of one character of the class. *)
Lemma matchAt_Cls p n f s :
  matchAt p n (Cls f) s = true
  <-> exists a, s = String a EmptyString /\ f a = true.
Proof.
  destruct s as [|a s]; cbn [matchAt nullable deriv].
  - split; [done|by intros (a & ? & _)].
  - destruct (f a) eqn:Ef.
    + rewrite matchAt_Eps. split.
      * intros ->. by exists a.
      * by intros (a' & [= -> ->] & _).
    + rewrite matchAt_Void. split; [done|].
      intros (a' & [= -> ->] & Hf). by rewrite Hf in Ef.
Qed.

Lemma matchAt_Chr p n a s :
  matchAt p n (Chr a) s = true <-> s = String a EmptyString.
Proof.
  destruct s as [|b s]; cbn [matchAt nullable deriv]; [done|].
  destruct (Ascii.eqb_spec b a) as [->|Hne].
  - rewrite matchAt_Eps. split; [by intros ->|by intros [= ->]].
  - rewrite matchAt_Void. split; [done|]. by intros [= -> ->].
Qed.

Lemma matchAt_AnyChr p n s :
  matchAt p n AnyChr s = true <-> exists a, s = String a EmptyString.
Proof.
  destruct s as [|b s]; cbn [matchAt nullable deriv].
  - split; [done|by intros (a & ?)].
  - rewrite matchAt_Eps. split; [intros ->; by exists b|by intros (a & [= -> ->])].
Qed.

(** A repetition matches the empty string, and a string that splits into
    a part for the expression, not empty, and a rest for the
    repetition. *)
Lemma matchAt_Star p n r s :
  matchAt p n (Star r) s = true
  <-> s = EmptyString
      \/ exists s1 s2,
           s1 <> EmptyString /\ s = String.append s1 s2
           /\ matchAt p (headOr s2 n) r s1 = true
           /\ matchAt (lastOr s1 p) n (Star r) s2 = true.
Proof.
  destruct s as [|a s]; cbn [matchAt nullable deriv].
  - split; [by left|done].
  - rewrite matchAt_Cat. split.
    + intros (s1 & s2 & -> & H1 & H2). right.
      by exists (String a s1), s2.
    + intros [Hs|(s1 & s2 & Hne & Hs & H1 & H2)]; [discriminate Hs|].
      destruct s1 as [|a' s1]; [done|].
      rewrite append_cons in Hs. injection Hs as <- ->.
      by exists s1, s2.
Qed.

Lemma prefixMatch_spec p r s :
  prefixMatch p r s = true
  <-> exists mid post,
        s = String.append mid post
        /\ matchAt p (headOr post None) r mid = true.
Proof.
  revert p r. induction s as [|a s IH]; intros p r; cbn [prefixMatch].
  - rewrite orb_false_r. split.
    + intros Hn. by exists EmptyString, EmptyString.
    + intros (mid & post & Hs & Hm).
      destruct mid; [|discriminate Hs]. rewrite append_nil in Hs. by subst post.
  - rewrite orb_true_iff, IH. split.
    + intros [Hn|(mid & post & -> & Hm)].
      * by exists EmptyString, (String a s).
      * by exists (String a mid), post.
    + intros (mid & post & Hs & Hm). destruct mid as [|a' mid].
      * rewrite append_nil in Hs. subst post. by left.
      * rewrite append_cons in Hs. injection Hs as <- ->.
        right. by exists mid, post.
Qed.

(** [Regexp_Match] is a search: it holds exactly when the expression
    matches some substring, standing where it stands in the text. *)
Lemma searchFrom_spec p r s :
  searchFrom p r s = true
  <-> exists pre mid post,
        s = String.append pre (String.append mid post)
        /\ matchAt (lastOr pre p) (headOr post None) r mid = true.
Proof.
  revert p. induction s as [|a s IH]; intros p; cbn [searchFrom].
  - rewrite orb_false_r, prefixMatch_spec. split.
    + intros (mid & post & Hs & Hm). by exists EmptyString, mid, post.
    + intros (pre & mid & post & Hs & Hm).
      destruct pre; [|discriminate Hs]. by exists mid, post.
  - rewrite orb_true_iff, IH, prefixMatch_spec. split.
    + intros [(mid & post & Hs & Hm)|(pre & mid & post & -> & Hm)].
      * by exists EmptyString, mid, post.
      * by exists (String a pre), mid, post.
    + intros (pre & mid & post & Hs & Hm). destruct pre as [|a' pre].
      * left. by exists mid, post.
      * rewrite append_cons in Hs. injection Hs as <- ->.
        right. by exists pre, mid, post.
Qed.

Lemma Regexp_Match_spec r s :
  Regexp_Match r s = true
  <-> exists pre mid post,
        s = String.append pre (String.append mid post)
        /\ matchAt (lastOr pre None) (headOr post None) r mid = true.
Proof. apply searchFrom_spec. Qed.

(** Every host a pattern matches as a whole is accepted by the search;
    the converse fails (see the counterexample below). *)
Lemma fullMatch_Regexp_Match r s :
  fullMatch r s = true -> Regexp_Match r s = true.
Proof.
  intros Hm. apply Regexp_Match_spec. exists EmptyString, s, EmptyString.
  split; [|exact Hm]. change (s = String.append s EmptyString).
  symmetry. apply append_empty_r.
Qed.

(** Between [^] and [$] the search is a match of the whole text. *)
Lemma Regexp_Match_anchored r s :
  Regexp_Match (anchored r) s = fullMatch r s.
Proof.
  apply eq_true_iff_eq. rewrite Regexp_Match_spec. unfold anchored, fullMatch.
  split.
  - intros (pre & mid & post & Hs & Hm).
    apply matchAt_Cat in Hm as (s1 & s2 & Hmid & H1 & H2).
    apply matchAt_Bol in H1 as [-> Hpre].
    apply lastOr_None in Hpre as [-> _].
    apply matchAt_Cat in H2 as (s3 & s4 & Hs2 & H3 & H4).
    apply matchAt_Eol in H4 as [-> Hpost].
    apply headOr_None in Hpost as [-> _].
    simpl in H3. rewrite append_empty_r in Hs2. subst s2.
    change (mid = s3) in Hmid. subst mid.
    change (s = String.append s3 EmptyString) in Hs.
    rewrite append_empty_r in Hs. by subst s.
  - intros Hm. exists EmptyString, s, EmptyString. split.
    + change (s = String.append s EmptyString). by rewrite append_empty_r.
    + apply matchAt_Cat. exists EmptyString, s. split; [done|]. split.
      * by apply matchAt_Bol.
      * apply matchAt_Cat. exists s, EmptyString.
        split; [by rewrite append_empty_r|]. split; [exact Hm|].
        by apply matchAt_Eol.
Qed.

Context {syntax : RegexpSyntax}.

Lemma matchHosts_spec host hosts m :
  Forall (fun p => is_Some (MustCompile p)) hosts ->
  exists b, matchHosts host hosts m = Some b
    /\ (b = true <-> m = true
        \/ exists p re, p ∈ hosts /\ MustCompile p = Some re
                        /\ Regexp_Match re host = true).
Proof.
  intros Hall. revert m.
  induction Hall as [|p hosts [re Hre] Hall IH]; intros m; simpl.
  - exists m. split; [reflexivity|]. split; [by left|].
    intros [Hm|(p & re & Hin & _)]; [exact Hm|]. by apply elem_of_nil in Hin.
  - destruct m.
    + exists true. split; [reflexivity|]. split; [by left|done].
    + rewrite Hre. simpl.
      destruct (IH (if Regexp_Match re host then true else false))
        as (b & Hb & Hiff).
      exists b. split; [exact Hb|]. rewrite Hiff. split.
      * intros [Hm|(q & re' & Hin & Hq & Hm)].
        -- right. exists p, re. split; [apply elem_of_cons; by left|].
           split; [exact Hre|]. by destruct (Regexp_Match re host).
        -- right. exists q, re'. split; [apply elem_of_cons; by right|done].
      * intros [Hm|(q & re' & Hin & Hq & Hm)]; [discriminate Hm|].
        apply elem_of_cons in Hin as [->|Hin].
        -- left. rewrite Hre in Hq. injection Hq as ->. by rewrite Hm.
        -- right. by exists q, re'.
Qed.

Lemma matchPrefixs_spec uri prefixs m :
  matchPrefixs uri prefixs m = true
  <-> m = true \/ exists p, p ∈ prefixs /\ String.prefix p uri = true.
Proof.
  revert m. induction prefixs as [|p prefixs IH]; intros m; simpl.
  - split; [by left|].
    intros [Hm|(p & Hin & _)]; [exact Hm|]. by apply elem_of_nil in Hin.
  - rewrite IH. split.
    + intros [Hm|(q & Hin & Hq)].
      * destruct m; [by left|]. simpl in Hm.
        destruct (String.prefix p uri) eqn:Hp; [|discriminate Hm].
        right. exists p. split; [apply elem_of_cons; by left|exact Hp].
      * right. exists q. split; [apply elem_of_cons; by right|exact Hq].
    + intros [->|(q & Hin & Hq)]; [by left|].
      apply elem_of_cons in Hin as [->|Hin].
      * left. rewrite Hq. by destruct m.
      * right. by exists q.
Qed.

(** C7, amended: for a director whose host patterns all compile, Match
    returns true exactly when (no host pattern is configured, or some
    host pattern has a match in the Host header) and (no prefix is
    configured, or some prefix is a literal prefix of the URI).  A host
    pattern is searched for, as Regexp.Match does: an expression has a
    match in the header when it matches some part of it, its assertions
    [^], [$] and [\b] looking at the place of that part in the header.
    So a pattern need not match the whole header, unless it is anchored
    at both ends: then it must. *)
Theorem Match_contract d host uri :
  Forall (fun p => is_Some (MustCompile p)) (Hosts d) ->
  exists b,
    Match d host uri = Some b
    /\ (b = true
        <-> (Hosts d = []
             \/ exists p re, p ∈ Hosts d /\ MustCompile p = Some re
                             /\ Regexp_Match re host = true)
            /\ (Prefixs d = []
                \/ exists p, p ∈ Prefixs d /\ String.prefix p uri = true))
    /\ (forall re,
          Regexp_Match re host = true
          <-> exists pre mid post,
                host = String.append pre (String.append mid post)
                /\ matchAt (lastOr pre None) (headOr post None) re mid
                   = true)
    /\ (forall r, Regexp_Match (anchored r) host = fullMatch r host).
Proof.
  intros Hall.
  cut (exists b,
    Match d host uri = Some b
    /\ (b = true
        <-> (Hosts d = []
             \/ exists p re, p ∈ Hosts d /\ MustCompile p = Some re
                             /\ Regexp_Match re host = true)
            /\ (Prefixs d = []
                \/ exists p, p ∈ Prefixs d /\ String.prefix p uri = true))).
  { intros (b & Hb & Hiff). exists b. split; [exact Hb|].
    split; [exact Hiff|]. split.
    - intros re. apply Regexp_Match_spec.
    - intros r. apply Regexp_Match_anchored. }
  unfold Match.
  destruct (matchHosts_spec host (Hosts d) false Hall) as (bh & Hbh & Hh).
  pose proof (matchPrefixs_spec uri (Prefixs d) false) as Hp.
  destruct (Hosts d) as [|h hs] eqn:Eh, (Prefixs d) as [|q qs] eqn:Ep;
    cbn [length Nat.eqb andb negb orb].
  - exists true. split; [reflexivity|]. split; [by (split; left)|done].
  - cbn [mbind option_bind]. eexists. split; [reflexivity|].
    rewrite Hp. split.
    + intros [Hm|Hm]; [discriminate Hm|]. split; [by left|by right].
    + intros [_ [Hq|Hq]]; [discriminate Hq|by right].
  - rewrite Hbh. cbn [mbind option_bind]. exists bh. split.
    + by destruct bh.
    + rewrite Hh. split.
      * intros [Hm|Hm]; [discriminate Hm|]. split; [by right|by left].
      * intros [[Hm|Hm] _]; [discriminate Hm|by right].
  - rewrite Hbh. cbn [mbind option_bind]. destruct bh; cbn [negb andb].
    + eexists. split; [reflexivity|]. rewrite Hp. split.
      * intros [Hm|Hm]; [discriminate Hm|]. split; [right|by right].
        destruct Hh as [[Hm'|Hm'] _]; [reflexivity|discriminate Hm'|exact Hm'].
      * intros [_ [Hq|Hq]]; [discriminate Hq|by right].
    + exists false. split; [reflexivity|]. split; [discriminate|].
      intros [[Hm|Hm] _]; [discriminate Hm|].
      apply Hh. by right.
Qed.

End director_match.

(** C7, the claim as worded: with host patterns configured, Match is
    true only if some pattern matches the whole Host header.  This
    fails: the pattern [b] is found inside the host [abc], and Match is
    true, though it does not match the whole of it. *)
Lemma Match_whole_host_cex :
  ~ (forall d host uri,
       pike.Hosts d <> [] ->
       pike.Match (syntax := Ref.literal_syntax) d host uri = Some true ->
       exists p re, p ∈ pike.Hosts d
                    /\ pike.MustCompile (RegexpSyntax := Ref.literal_syntax) p
                       = Some re
                    /\ pike.fullMatch re host = true).
Proof.
  intros Hclaim.
  destruct (Hclaim {| pike.Hosts := ["b"%string]; pike.Prefixs := [] |}
              "abc"%string "/"%string) as (p & re & Hin & Hre & Hm).
  - discriminate.
  - reflexivity.
  - simpl in Hin. apply list_elem_of_singleton in Hin. subst p.
    simpl in Hre. injection Hre as <-. vm_compute in Hm. discriminate Hm.
Qed.

(** A director for one host, spelled between anchors, and the URIs
    under [/api]. *)
Lemma Match_contract_witness :
  let d := {| pike.Hosts := ["^api\.example\.com$"%string];
              pike.Prefixs := ["/api"%string] |} in
  let host := "api.example.com"%string in
  exists b,
    pike.Match (syntax := Ref.host_syntax) d host "/api/users" = Some b
    /\ (b = true
        <-> (pike.Hosts d = []
             \/ exists p re, p ∈ pike.Hosts d
                  /\ pike.MustCompile (RegexpSyntax := Ref.host_syntax) p
                     = Some re
                  /\ pike.Regexp_Match re host = true)
            /\ (pike.Prefixs d = []
                \/ exists p, p ∈ pike.Prefixs d
                             /\ String.prefix p "/api/users" = true))
    /\ (forall re,
          pike.Regexp_Match re host = true
          <-> exists pre mid post,
                host = String.append pre (String.append mid post)
                /\ pike.matchAt (pike.lastOr pre None) (pike.headOr post None)
                     re mid = true)
    /\ (forall r,
          pike.Regexp_Match (pike.anchored r) host = pike.fullMatch r host).
Proof.
  intros d host.
  apply (Match_contract (syntax := Ref.host_syntax) d host "/api/users").
  repeat constructor. vm_compute. eauto.
Defined.

(** Between anchors a pattern accepts the host it spells and no
    extension of it; without them, or with one only, the search accepts
    the extensions on the open side. *)
Lemma Match_anchored_host :
  let director p := {| pike.Hosts := [p]; pike.Prefixs := [] |} in
  let accepts p host :=
    pike.Match (syntax := Ref.host_syntax) (director p) host "/" in
  accepts "^example\.com$" "example.com" = Some true
  /\ accepts "^example\.com$" "example.com.evil.org" = Some false
  /\ accepts "^example\.com$" "notexample.com" = Some false
  /\ accepts "^example\.com$" "exampleXcom" = Some false
  /\ accepts "example\.com" "example.com.evil.org" = Some true
  /\ accepts "example\.com" "notexample.com" = Some true
  /\ accepts "^example\.com" "example.com.evil.org" = Some true
  /\ accepts "^example\.com" "notexample.com" = Some false
  /\ accepts "example\.com$" "notexample.com" = Some true
  /\ accepts "example\.com$" "example.com.evil.org" = Some false
  /\ accepts "\bexample\.com$" "www.example.com" = Some true
  /\ accepts "\bexample\.com$" "notexample.com" = Some false.
Proof. vm_compute. repeat apply conj; reflexivity. Qed.

(** * Further properties of the code *)

(** ** The status table over its reachable states *)

Section reachable_states.
Import cache Inv Wake.

Lemma UpdateRequestStatus_rsMap key st ttl' c rs :
  rsMap c !! key = Some rs ->
  rsMap (UpdateRequestStatus key st ttl' c)
  = <[key := {| createdAt := createdAt rs; ttl := ttl'; status := st;
                waitingChans := [] |}]> (rsMap c).
Proof. intros Hl. unfold UpdateRequestStatus. by rewrite Hl. Qed.

Lemma UpdateRequestStatus_absent key st ttl' c :
  rsMap c !! key = None -> UpdateRequestStatus key st ttl' c = c.
Proof. intros Hl. unfold UpdateRequestStatus. by rewrite Hl. Qed.

Lemma UpdateRequestStatus_trace key st ttl' c rs :
  rsMap c !! key = Some rs ->
  trace (UpdateRequestStatus key st ttl' c)
  = trace c ++ wakeTrace ((fun ch => (ch, st)) <$> waitingChans rs).
Proof.
  intros Hl. unfold UpdateRequestStatus. rewrite Hl. simpl.
  rewrite notify_flat_map. f_equal. unfold wakeTrace.
  induction (waitingChans rs) as [|ch l IH]; simpl; [reflexivity|by rewrite IH].
Qed.

Lemma lockAndUpdateRsMap_trace now key c :
  trace (lockAndUpdateRsMap now key c).1 = trace c.
Proof.
  unfold lockAndUpdateRsMap.
  destruct (rsMap c !! key) as [rs|]; [|reflexivity].
  destruct (isExpired now rs); [reflexivity|].
  destruct (status rs =? Fetching); reflexivity.
Qed.

Lemma ClearExpired_trace now delay c :
  trace (ClearExpired now delay c) = trace c.
Proof.
  by destruct (sweep_fold (U.uint32 now) (effectiveDelay delay) c (rsMap c))
    as (_ & Ht & _).
Qed.

(** *** Shape of the entries *)

Lemma tableShape_Init store : tableShape (Init store).
Proof. intros k rs. unfold Init; simpl. by rewrite lookup_empty. Qed.

Lemma tableShape_run o c : tableShape c -> tableShape (run o c).
Proof.
  intros Hc k rs Hl.
  destruct o as [now key|key t|key t|now delay|key]; simpl in Hl.
  - rewrite GetRequestStatus_lockAndUpdateRsMap in Hl.
    apply lockAndUpdateRsMap_lookup in Hl
      as [Hl|[[_ ->]|[_ (rs0 & Hl & Hf & -> & _)]]].
    + by eapply Hc.
    + by left.
    + destruct (Hc _ _ Hl) as [[_ Ht]|[[Hs|Hs] _]].
      * by left.
      * rewrite Hf in Hs. discriminate Hs.
      * rewrite Hf in Hs. discriminate Hs.
  - apply UpdateRequestStatus_lookup in Hl as [Hl|(_ & Hs & Hw)].
    + by eapply Hc.
    + right. split; [by left|exact Hw].
  - apply UpdateRequestStatus_lookup in Hl as [Hl|(_ & Hs & Hw)].
    + by eapply Hc.
    + right. split; [by right|exact Hw].
  - apply ClearExpired_subset in Hl. by eapply Hc.
  - apply Remove_lookup in Hl. by eapply Hc.
Qed.

Lemma reachable_tableShape c : reachable c -> tableShape c.
Proof.
  induction 1 as [store|o c _ IH];
    [apply tableShape_Init|by apply tableShape_run].
Qed.

Lemma reachable_chansBelow c : reachable c -> chansBelow c.
Proof.
  induction 1 as [store|o c _ IH];
    [apply chansBelow_Init|by apply chansBelow_run].
Qed.

(** *** Wake-ups *)

Lemma wakeTrace_app l1 l2 : wakeTrace (l1 ++ l2) = wakeTrace l1 ++ wakeTrace l2.
Proof. unfold wakeTrace. apply flat_map_app. Qed.

Lemma wakeInv_Init store : wakeInv (Init store).
Proof.
  split; [apply chansBelow_Init|]. split.
  - split.
    + intros k rs. unfold Init; simpl. by rewrite lookup_empty.
    + intros k1 k2 rs1 rs2 ch. unfold Init; simpl. by rewrite lookup_empty.
  - exists []. split; [reflexivity|]. split; [constructor|].
    intros ch Hin. by apply elem_of_nil in Hin.
Qed.

Lemma wakeInv_shrink c c' :
  (forall k rs, rsMap c' !! k = Some rs -> rsMap c !! k = Some rs) ->
  trace c' = trace c -> nextChan c' = nextChan c ->
  wakeInv c -> wakeInv c'.
Proof.
  intros Hsub Ht Hn (Hb & (Hd1 & Hd2) & (l & Hl & Hnd & Hw)).
  split; [|split; [split|]].
  - intros k rs ch Hk Hin. rewrite Hn. eapply Hb; [by apply Hsub|done].
  - intros k rs Hk. eapply Hd1. by apply Hsub.
  - intros k1 k2 rs1 rs2 ch H1 H2. eapply Hd2; by apply Hsub.
  - exists l. split; [by rewrite Ht|]. split; [exact Hnd|].
    intros ch Hin. destruct (Hw ch Hin) as [Hlt Hnw]. split; [by rewrite Hn|].
    intros (k & rs & Hk & Hc). apply Hnw. exists k, rs. split; [by apply Hsub|done].
Qed.

Lemma wakeInv_lockAndUpdateRsMap now key c :
  wakeInv c -> wakeInv (lockAndUpdateRsMap now key c).1.
Proof.
  intros (Hb & (Hd1 & Hd2) & (l & Hl & Hnd & Hw)).
  pose proof (lockAndUpdateRsMap_nextChan now key c) as Hle.
  pose proof (chansBelow_run (OpGetRequestStatus now key) c Hb) as Hb'.
  simpl in Hb'. rewrite GetRequestStatus_lockAndUpdateRsMap in Hb'.
  split; [exact Hb'|]. split; [split|].
  - intros k rs Hk.
    apply lockAndUpdateRsMap_lookup in Hk
      as [Hk|[[_ ->]|[_ (rs0 & Hk & _ & -> & _)]]]; simpl.
    + by eapply Hd1.
    + constructor.
    + apply NoDup_app. split; [by eapply Hd1|]. split; [|apply NoDup_singleton].
      intros ch Hin Hin'. apply list_elem_of_singleton in Hin'. subst ch.
      specialize (Hb _ _ _ Hk Hin). lia.
  - intros k1 k2 rs1 rs2 ch H1 H2 Hc1 Hc2.
    apply lockAndUpdateRsMap_lookup in H1
      as [H1|[[_ ->]|[-> (rs0 & H1 & _ & -> & _)]]];
    apply lockAndUpdateRsMap_lookup in H2
      as [H2|[[_ ->]|[-> (rs0' & H2 & _ & -> & _)]]]; simpl in *;
      try (by apply elem_of_nil in Hc1); try (by apply elem_of_nil in Hc2);
      try reflexivity.
    + by eapply Hd2.
    + apply elem_of_app in Hc2 as [Hc2|Hc2]; [by eapply Hd2|].
      apply list_elem_of_singleton in Hc2. subst ch.
      specialize (Hb _ _ _ H1 Hc1). lia.
    + apply elem_of_app in Hc1 as [Hc1|Hc1]; [by eapply Hd2|].
      apply list_elem_of_singleton in Hc1. subst ch.
      specialize (Hb _ _ _ H2 Hc2). lia.
  - exists l. split; [by rewrite lockAndUpdateRsMap_trace|]. split; [exact Hnd|].
    intros ch Hin. destruct (Hw ch Hin) as [Hlt Hnw]. split; [lia|].
    intros (k & rs & Hk & Hc).
    apply lockAndUpdateRsMap_lookup in Hk
      as [Hk|[[_ ->]|[_ (rs0 & Hk & _ & -> & _)]]]; simpl in Hc.
    + apply Hnw. by exists k, rs.
    + by apply elem_of_nil in Hc.
    + apply elem_of_app in Hc as [Hc|Hc].
      * apply Hnw. by exists key, rs0.
      * apply list_elem_of_singleton in Hc. lia.
Qed.

Lemma wakeInv_UpdateRequestStatus key st ttl' c :
  wakeInv c -> wakeInv (UpdateRequestStatus key st ttl' c).
Proof.
  intros Hinv. destruct (rsMap c !! key) as [rs0|] eqn:E;
    [|by rewrite UpdateRequestStatus_absent].
  destruct Hinv as (Hb & (Hd1 & Hd2) & (l & Hl & Hnd & Hw)).
  assert (Hlk : forall k rs,
    rsMap (UpdateRequestStatus key st ttl' c) !! k = Some rs ->
    (k <> key /\ rsMap c !! k = Some rs) \/ (k = key /\ waitingChans rs = [])).
  { intros k rs. rewrite (UpdateRequestStatus_rsMap _ _ _ _ _ E).
    destruct (decide (key = k)) as [->|Hne].
    - rewrite lookup_insert_eq. intros [= <-]. by right.
    - rewrite lookup_insert_ne by done. intros Hk. left. by split. }
  split; [|split; [split|]].
  - intros k rs ch Hk Hin. rewrite UpdateRequestStatus_nextChan.
    apply Hlk in Hk as [[_ Hk]|[_ Hk]]; [by eapply Hb|].
    rewrite Hk in Hin. by apply elem_of_nil in Hin.
  - intros k rs Hk. apply Hlk in Hk as [[_ Hk]|[_ Hk]]; [by eapply Hd1|].
    rewrite Hk. constructor.
  - intros k1 k2 rs1 rs2 ch H1 H2 Hc1 Hc2.
    apply Hlk in H1 as [[_ H1]|[_ H1]];
      [|rewrite H1 in Hc1; by apply elem_of_nil in Hc1].
    apply Hlk in H2 as [[_ H2]|[_ H2]];
      [|rewrite H2 in Hc2; by apply elem_of_nil in Hc2].
    by eapply Hd2.
  - exists (l ++ ((fun ch => (ch, st)) <$> waitingChans rs0)).
    assert (Hfst : ((fun ch => (ch, st)) <$> waitingChans rs0).*1
                   = waitingChans rs0).
    { rewrite <- list_fmap_compose. apply list_fmap_id. }
    split; [|split].
    + rewrite (UpdateRequestStatus_trace _ _ _ _ _ E), Hl. by rewrite wakeTrace_app.
    + rewrite fmap_app, Hfst. apply NoDup_app. split; [exact Hnd|].
      split; [|by eapply Hd1].
      intros ch Hin Hin'. destruct (Hw ch Hin) as [_ Hnw].
      apply Hnw. by exists key, rs0.
    + intros ch Hin. rewrite fmap_app, Hfst in Hin.
      rewrite UpdateRequestStatus_nextChan.
      apply elem_of_app in Hin as [Hin|Hin].
      * destruct (Hw ch Hin) as [Hlt Hnw]. split; [exact Hlt|].
        intros (k & rs & Hk & Hc).
        apply Hlk in Hk as [[_ Hk]|[_ Hk]];
          [|rewrite Hk in Hc; by apply elem_of_nil in Hc].
        apply Hnw. by exists k, rs.
      * split; [by eapply Hb|].
        intros (k & rs & Hk & Hc).
        apply Hlk in Hk as [[Hne Hk]|[_ Hk]];
          [|rewrite Hk in Hc; by apply elem_of_nil in Hc].
        apply Hne. by eapply (Hd2 k key rs rs0 ch).
Qed.

Lemma wakeInv_run o c : wakeInv c -> wakeInv (run o c).
Proof.
  intros Hc. destruct o as [now key|key t|key t|now delay|key]; simpl.
  - rewrite GetRequestStatus_lockAndUpdateRsMap.
    by apply wakeInv_lockAndUpdateRsMap.
  - by apply wakeInv_UpdateRequestStatus.
  - by apply wakeInv_UpdateRequestStatus.
  - apply (wakeInv_shrink c); [|apply ClearExpired_trace
      |apply ClearExpired_nextChan|exact Hc].
    intros k rs. apply ClearExpired_subset.
  - apply (wakeInv_shrink c); [|reflexivity|reflexivity|exact Hc].
    intros k rs. apply Remove_lookup.
Qed.

Lemma reachable_wakeInv c : reachable c -> wakeInv c.
Proof.
  induction 1 as [store|o c _ IH]; [apply wakeInv_Init|by apply wakeInv_run].
Qed.

End reachable_states.

Section coordination.
Import cache Inv Wake.

Lemma lockAndUpdateRsMap_other now key c k :
  k <> key -> rsMap (lockAndUpdateRsMap now key c).1 !! k = rsMap c !! k.
Proof.
  intros Hne. unfold lockAndUpdateRsMap.
  destruct (rsMap c !! key) as [rs|]; simpl; [|by rewrite lookup_insert_ne].
  destruct (isExpired now rs); simpl; [by rewrite lookup_insert_ne|].
  destruct (status rs =? Fetching); simpl; [by rewrite lookup_insert_ne|done].
Qed.

Lemma lockAndUpdateRsMap_absent now key c :
  rsMap c !! key = None ->
  lockAndUpdateRsMap now key c
  = (set_rsMap (<[key := newFetching now]> (rsMap c)) c, (Fetching, None)).
Proof. intros Hl. unfold lockAndUpdateRsMap. by rewrite Hl. Qed.

Lemma lockAndUpdateRsMap_fetching now key c rs :
  rsMap c !! key = Some rs -> status rs = Fetching -> ttl rs = 0 ->
  lockAndUpdateRsMap now key c
  = ({| rsMap := <[key := addWaiter (nextChan c) rs]> (rsMap c); db := db c;
        nextChan := S (nextChan c); trace := trace c |},
     (Waiting, Some (nextChan c))).
Proof.
  intros Hl Hs Ht. unfold lockAndUpdateRsMap, isExpired.
  rewrite Hl, Ht, Hs. reflexivity.
Qed.

Lemma elem_of_wakeTrace_Send l ch v :
  (ch, v) ∈ l -> Send ch v ∈ wakeTrace l.
Proof.
  intros Hin. unfold wakeTrace. apply list_elem_of_In, in_flat_map.
  exists (ch, v). split; [by apply list_elem_of_In|]. simpl. by left.
Qed.

(** In every state the proxy reaches, each channel that appears in the
    trace was sent exactly one status and closed immediately after,
    and no channel waits in two places: a waiter is woken at most once,
    nothing is ever sent on a closed channel and no channel is closed
    twice. *)
Theorem reachable_wokenOnce c :
  reachable c ->
  (exists l, trace c = wakeTrace l /\ NoDup l.*1
             /\ forall ch, ch ∈ l.*1 -> ~ waitingAt c ch)
  /\ distinctWaiters c.
Proof.
  intros Hr. destruct (reachable_wakeInv c Hr) as (_ & Hd & (l & Hl & Hnd & Hw)).
  split; [|exact Hd]. exists l. split; [exact Hl|]. split; [exact Hnd|].
  intros ch Hin. by destruct (Hw ch Hin).
Qed.

(** A fetcher, two waiters on two keys' worth of channels, one wake-up. *)
Lemma reachable_wokenOnce_witness :
  let c0 := run (OpCacheable "k" 60)
              (run (OpGetRequestStatus 2 "k")
                 (run (OpGetRequestStatus 1 "k")
                    (run (OpGetRequestStatus 0 "k") (Init ∅)))) in
  reachable c0
  /\ trace c0 = [Send 0%nat Cacheable; Close 0%nat;
                 Send 1%nat Cacheable; Close 1%nat]
  /\ distinctWaiters c0.
Proof.
  intros c0.
  assert (Hr : reachable c0) by (repeat apply reach_step; apply reach_Init).
  split; [exact Hr|]. split; [reflexivity|].
  exact (proj2 (reachable_wokenOnce c0 Hr)).
Defined.

(** No wake-up is lost, except by Remove: in a reachable state, after
    GetRequestStatus, HitForPass, Cacheable or ClearExpired, every
    channel that was waiting is still waiting or has been sent a status
    (a fetch under way never expires and is never swept). *)
Theorem waiters_kept_or_woken o c ch :
  reachable c ->
  (forall key, o <> OpRemove key) ->
  waitingAt c ch ->
  waitingAt (run o c) ch \/ exists v, Send ch v ∈ trace (run o c).
Proof.
  intros Hr Hop (k & rs & Hk & Hin).
  pose proof (reachable_tableShape c Hr k rs Hk) as Hshape.
  assert (Hf : status rs = Fetching /\ ttl rs = 0).
  { destruct Hshape as [Hf|[_ Hw]]; [exact Hf|].
    rewrite Hw in Hin. by apply elem_of_nil in Hin. }
  destruct Hf as [Hs Ht].
  destruct o as [now key|key t|key t|now delay|key]; simpl.
  - left. rewrite GetRequestStatus_lockAndUpdateRsMap.
    destruct (decide (k = key)) as [->|Hne].
    + rewrite (lockAndUpdateRsMap_fetching _ _ _ _ Hk Hs Ht). simpl.
      exists key, (addWaiter (nextChan c) rs).
      split; [apply lookup_insert_eq|]. simpl. apply elem_of_app. by left.
    + exists k, rs. by rewrite lockAndUpdateRsMap_other.
  - unfold Client_HitForPass. destruct (decide (k = key)) as [->|Hne].
    + right. exists HitForPass. rewrite (UpdateRequestStatus_trace _ _ _ _ _ Hk).
      apply elem_of_app. right. apply elem_of_wakeTrace_Send.
      apply list_elem_of_fmap. by exists ch.
    + left. exists k, rs. split; [|exact Hin].
      destruct (rsMap c !! key) as [rs0|] eqn:E.
      * rewrite (UpdateRequestStatus_rsMap _ _ _ _ _ E).
        by rewrite lookup_insert_ne.
      * by rewrite UpdateRequestStatus_absent.
  - unfold Client_Cacheable. destruct (decide (k = key)) as [->|Hne].
    + right. exists Cacheable. rewrite (UpdateRequestStatus_trace _ _ _ _ _ Hk).
      apply elem_of_app. right. apply elem_of_wakeTrace_Send.
      apply list_elem_of_fmap. by exists ch.
    + left. exists k, rs. split; [|exact Hin].
      destruct (rsMap c !! key) as [rs0|] eqn:E.
      * rewrite (UpdateRequestStatus_rsMap _ _ _ _ _ E).
        by rewrite lookup_insert_ne.
      * by rewrite UpdateRequestStatus_absent.
  - left. exists k, rs. split; [|exact Hin].
    pose proof (ClearExpired_lookup now delay c k) as Hl. simpl in Hl.
    rewrite Hk in Hl. unfold sweepable in Hl. rewrite Ht in Hl. simpl in Hl.
    by destruct Hl.
  - by destruct (Hop key).
Qed.

(** A waiter queued on a fetch survives the sweep, whenever it runs. *)
Lemma waiters_kept_or_woken_witness :
  let c0 := run (OpGetRequestStatus 1 "k")
              (run (OpGetRequestStatus 0 "k") (Init ∅)) in
  reachable c0 /\ waitingAt c0 0%nat
  /\ (waitingAt (run (OpClearExpired 4000000000 60) c0) 0%nat
      \/ exists v, Send 0%nat v ∈ trace (run (OpClearExpired 4000000000 60) c0)).
Proof.
  intros c0.
  assert (Hr : reachable c0) by (repeat apply reach_step; apply reach_Init).
  assert (Hw : waitingAt c0 0%nat).
  { exists "k"%string, (addWaiter 0%nat (newFetching 0)). split.
    - reflexivity.
    - simpl. apply list_elem_of_singleton. reflexivity. }
  split; [exact Hr|]. split; [exact Hw|].
  apply (waiters_kept_or_woken (OpClearExpired 4000000000 60) c0 0%nat Hr);
    [discriminate|exact Hw].
Defined.

(** One fetch, one waiter: on a key without entry the first caller gets
    Fetching and no channel; a second caller, whenever it comes, gets
    Waiting and a channel; the update that ends the fetch sends the new
    status on that channel and closes it, and the entry it leaves still
    carries the time of the first call as createdAt. *)
Theorem fetch_wait_update t0 t1 key st ttl' c :
  rsMap c !! key = None ->
  let c1 := (GetRequestStatus t0 key c).1 in
  let c2 := (GetRequestStatus t1 key c1).1 in
  let c3 := UpdateRequestStatus key st ttl' c2 in
  (GetRequestStatus t0 key c).2 = (Fetching, None)
  /\ (GetRequestStatus t1 key c1).2 = (Waiting, Some (nextChan c))
  /\ rsMap c3 !! key = Some {| createdAt := U.uint32 t0; ttl := ttl';
                               status := st; waitingChans := [] |}
  /\ trace c3 = trace c ++ [Send (nextChan c) st; Close (nextChan c)].
Proof.
  intros Hl c1 c2 c3. subst c3 c2 c1.
  rewrite !GetRequestStatus_lockAndUpdateRsMap.
  rewrite (lockAndUpdateRsMap_absent _ _ _ Hl). simpl.
  assert (Hk : rsMap (set_rsMap (<[key:=newFetching t0]> (rsMap c)) c) !! key
               = Some (newFetching t0)) by apply lookup_insert_eq.
  rewrite (lockAndUpdateRsMap_fetching _ _ _ _ Hk eq_refl eq_refl). simpl.
  split; [reflexivity|]. split; [reflexivity|].
  set (c2 := {| rsMap := _; db := _; nextChan := _; trace := _ |}).
  assert (Hk2 : rsMap c2 !! key = Some (addWaiter (nextChan c) (newFetching t0)))
    by apply lookup_insert_eq.
  split.
  - rewrite (UpdateRequestStatus_rsMap _ _ _ _ _ Hk2). apply lookup_insert_eq.
  - rewrite (UpdateRequestStatus_trace _ _ _ _ _ Hk2). reflexivity.
Qed.

Lemma fetch_wait_update_witness :
  let c1 := (GetRequestStatus 100 "k" (Init ∅)).1 in
  let c2 := (GetRequestStatus 103 "k" c1).1 in
  (GetRequestStatus 103 "k" c1).2 = (Waiting, Some 0%nat)
  /\ trace (UpdateRequestStatus "k" Cacheable 60 c2)
     = [Send 0%nat Cacheable; Close 0%nat].
Proof.
  intros c1 c2.
  destruct (fetch_wait_update 100 103 "k" Cacheable 60 (Init ∅))
    as (_ & H2 & _ & H4); [reflexivity|].
  split; [exact H2|exact H4].
Defined.

(** HitForPass followed by Cacheable: the key ends Cacheable with the
    second ttl and its createdAt unchanged; the waiters are woken by
    the first call, with HitForPass, and the second call sends
    nothing. *)
Theorem HitForPass_then_Cacheable key t t' c rs :
  rsMap c !! key = Some rs ->
  let c' := Client_Cacheable key t' (Client_HitForPass key t c) in
  rsMap c' !! key = Some {| createdAt := createdAt rs; ttl := t';
                            status := Cacheable; waitingChans := [] |}
  /\ trace c' = trace c
       ++ flat_map (fun ch => [Send ch HitForPass; Close ch]) (waitingChans rs).
Proof.
  intros Hl c'. subst c'. unfold Client_Cacheable, Client_HitForPass.
  set (c1 := UpdateRequestStatus key HitForPass t c).
  assert (Hk : rsMap c1 !! key
               = Some {| createdAt := createdAt rs; ttl := t;
                         status := HitForPass; waitingChans := [] |}).
  { subst c1. rewrite (UpdateRequestStatus_rsMap _ _ _ _ _ Hl).
    apply lookup_insert_eq. }
  split.
  - rewrite (UpdateRequestStatus_rsMap _ _ _ _ _ Hk). apply lookup_insert_eq.
  - rewrite (UpdateRequestStatus_trace _ _ _ _ _ Hk). simpl.
    rewrite app_nil_r. subst c1. unfold UpdateRequestStatus. rewrite Hl. simpl.
    apply notify_flat_map.
Qed.

Lemma HitForPass_then_Cacheable_witness :
  let rs0 := {| createdAt := 100; ttl := 0; status := Fetching;
                waitingChans := [3%nat] |} in
  let c0 := {| rsMap := {["k" := rs0]}; db := ∅; nextChan := 4%nat;
               trace := [] |} in
  let c' := Client_Cacheable "k" 60 (Client_HitForPass "k" 300 c0) in
  rsMap c' !! "k" = Some {| createdAt := 100; ttl := 60;
                            status := Cacheable; waitingChans := [] |}
  /\ trace c' = [Send 3%nat HitForPass; Close 3%nat].
Proof.
  intros rs0 c0 c'.
  exact (HitForPass_then_Cacheable "k" 300 60 c0 rs0 (lookup_singleton_eq _ _)).
Defined.

(** Remove forgets the key in the status table and in the store and
    touches no other key; the next GetRequestStatus for it starts a
    fetch: Fetching, no channel. *)
Theorem Remove_then_GetRequestStatus now key c :
  rsMap (Remove key c) !! key = None
  /\ db (Remove key c) !! key = None
  /\ (forall k, k <> key ->
        rsMap (Remove key c) !! k = rsMap c !! k
        /\ db (Remove key c) !! k = db c !! k)
  /\ (GetRequestStatus now key (Remove key c)).2 = (Fetching, None)
  /\ rsMap (GetRequestStatus now key (Remove key c)).1 !! key
     = Some (newFetching now).
Proof.
  assert (Hl : rsMap (Remove key c) !! key = None) by apply lookup_delete_eq.
  split; [exact Hl|]. split; [apply lookup_delete_eq|]. split.
  - intros k Hk. unfold Remove; simpl. by rewrite !lookup_delete_ne.
  - rewrite GetRequestStatus_lockAndUpdateRsMap.
    rewrite (lockAndUpdateRsMap_absent _ _ _ Hl). simpl.
    split; [reflexivity|apply lookup_insert_eq].
Qed.

(** A key marked Cacheable with a ttl is answered from the cache as long
    as no more than ttl seconds have passed since the fetch started,
    and is fetched anew after that. *)
Theorem Cacheable_until_ttl now key ttl' c rs :
  rsMap c !! key = Some rs ->
  0 <= createdAt rs <= now -> now < 2 ^ 32 -> 0 < ttl' ->
  let c' := Client_Cacheable key ttl' c in
  (now - createdAt rs <= ttl' ->
     GetRequestStatus now key c' = (c', (Cacheable, None)))
  /\ (now - createdAt rs > ttl' ->
        (GetRequestStatus now key c').2 = (Fetching, None)
        /\ rsMap (GetRequestStatus now key c').1 !! key
           = Some (newFetching now)).
Proof.
  intros Hl Hc Hn Ht c'.
  assert (Hk : rsMap c' !! key
               = Some {| createdAt := createdAt rs; ttl := ttl';
                         status := Cacheable; waitingChans := [] |}).
  { subst c'. unfold Client_Cacheable.
    rewrite (UpdateRequestStatus_rsMap _ _ _ _ _ Hl). apply lookup_insert_eq. }
  assert (Hsub : U.sub32 (U.uint32 now) (createdAt rs) = now - createdAt rs).
  { unfold U.sub32, U.uint32. rewrite (Z.mod_small now) by lia.
    apply Z.mod_small. lia. }
  rewrite GetRequestStatus_lockAndUpdateRsMap. unfold lockAndUpdateRsMap.
  rewrite Hk. unfold isExpired. simpl. rewrite Hsub.
  destruct (Z.eqb_spec ttl' 0) as [|_]; [lia|]. simpl. split.
  - intros Hle. destruct (Z.ltb_spec ttl' (now - createdAt rs)); [lia|].
    reflexivity.
  - intros Hgt. destruct (Z.ltb_spec ttl' (now - createdAt rs)); [|lia].
    simpl. split; [reflexivity|apply lookup_insert_eq].
Qed.

(** The spec's scenario: ttl 10; at 10 s still served, at 15 s refetched. *)
Lemma Cacheable_until_ttl_witness :
  let rs0 := {| createdAt := 1000; ttl := 0; status := Fetching;
                waitingChans := [] |} in
  let c0 := {| rsMap := {["k" := rs0]}; db := ∅; nextChan := O;
               trace := [] |} in
  (GetRequestStatus 1010 "k" (Client_Cacheable "k" 10 c0)).2 = (Cacheable, None)
  /\ (GetRequestStatus 1015 "k" (Client_Cacheable "k" 10 c0)).2 = (Fetching, None).
Proof.
  intros rs0 c0. split.
  - destruct (Cacheable_until_ttl 1010 "k" 10 c0 rs0) as [H _];
      [apply lookup_singleton_eq|simpl; lia|lia|lia|].
    rewrite H; [reflexivity|simpl; lia].
  - destruct (Cacheable_until_ttl 1015 "k" 10 c0 rs0) as [_ H];
      [apply lookup_singleton_eq|simpl; lia|lia|lia|].
    apply H. simpl. lia.
Defined.

(** The sweep never takes an entry GetRequestStatus would still answer
    from: with a ttl in its range and a delay that is not huge, an entry
    ClearExpired removes is one for which GetRequestStatus, at the same
    time, starts a new fetch. *)
Theorem swept_entry_was_expired now delay key c v :
  rsMap c !! key = Some v ->
  0 <= ttl v < 2 ^ 16 -> delay < 2 ^ 31 ->
  rsMap (ClearExpired now delay c) !! key = None ->
  (GetRequestStatus now key c).2 = (Fetching, None).
Proof.
  intros Hl Ht Hd Hgone.
  pose proof (ClearExpired_lookup now delay c key) as Hk. simpl in Hk.
  rewrite Hl in Hk.
  destruct (sweepable (U.uint32 now) (effectiveDelay delay) v) eqn:Hs;
    [|destruct Hk as [Hk _]; rewrite Hk in Hgone; discriminate Hgone].
  unfold sweepable in Hs. apply andb_true_iff in Hs as [Hnz Hlt].
  apply Z.ltb_lt in Hlt.
  assert (He : isExpired now v = true).
  { unfold isExpired. rewrite Hnz. simpl. apply Z.ltb_lt.
    assert (0 <= effectiveDelay delay < 2 ^ 31).
    { unfold effectiveDelay. destruct (Z.ltb_spec delay 0); lia. }
    set (age := U.sub32 (U.uint32 now) (createdAt v)) in *.
    unfold U.add32, U.uint32 in Hlt.
    rewrite (Z.mod_small (effectiveDelay delay)) in Hlt by lia.
    rewrite (Z.mod_small (ttl v + effectiveDelay delay)) in Hlt by lia.
    lia. }
  rewrite GetRequestStatus_lockAndUpdateRsMap. unfold lockAndUpdateRsMap.
  by rewrite Hl, He.
Qed.

Lemma swept_entry_was_expired_witness :
  let e := {| createdAt := 0; ttl := 10; status := Cacheable;
              waitingChans := [] |} in
  let c0 := {| rsMap := {["k" := e]}; db := {["k" := [x01]]};
               nextChan := O; trace := [] |} in
  rsMap (ClearExpired 71 60 c0) !! "k" = None
  /\ (GetRequestStatus 71 "k" c0).2 = (Fetching, None).
Proof.
  intros e c0.
  assert (Hgone : rsMap (ClearExpired 71 60 c0) !! "k" = None) by reflexivity.
  split; [exact Hgone|].
  apply (swept_entry_was_expired 71 60 "k" c0 e);
    [apply lookup_singleton_eq|simpl; lia|lia|exact Hgone].
Defined.

(** Sweeping twice at the same time is sweeping once. *)
Theorem ClearExpired_idempotent now delay c :
  ClearExpired now delay (ClearExpired now delay c) = ClearExpired now delay c.
Proof.
  set (c1 := ClearExpired now delay c). set (c2 := ClearExpired now delay c1).
  assert (Hm : rsMap c2 = rsMap c1 /\ db c2 = db c1).
  { split; apply map_eq; intros k;
      pose proof (ClearExpired_lookup now delay c k) as H1;
      pose proof (ClearExpired_lookup now delay c1 k) as H2;
      simpl in H1, H2; fold c1 in H1; fold c2 in H2;
      destruct (rsMap c !! k) as [v|] eqn:E.
    - destruct (sweepable _ _ v) eqn:Hs; destruct H1 as [H1 H1'];
        rewrite H1 in H2 |- *; [by destruct H2|].
      rewrite Hs in H2. by destruct H2.
    - destruct H1 as [H1 H1']. rewrite H1 in H2 |- *. by destruct H2.
    - destruct (sweepable _ _ v) eqn:Hs; destruct H1 as [H1 H1'];
        rewrite H1 in H2; [by destruct H2|].
      rewrite Hs in H2. by destruct H2.
    - destruct H1 as [H1 H1']. rewrite H1 in H2. by destruct H2. }
  destruct Hm as [Hm Hd].
  pose proof (ClearExpired_nextChan now delay c1) as Hn.
  pose proof (ClearExpired_trace now delay c1) as Ht.
  fold c2 in Hn, Ht.
  destruct c2 as [m2 d2 n2 t2], c1 as [m1 d1 n1 t1]; simpl in *.
  by subst.
Qed.

End coordination.

(** ** Counters and listings *)

Section listings.
Import cache Inv Wake.

Lemma size_filter_insert_True {A} (P : string * A -> Prop)
    `{!forall x, Decision (P x)} (m : gmap string A) i x :
  m !! i = None -> P (i, x) ->
  size (filter P (<[i:=x]> m)) = S (size (filter P m)).
Proof.
  intros Hi HP. rewrite map_filter_insert_True by done.
  apply map_size_insert_None. apply map_lookup_filter_None_2. by left.
Qed.

Lemma size_filter_insert_False {A} (P : string * A -> Prop)
    `{!forall x, Decision (P x)} (m : gmap string A) i x :
  m !! i = None -> ~ P (i, x) ->
  size (filter P (<[i:=x]> m)) = size (filter P m).
Proof.
  intros Hi HP. rewrite map_filter_insert_not'; [done|done|].
  intros y Hy. rewrite Hi in Hy. discriminate Hy.
Qed.

Context {fsize : stats.StoreSize}.

(** What the loop of GetStats has counted after the entries [m]. *)
Lemma GetStats_fold s0 (m : gmap string RequestStatus) :
  let s := map_fold stats.countEntry s0 m in
  stats.Fetching s - stats.Fetching s0
    = Z.of_nat (size (filter (fun kv => status kv.2 = Fetching) m))
  /\ stats.HitForPass s - stats.HitForPass s0
    = Z.of_nat (size (filter (fun kv => status kv.2 = HitForPass) m))
  /\ stats.Cacheable s - stats.Cacheable s0
    = Z.of_nat (size (filter (fun kv => status kv.2 = Cacheable) m))
  /\ stats.FileSize s = stats.FileSize s0
  /\ ((forall k v, m !! k = Some v -> entryShape v) ->
      (stats.Fetching s - stats.Fetching s0)
      + (stats.HitForPass s - stats.HitForPass s0)
      + (stats.Cacheable s - stats.Cacheable s0) = Z.of_nat (size m)).
Proof.
  apply (map_fold_weak_ind (fun s m =>
    stats.Fetching s - stats.Fetching s0
      = Z.of_nat (size (filter (fun kv => status kv.2 = Fetching) m))
    /\ stats.HitForPass s - stats.HitForPass s0
      = Z.of_nat (size (filter (fun kv => status kv.2 = HitForPass) m))
    /\ stats.Cacheable s - stats.Cacheable s0
      = Z.of_nat (size (filter (fun kv => status kv.2 = Cacheable) m))
    /\ stats.FileSize s = stats.FileSize s0
    /\ ((forall k v, m !! k = Some v -> entryShape v) ->
        (stats.Fetching s - stats.Fetching s0)
        + (stats.HitForPass s - stats.HitForPass s0)
        + (stats.Cacheable s - stats.Cacheable s0) = Z.of_nat (size m)))).
  - rewrite !map_filter_empty, !map_size_empty. repeat split; lia.
  - intros i x m' r Hi (HF & HH & HC & HS & Hsum).
    assert (Hsum' : (forall k v, <[i:=x]> m' !! k = Some v -> entryShape v) ->
      (stats.Fetching r - stats.Fetching s0)
      + (stats.HitForPass r - stats.HitForPass s0)
      + (stats.Cacheable r - stats.Cacheable s0) = Z.of_nat (size m')
      /\ entryShape x).
    { intros Hsh. split.
      - apply Hsum. intros k v Hk. apply (Hsh k).
        rewrite lookup_insert_ne; [done|]. intros ->. rewrite Hi in Hk.
        discriminate Hk.
      - apply (Hsh i). apply lookup_insert_eq. }
    rewrite (map_size_insert_None _ _ _ Hi).
    unfold stats.countEntry.
    destruct (Z.eqb_spec (status x) Fetching) as [Hf|Hf]; simpl.
    + rewrite (size_filter_insert_True _ _ _ _ Hi) by done.
      rewrite !(size_filter_insert_False _ _ _ _ Hi)
        by (simpl; rewrite Hf; discriminate).
      repeat split; try lia. intros Hsh. destruct (Hsum' Hsh). lia.
    + destruct (Z.eqb_spec (status x) HitForPass) as [Hh|Hh]; simpl.
      * rewrite (size_filter_insert_True (fun kv => status kv.2 = HitForPass)
                   _ _ _ Hi) by done.
        rewrite !(size_filter_insert_False _ _ _ _ Hi)
          by (simpl; rewrite Hh; discriminate).
        repeat split; try lia. intros Hsh. destruct (Hsum' Hsh). lia.
      * destruct (Z.eqb_spec (status x) Cacheable) as [Hc|Hc]; simpl.
        -- rewrite (size_filter_insert_True (fun kv => status kv.2 = Cacheable)
                      _ _ _ Hi) by done.
           rewrite !(size_filter_insert_False _ _ _ _ Hi)
             by (simpl; rewrite Hc; discriminate).
           repeat split; try lia. intros Hsh. destruct (Hsum' Hsh). lia.
        -- rewrite !(size_filter_insert_False _ _ _ _ Hi) by done.
           repeat split; try lia. intros Hsh. destruct (Hsum' Hsh) as [_ Hx].
           destruct Hx as [[Hx _]|[[Hx|Hx] _]]; contradiction.
Qed.

(** GetStats counts, for each of Fetching, HitForPass and Cacheable, the
    keys stored with that status, and reports the file size in whole
    megabytes; in a state the proxy reaches the three counters add up to
    Size, the number of keys in the table. *)
Theorem GetStats_counts c :
  let s := stats.GetStats c in
  stats.Fetching s
    = Z.of_nat (size (filter (fun kv => status kv.2 = Fetching) (rsMap c)))
  /\ stats.HitForPass s
    = Z.of_nat (size (filter (fun kv => status kv.2 = HitForPass) (rsMap c)))
  /\ stats.Cacheable s
    = Z.of_nat (size (filter (fun kv => status kv.2 = Cacheable) (rsMap c)))
  /\ stats.FileSize s = Z.quot (stats.db_FileSize (db c)) (1024 * 1024)
  /\ (reachable c ->
      stats.Fetching s + stats.HitForPass s + stats.Cacheable s = stats.Size c).
Proof.
  intros s. subst s. unfold stats.GetStats.
  destruct (GetStats_fold
    {| stats.Waiting := 0; stats.Fetching := 0; stats.HitForPass := 0;
       stats.Cacheable := 0;
       stats.FileSize := Z.quot (stats.db_FileSize (db c)) (1024 * 1024) |}
    (rsMap c)) as (HF & HH & HC & HS & Hsum).
  simpl in *. rewrite !Z.sub_0_r in *.
  repeat split; try done.
  intros Hr. unfold stats.Size. rewrite <- Hsum; [lia|].
  apply (reachable_tableShape c Hr).
Qed.

(** What the loop of GetCachedList has collected after the entries [m]. *)
Lemma GetCachedList_fold now32 (m : gmap string RequestStatus) :
  let l := map_fold (stats.cachedEntry now32) [] m in
  NoDup (stats.Key <$> l)
  /\ forall x, x ∈ l <->
       exists v, m !! stats.Key x = Some v /\ status v = Cacheable
                 /\ now32 <= U.add32 (createdAt v) (ttl v)
                 /\ stats.TTL x = ttl v /\ stats.CreatedAt x = createdAt v.
Proof.
  apply (map_fold_weak_ind (fun l m =>
    NoDup (stats.Key <$> l)
    /\ forall x, x ∈ l <->
         exists v, m !! stats.Key x = Some v /\ status v = Cacheable
                   /\ now32 <= U.add32 (createdAt v) (ttl v)
                   /\ stats.TTL x = ttl v /\ stats.CreatedAt x = createdAt v)).
  - split; [constructor|]. intros x. split.
    + intros Hin. by apply elem_of_nil in Hin.
    + intros (v & Hv & _). by rewrite lookup_empty in Hv.
  - intros i v0 m' l Hi (Hnd & Hiff). unfold stats.cachedEntry.
    assert (Hother : forall x, (exists v, m' !! stats.Key x = Some v
               /\ status v = Cacheable
               /\ now32 <= U.add32 (createdAt v) (ttl v)
               /\ stats.TTL x = ttl v /\ stats.CreatedAt x = createdAt v)
             -> stats.Key x <> i).
    { intros x (v & Hv & _) He. rewrite He, Hi in Hv. discriminate Hv. }
    destruct (Z.eqb_spec (status v0) Cacheable) as [Hc|Hc]; simpl;
      [destruct (Z.ltb_spec (U.add32 (createdAt v0) (ttl v0)) now32) as [Hlt|Hge]|].
    + split; [exact Hnd|]. intros x. rewrite Hiff. split.
      * intros Hx. pose proof (Hother x Hx) as Hne.
        destruct Hx as (v & Hv & Hrest). exists v.
        by rewrite lookup_insert_ne.
      * intros (v & Hv & Hs & Hle & Hrest).
        destruct (decide (i = stats.Key x)) as [He|Hne].
        -- rewrite He, lookup_insert_eq in Hv. injection Hv as <-. lia.
        -- rewrite lookup_insert_ne in Hv by done. by exists v.
    + split.
      * rewrite fmap_app. apply NoDup_app. split; [exact Hnd|].
        split; [|apply NoDup_singleton].
        intros k Hk Hk'. simpl in Hk'. apply list_elem_of_singleton in Hk'.
        subst k. apply list_elem_of_fmap in Hk as (x & Hkx & Hx).
        apply Hiff in Hx. by apply (Hother x Hx).
      * intros x. rewrite elem_of_app, list_elem_of_singleton, Hiff. split.
        -- intros [Hx| ->].
           ++ pose proof (Hother x Hx) as Hne.
              destruct Hx as (v & Hv & Hrest). exists v.
              by rewrite lookup_insert_ne.
           ++ exists v0. simpl. rewrite lookup_insert_eq. repeat split; done.
        -- intros (v & Hv & Hs & Hle & Ht & Hca).
           destruct (decide (i = stats.Key x)) as [He|Hne].
           ++ right. rewrite He, lookup_insert_eq in Hv. injection Hv as <-.
              destruct x as [k t ca]; simpl in *. by subst.
           ++ left. rewrite lookup_insert_ne in Hv by done. by exists v.
    + split; [exact Hnd|]. intros x. rewrite Hiff. split.
      * intros Hx. pose proof (Hother x Hx) as Hne.
        destruct Hx as (v & Hv & Hrest). exists v.
        by rewrite lookup_insert_ne.
      * intros (v & Hv & Hs & Hrest).
        destruct (decide (i = stats.Key x)) as [He|Hne].
        -- rewrite He, lookup_insert_eq in Hv. injection Hv as <-. contradiction.
        -- rewrite lookup_insert_ne in Hv by done. by exists v.
Qed.

(** GetCachedList lists each key at most once, with the ttl and
    createdAt of its entry, and lists exactly the Cacheable entries with
    createdAt + ttl >= now (uint32); for an entry in the ranges of its
    types a listed key is one GetRequestStatus answers Cacheable, from
    the cache, at that time. *)
Theorem GetCachedList_listed now c :
  NoDup (stats.Key <$> stats.GetCachedList now c)
  /\ (forall x, x ∈ stats.GetCachedList now c <->
        exists v, rsMap c !! stats.Key x = Some v /\ status v = Cacheable
                  /\ U.uint32 now <= U.add32 (createdAt v) (ttl v)
                  /\ stats.TTL x = ttl v /\ stats.CreatedAt x = createdAt v)
  /\ (forall x, x ∈ stats.GetCachedList now c ->
        0 <= stats.CreatedAt x <= U.uint32 now -> 0 <= stats.TTL x ->
        stats.CreatedAt x + stats.TTL x < 2 ^ 32 ->
        GetRequestStatus now (stats.Key x) c = (c, (Cacheable, None))).
Proof.
  destruct (GetCachedList_fold (U.uint32 now) (rsMap c)) as [Hnd Hiff].
  split; [exact Hnd|]. split; [exact Hiff|].
  intros x Hx Hca Httl Hsum. apply Hiff in Hx as (v & Hv & Hs & Hle & Ht & Hc).
  rewrite Ht, Hc in *.
  rewrite GetRequestStatus_lockAndUpdateRsMap. unfold lockAndUpdateRsMap.
  rewrite Hv.
  assert (He : isExpired now v = false).
  { unfold isExpired. destruct (ttl v =? 0); [reflexivity|]. simpl.
    apply Z.ltb_ge. unfold U.add32 in Hle.
    assert (Hn : 0 <= U.uint32 now < 2 ^ 32)
      by (unfold U.uint32; apply Z.mod_pos_bound; lia).
    set (n := U.uint32 now) in *. unfold U.sub32, U.uint32 in *.
    rewrite Z.mod_small in Hle by lia. rewrite Z.mod_small by lia. lia. }
  rewrite He, Hs. reflexivity.
Qed.

Lemma GetCachedList_listed_witness :
  let e := {| createdAt := 1000; ttl := 60; status := Cacheable;
              waitingChans := [] |} in
  let c0 := {| rsMap := {["k" := e]}; db := ∅; nextChan := O;
               trace := [] |} in
  let x := {| stats.Key := "k"; stats.TTL := 60; stats.CreatedAt := 1000 |} in
  x ∈ stats.GetCachedList 1030 c0
  /\ GetRequestStatus 1030 "k" c0 = (c0, (Cacheable, None)).
Proof.
  intros e c0 x.
  destruct (GetCachedList_listed 1030 c0) as (_ & Hiff & Hserved).
  assert (Hx : x ∈ stats.GetCachedList 1030 c0).
  { apply Hiff. exists e. split; [apply lookup_singleton_eq|].
    split; [reflexivity|]. split; [vm_compute; discriminate|].
    split; reflexivity. }
  split; [exact Hx|].
  apply (Hserved x Hx); simpl; [vm_compute; split; discriminate|lia|lia].
Defined.

(** What the loop of GetFetchingList has collected after the entries [m]. *)
Lemma GetFetchingList_fold (m : gmap string RequestStatus) :
  let l := map_fold stats.fetchingEntry [] m in
  forall x, x ∈ l <->
    exists v, m !! stats.FKey x = Some v /\ status v = Fetching
              /\ stats.FCreatedAt x = createdAt v.
Proof.
  apply (map_fold_weak_ind (fun l m =>
    forall x, x ∈ l <->
      exists v, m !! stats.FKey x = Some v /\ status v = Fetching
                /\ stats.FCreatedAt x = createdAt v)).
  - intros x. split.
    + intros Hin. by apply elem_of_nil in Hin.
    + intros (v & Hv & _). by rewrite lookup_empty in Hv.
  - intros i v0 m' l Hi Hiff. unfold stats.fetchingEntry.
    assert (Hother : forall x, (exists v, m' !! stats.FKey x = Some v
               /\ status v = Fetching /\ stats.FCreatedAt x = createdAt v)
             -> stats.FKey x <> i).
    { intros x (v & Hv & _) He. rewrite He, Hi in Hv. discriminate Hv. }
    destruct (Z.eqb_spec (status v0) Fetching) as [Hc|Hc]; simpl.
    + intros x. rewrite elem_of_app, list_elem_of_singleton, Hiff. split.
      * intros [Hx| ->].
        -- pose proof (Hother x Hx) as Hne.
           destruct Hx as (v & Hv & Hrest). exists v.
           by rewrite lookup_insert_ne.
        -- exists v0. simpl. rewrite lookup_insert_eq. repeat split; done.
      * intros (v & Hv & Hs & Hca).
        destruct (decide (i = stats.FKey x)) as [He|Hne].
        -- right. rewrite He, lookup_insert_eq in Hv. injection Hv as <-.
           destruct x as [k ca]; simpl in *. by subst.
        -- left. rewrite lookup_insert_ne in Hv by done. by exists v.
    + intros x. rewrite Hiff. split.
      * intros Hx. pose proof (Hother x Hx) as Hne.
        destruct Hx as (v & Hv & Hrest). exists v.
        by rewrite lookup_insert_ne.
      * intros (v & Hv & Hs & Hrest).
        destruct (decide (i = stats.FKey x)) as [He|Hne].
        -- rewrite He, lookup_insert_eq in Hv. injection Hv as <-. contradiction.
        -- rewrite lookup_insert_ne in Hv by done. by exists v.
Qed.

(** In a state the proxy reaches, the keys GetFetchingList lists are
    exactly the keys for which GetRequestStatus, at any time, answers
    Waiting: a fetch under way never expires. *)
Theorem GetFetchingList_are_waited_on now key c :
  reachable c ->
  (exists x, x ∈ stats.GetFetchingList c /\ stats.FKey x = key)
  <-> (GetRequestStatus now key c).2.1 = Waiting.
Proof.
  intros Hr. pose proof (GetFetchingList_fold (rsMap c)) as Hiff. simpl in Hiff.
  fold (stats.GetFetchingList c) in Hiff.
  rewrite GetRequestStatus_lockAndUpdateRsMap. split.
  - intros (x & Hx & <-). apply Hiff in Hx as (v & Hv & Hs & _).
    destruct (reachable_tableShape c Hr _ _ Hv) as [[_ Ht]|[[Hs'|Hs'] _]];
      [|rewrite Hs in Hs'; discriminate Hs'|rewrite Hs in Hs'; discriminate Hs'].
    by rewrite (lockAndUpdateRsMap_fetching _ _ _ _ Hv Hs Ht).
  - unfold lockAndUpdateRsMap.
    destruct (rsMap c !! key) as [v|] eqn:Hv; [|discriminate].
    destruct (isExpired now v); [discriminate|].
    destruct (Z.eqb_spec (status v) Fetching) as [Hs|Hs]; simpl.
    + intros _. exists {| stats.FKey := key; stats.FCreatedAt := createdAt v |}.
      split; [|reflexivity]. apply Hiff. exists v. by repeat split.
    + intros Hw. pose proof (reachable_noWaitingStored c Hr _ _ Hv). contradiction.
Qed.

Lemma GetFetchingList_are_waited_on_witness :
  let c0 := run (OpGetRequestStatus 100 "k") (Init ∅) in
  reachable c0 /\ (GetRequestStatus 4000000000 "k" c0).2.1 = Waiting.
Proof.
  intros c0.
  assert (Hr : reachable c0) by (repeat apply reach_step; apply reach_Init).
  split; [exact Hr|].
  apply (GetFetchingList_are_waited_on 4000000000 "k" c0 Hr).
  exists {| stats.FKey := "k"; stats.FCreatedAt := 100 |}.
  split; [|reflexivity]. vm_compute. apply list_elem_of_singleton. reflexivity.
Defined.

End listings.

(** One key being fetched, one served and one passed. *)
Lemma GetStats_counts_witness :
  let c0 := Inv.run (Inv.OpHitForPass "c" 300)
              (Inv.run (Inv.OpGetRequestStatus 2 "c")
                 (Inv.run (Inv.OpCacheable "b" 60)
                    (Inv.run (Inv.OpGetRequestStatus 1 "b")
                       (Inv.run (Inv.OpGetRequestStatus 0 "a")
                          (cache.Init ∅))))) in
  let s := stats.GetStats (fsize := Ref2.flat_size) c0 in
  Inv.reachable c0
  /\ stats.Fetching s + stats.HitForPass s + stats.Cacheable s = 3.
Proof.
  intros c0 s.
  assert (Hr : Inv.reachable c0)
    by (repeat apply Inv.reach_step; apply Inv.reach_Init).
  split; [exact Hr|].
  destruct (GetStats_counts (fsize := Ref2.flat_size) c0) as (_ & _ & _ & _ & H).
  exact (H Hr).
Defined.

(** ** Reading and writing the store *)

Section store_access.
Import cache Inv.
Context {json : Json} {kv : Store}.

Lemma slice_short (data : list byte) lo hi :
  len data < hi -> slice data lo hi = None.
Proof.
  intros Hlt. unfold slice, len in *.
  rewrite bool_decide_eq_false_2; [reflexivity|lia].
Qed.

(** A stored value shorter than the 24 bytes of the fixed fields makes
    GetResponse panic (slice bounds out of range): it is not reported
    as an error. *)
Theorem GetResponse_truncated_panics key c data :
  db_Get_err key = None ->
  db c !! key = Some data -> 0 < len data < 24 ->
  GetResponse key c = None.
Proof.
  intros Hg Hl [Hpos Hlt]. unfold GetResponse. rewrite Hg, Hl.
  destruct (Z.eqb_spec (len data) 0) as [|_]; [lia|].
  unfold decodeResponse.
  rewrite (slice_short data 20 24) by lia.
  repeat match goal with
  | |- context [slice data ?a ?b] =>
      destruct (slice data a b); cbn [mbind option_bind]; [|reflexivity]
  | |- context [bytesToUint32 ?b] =>
      destruct (bytesToUint32 b); cbn [mbind option_bind]; [|reflexivity]
  | |- context [bytesToUint16 ?b] =>
      destruct (bytesToUint16 b); cbn [mbind option_bind]; [|reflexivity]
  end.
  reflexivity.
Qed.

(** SaveResponse takes a createdAt of 0 for "not set": what is read back
    carries the time of the save instead. *)
Theorem SaveResponse_stamps_createdAt now key r c c' hdr :
  CreatedAt r = 0 ->
  U.is_u16 (StatusCode r) -> U.is_u16 (TTL r) ->
  json_Marshal (Header r) = inl hdr ->
  json_Unmarshal hdr = inl (Header r) ->
  fitsWireFormat hdr r ->
  SaveResponse now key r c = (c', None) ->
  db_Get_err key = None ->
  exists r', GetResponse key c' = Some (Some r', None)
             /\ CreatedAt r' = U.uint32 now.
Proof.
  intros Hz Hsc Httl Hm Hu Hfit Hsave Hget.
  eexists. split; [by eapply GetResponse_SaveResponse|].
  simpl. rewrite Hz. simpl. apply uint32_idemp.
Qed.

(** SaveResponse writes one key of the store and nothing else: the
    status table, the trace and every other key's record are as before;
    and when it returns an error nothing at all has changed. *)
Theorem SaveResponse_frame now key r c :
  let c' := (SaveResponse now key r c).1 in
  rsMap c' = rsMap c /\ trace c' = trace c /\ nextChan c' = nextChan c
  /\ (forall k, k <> key ->
        db c' !! k = db c !! k /\ GetResponse k c' = GetResponse k c)
  /\ ((SaveResponse now key r c).2 <> None -> c' = c).
Proof.
  intros c'. subst c'. unfold SaveResponse.
  destruct (json_Marshal (Header r)) as [hdr|e]; simpl;
    [|repeat split; done].
  destruct (db_Put_err key _) as [e|]; simpl; [repeat split; done|].
  repeat split; try done.
  - by rewrite lookup_insert_ne.
  - unfold GetResponse. simpl. by rewrite lookup_insert_ne.
Qed.

(** A key the sweep or Remove has taken reads as a miss, the nil record
    with the nil error, not as an error. *)
Theorem removed_key_reads_as_miss now delay key c :
  db_Get_err key = None ->
  GetResponse key (Remove key c) = Some (None, None)
  /\ (rsMap (ClearExpired now delay c) !! key = None ->
      rsMap c !! key <> None ->
      GetResponse key (ClearExpired now delay c) = Some (None, None)).
Proof.
  intros Hg. split.
  - unfold GetResponse, Remove. rewrite Hg. simpl. by rewrite lookup_delete_eq.
  - intros Hgone Hwas.
    pose proof (ClearExpired_lookup now delay c key) as Hk. simpl in Hk.
    destruct (rsMap c !! key) as [v|]; [|done].
    destruct (sweepable _ _ v).
    + destruct Hk as [_ Hd]. unfold GetResponse. by rewrite Hg, Hd.
    + destruct Hk as [Hk _]. rewrite Hk in Hgone. discriminate Hgone.
Qed.

End store_access.

Lemma GetResponse_truncated_panics_witness :
  let c0 := {| cache.rsMap := ∅; cache.db := {["k" := [x01; x02; x03]]};
               cache.nextChan := O; cache.trace := [] |} in
  cache.GetResponse (json := Ref.empty_object_json)
    (kv := Ref.accepting_store) "k" c0 = None.
Proof.
  intros c0.
  apply (GetResponse_truncated_panics (json := Ref.empty_object_json)
           (kv := Ref.accepting_store) "k" c0 [x01; x02; x03]).
  - reflexivity.
  - apply lookup_singleton_eq.
  - unfold len; simpl; lia.
Defined.

Lemma SaveResponse_stamps_createdAt_witness :
  let r0 := {| cache.CreatedAt := 0; cache.StatusCode := 200;
               cache.TTL := 60; cache.Header := ∅;
               cache.Body := [x68; x69]; cache.GzipBody := [];
               cache.BrBody := []; cache.CompressLevel := 0;
               cache.CompressMinLength := 0 |} in
  let c1 := (cache.SaveResponse (json := Ref.empty_object_json)
               (kv := Ref.accepting_store) 1500000100 "k" r0
               (cache.Init ∅)).1 in
  exists r',
    cache.GetResponse (json := Ref.empty_object_json)
      (kv := Ref.accepting_store) "k" c1 = Some (Some r', None)
    /\ cache.CreatedAt r' = 1500000100.
Proof.
  intros r0 c1.
  apply (SaveResponse_stamps_createdAt (json := Ref.empty_object_json)
           (kv := Ref.accepting_store) 1500000100 "k" r0 (cache.Init ∅) c1
           [x7b; x7d]).
  - reflexivity.
  - unfold U.is_u16; simpl; lia.
  - unfold U.is_u16; simpl; lia.
  - reflexivity.
  - reflexivity.
  - unfold Inv.fitsWireFormat; simpl. reflexivity.
  - reflexivity.
  - reflexivity.
Defined.

Lemma removed_key_reads_as_miss_witness :
  cache.GetResponse (json := Ref.empty_object_json) (kv := Ref.accepting_store)
    "k" (cache.Remove "k"
           {| cache.rsMap := ∅; cache.db := {["k" := [x01]]};
              cache.nextChan := O; cache.trace := [] |})
  = Some (None, None).
Proof.
  exact (proj1 (removed_key_reads_as_miss (json := Ref.empty_object_json)
                  (kv := Ref.accepting_store) 0 60 "k" _ eq_refl)).
Defined.

(** ** Negotiation and the store procedure, further *)

Section negotiation_more.
Import cache middleware.
Context {codecs : Codecs}.

Lemma Gzip_level_ok buf level : level <= 9 -> util.Gzip buf level <> None.
Proof.
  intros Hl. unfold util.Gzip, util.gzip_DefaultCompression,
    util.gzip_BestCompression.
  destruct (Z.leb_spec level 0).
  - simpl. by destruct (gzip_Write (-1) buf).
  - destruct (Z.ltb_spec 9 level); [lia|]. by destruct (gzip_Write level buf).
Qed.

Lemma Gzip_level_high buf level : 9 < level -> util.Gzip buf level = None.
Proof.
  intros Hl. unfold util.Gzip, util.gzip_DefaultCompression,
    util.gzip_BestCompression.
  destruct (Z.leb_spec level 0); [lia|].
  destruct (Z.ltb_spec 9 level); [reflexivity|lia].
Qed.

Lemma GetBody_try_returns r ae enc body e :
  GetBody_try r ae enc = Some (Some (body, e)) ->
  e = enc /\ strings_Contains ae enc = true
  /\ (enc = BrEncoding \/ enc = GzipEncoding).
Proof.
  unfold GetBody_try.
  destruct (strings_Contains ae enc); simpl; [|discriminate].
  destruct (String.eqb_spec enc BrEncoding) as [Hb|Hb].
  - destruct (negb (len (BrBody r) =? 0)); [intros [= _ <-]; by auto|].
    destruct (getRawBody r) as [raw [err|]]; [discriminate|].
    destruct (util.BrotliEncode raw (CompressLevel r)) as [out [err|]];
      [discriminate|]. intros [= _ <-]. by auto.
  - destruct (String.eqb_spec enc GzipEncoding) as [Hg|Hg]; [|discriminate].
    destruct (negb (len (GzipBody r) =? 0)); [intros [= _ <-]; by auto|].
    destruct (util.Gzip (Body r) (CompressLevel r)) as [[out [err|]]|];
      try discriminate. intros [= _ <-]. by auto.
Qed.

Lemma GetBody_loop_returns r ae encs body e :
  GetBody_loop r ae encs = Some (body, e) ->
  e = ""%string
  \/ (strings_Contains ae e = true /\ (e = BrEncoding \/ e = GzipEncoding)).
Proof.
  induction encs as [|enc encs IH]; simpl.
  - unfold GetBody_fallback.
    destruct ((len (Body r) =? 0) && negb (len (GzipBody r) =? 0));
      intros [= _ <-]; by left.
  - destruct (GetBody_try r ae enc) as [[[b e']|]|] eqn:E; [| |discriminate].
    + intros [= <- <-]. apply GetBody_try_returns in E as (-> & Hc & He).
      by right.
    + exact IH.
Qed.

(** GetBody never names an encoding the client did not list: the
    encoding it returns is empty, or is br or gzip and occurs in
    Accept-Encoding. *)
Theorem GetBody_encoding_accepted r acceptEncoding body enc :
  GetBody r acceptEncoding = Some (body, enc) ->
  enc = ""%string
  \/ (strings_Contains acceptEncoding enc = true
      /\ (enc = "br"%string \/ enc = "gzip"%string)).
Proof.
  unfold GetBody.
  destruct (StatusCode r =? StatusNoContent); [intros [= _ <-]; by left|].
  destruct (negb (len (Body r) =? 0) && _); [intros [= _ <-]; by left|].
  apply GetBody_loop_returns.
Qed.

Lemma GetBody_try_no_panic r ae enc :
  CompressLevel r <= 9 -> GetBody_try r ae enc <> None.
Proof.
  intros Hl. unfold GetBody_try.
  destruct (negb (strings_Contains ae enc)); [discriminate|].
  destruct (String.eqb enc BrEncoding).
  - destruct (negb (len (BrBody r) =? 0)); [discriminate|].
    destruct (getRawBody r) as [raw [err|]]; [discriminate|].
    by destruct (util.BrotliEncode raw (CompressLevel r)) as [out [err|]].
  - destruct (String.eqb enc GzipEncoding); [|discriminate].
    destruct (negb (len (GzipBody r) =? 0)); [discriminate|].
    pose proof (Gzip_level_ok (Body r) _ Hl) as Hz.
    by destruct (util.Gzip (Body r) (CompressLevel r)) as [[out [err|]]|].
Qed.

(** GetBody returns for every record whose compression level is at most
    9, gzip's best; above that (the level may go up to 11 for brotli)
    it panics as soon as it has to gzip on demand: the writer it asks
    for does not exist. *)
Theorem GetBody_panics_only_above_gzip_levels r acceptEncoding :
  (CompressLevel r <= 9 -> GetBody r acceptEncoding <> None)
  /\ (9 < CompressLevel r ->
      StatusCode r <> StatusNoContent ->
      Body r = [] \/ (if CompressMinLength r =? 0 then DefaultCompressMinLength
                      else CompressMinLength r) <= len (Body r) ->
      GzipBody r = [] ->
      strings_Contains acceptEncoding "br" = false ->
      strings_Contains acceptEncoding "gzip" = true ->
      GetBody r acceptEncoding = None).
Proof.
  split.
  - intros Hl. unfold GetBody.
    destruct (StatusCode r =? StatusNoContent); [discriminate|].
    destruct (negb (len (Body r) =? 0) && _); [discriminate|].
    unfold supportEncondings. simpl.
    pose proof (GetBody_try_no_panic r acceptEncoding BrEncoding Hl).
    pose proof (GetBody_try_no_panic r acceptEncoding GzipEncoding Hl).
    destruct (GetBody_try r acceptEncoding BrEncoding) as [[?|]|]; try done.
    destruct (GetBody_try r acceptEncoding GzipEncoding) as [[?|]|]; done.
  - intros Hl Hsc Hbody Hg Hbr Hgz. unfold GetBody.
    destruct (Z.eqb_spec (StatusCode r) StatusNoContent) as [|_]; [contradiction|].
    assert (Hsmall : negb (len (Body r) =? 0)
                     && (len (Body r) <? (if CompressMinLength r =? 0
                                          then DefaultCompressMinLength
                                          else CompressMinLength r)) = false).
    { destruct Hbody as [->|Hge]; [reflexivity|].
      apply andb_false_iff. right. apply Z.ltb_ge. exact Hge. }
    rewrite Hsmall. unfold supportEncondings. simpl.
    unfold GetBody_try. unfold BrEncoding at 1. rewrite Hbr. simpl.
    unfold GzipEncoding at 1. rewrite Hgz. simpl. rewrite Hg. simpl.
    by rewrite (Gzip_level_high _ _ Hl).
Qed.

End negotiation_more.

Lemma GetBody_encoding_accepted_witness :
  let r0 := {| cache.CreatedAt := 1500000000; cache.StatusCode := 200;
               cache.TTL := 60; cache.Header := ∅; cache.Body := [];
               cache.GzipBody := [x1f; x8b; x68; x69]; cache.BrBody := [];
               cache.CompressLevel := 0; cache.CompressMinLength := 0 |} in
  cache.GetBody (codecs := Ref.stored_gzip) r0 "gzip, deflate"
    = Some ([x1f; x8b; x68; x69], "gzip"%string)
  /\ cache.strings_Contains "gzip, deflate" "gzip" = true.
Proof.
  intros r0.
  assert (H : cache.GetBody (codecs := Ref.stored_gzip) r0 "gzip, deflate"
              = Some ([x1f; x8b; x68; x69], "gzip"%string)) by reflexivity.
  split; [exact H|].
  destruct (GetBody_encoding_accepted (codecs := Ref.stored_gzip) r0
              "gzip, deflate" _ _ H) as [Hn|[Hc _]];
    [discriminate Hn|exact Hc].
Defined.

(** Level 11, fine for brotli, and a client that only takes gzip. *)
Lemma GetBody_panics_only_above_gzip_levels_witness :
  let r0 := {| cache.CreatedAt := 1500000000; cache.StatusCode := 200;
               cache.TTL := 60; cache.Header := ∅; cache.Body := [];
               cache.GzipBody := []; cache.BrBody := [xce; x68; x69];
               cache.CompressLevel := 11; cache.CompressMinLength := 0 |} in
  cache.GetBody (codecs := Ref.stored_gzip) r0 "gzip" = None.
Proof.
  intros r0.
  apply (proj2 (GetBody_panics_only_above_gzip_levels
                  (codecs := Ref.stored_gzip) r0 "gzip")).
  - simpl. lia.
  - discriminate.
  - by left.
  - reflexivity.
  - reflexivity.
  - reflexivity.
Defined.

Section store_procedure.
Import cache middleware StoreInv.
Context {codecs : Codecs} {json : Json} {kv : Store}.

Lemma SaveResponse_table now key r c :
  rsMap (SaveResponse now key r c).1 = rsMap c
  /\ trace (SaveResponse now key r c).1 = trace c.
Proof.
  unfold SaveResponse. destruct (json_Marshal (Header r)); [|done].
  by destruct (db_Put_err key _).
Qed.

Lemma doSave_entry now c key r rs :
  rsMap c !! key = Some rs ->
  rsMap (doSave now c key r) !! key
    = Some {| createdAt := createdAt rs; ttl := TTL r; status := Cacheable;
              waitingChans := [] |}
  /\ trace (doSave now c key r)
     = trace c ++ flat_map (fun ch => [Send ch Cacheable; Close ch])
                    (waitingChans rs).
Proof.
  intros Hl. unfold doSave, Client_Cacheable, UpdateRequestStatus.
  destruct (SaveResponse_table now key r c) as [Hm Ht].
  rewrite Hm, Hl. simpl. rewrite lookup_insert_eq, Ht.
  split; [reflexivity|apply notify_flat_map].
Qed.

Lemma HitForPass_entry c key rs :
  rsMap c !! key = Some rs ->
  rsMap (Client_HitForPass key HitForPassTTL c) !! key
    = Some {| createdAt := createdAt rs; ttl := HitForPassTTL;
              status := HitForPass; waitingChans := [] |}
  /\ trace (Client_HitForPass key HitForPassTTL c)
     = trace c ++ flat_map (fun ch => [Send ch HitForPass; Close ch])
                    (waitingChans rs).
Proof.
  intros Hl. unfold Client_HitForPass, UpdateRequestStatus.
  rewrite Hl. simpl. rewrite lookup_insert_eq.
  split; [reflexivity|apply notify_flat_map].
Qed.

Lemma settled_doSave now c key r r' rs :
  rsMap c !! key = Some rs -> TTL r' = TTL r ->
  settled c (doSave now c key r') key rs r.
Proof.
  intros Hl Ht. destruct (doSave_entry now c key r' rs Hl) as [H1 H2].
  exists Cacheable, (TTL r). split; [by left|]. by rewrite <- Ht.
Qed.

Lemma save_compress_settles now c key r body rs c' r' :
  rsMap c !! key = Some rs ->
  save_compress now c key r body = Some (c', r') ->
  settled c c' key rs r.
Proof.
  intros Hl. unfold save_compress.
  destruct (len body =? 0).
  { intros [= <- <-]. destruct (HitForPass_entry c key rs Hl) as [H1 H2].
    exists HitForPass, HitForPassTTL. split; [by right|done]. }
  destruct (len body <? _).
  { intros [= <- <-]. by apply settled_doSave. }
  destruct (len (GzipBody r) =? 0).
  - destruct (util.Gzip body (CompressLevel r)) as [[gz e]|];
      [|discriminate]. cbn [mbind option_bind].
    destruct (negb (len gz =? 0)); cbn [mbind option_bind];
      intros [= <- <-]; apply settled_doSave; try done;
      match goal with |- context [if ?b then _ else _] => by destruct b end.
  - cbn [mbind option_bind]. intros [= <- <-]. apply settled_doSave; [done|].
    by destruct (len (BrBody r) =? 0).
Qed.

(** Whatever path save takes, if it returns, the key is settled: its
    entry is Cacheable with the record's TTL or HitForPass with the
    default TTL, keeps its createdAt, and every waiter has been sent
    that status and closed. *)
Theorem save_settles_key now client identity resp compressible rs client' resp' :
  rsMap client !! identity = Some rs ->
  save now client identity resp compressible = Some (client', resp') ->
  exists st t,
    ((st = Cacheable /\ t = TTL resp) \/ (st = HitForPass /\ t = HitForPassTTL))
    /\ rsMap client' !! identity
       = Some {| createdAt := createdAt rs; ttl := t; status := st;
                 waitingChans := [] |}
    /\ trace client' = trace client
         ++ flat_map (fun ch => [Send ch st; Close ch]) (waitingChans rs).
Proof.
  intros Hl. unfold save.
  destruct ((StatusCode resp =? StatusNoContent) || negb compressible).
  { intros [= <- <-]. by apply (settled_doSave now client identity resp resp rs). }
  destruct (len (Body resp) =? 0).
  - destruct (negb (len (GzipBody resp) =? 0)).
    + destruct (util.Gunzip (GzipBody resp)) as [raw [e|]].
      * intros [= <- <-].
        by apply (settled_doSave now client identity resp resp rs).
      * by apply save_compress_settles.
    + destruct (negb (len (BrBody resp) =? 0)).
      * destruct (util.BrotliDecode (BrBody resp)) as [raw [e|]].
        -- intros [= <- <-].
           by apply (settled_doSave now client identity resp resp rs).
        -- by apply save_compress_settles.
      * by apply save_compress_settles.
  - by apply save_compress_settles.
Qed.

Ltac content_goals :=
  unfold sameMeta, hasContent; simpl; repeat apply conj;
  try reflexivity; try (intros; congruence);
  try (intros [?|[?|?]]; auto; congruence); auto.

Ltac same_record := intros [= <- <-]; content_goals.

Lemma save_compress_keeps now c key r body c' r' :
  save_compress now c key r body = Some (c', r') ->
  sameMeta r r'
  /\ (hasContent r -> hasContent r')
  /\ (GzipBody r <> [] -> GzipBody r' = GzipBody r /\ Body r' = Body r)
  /\ (BrBody r <> [] -> BrBody r' = BrBody r)
  /\ (Body r' = Body r \/ (Body r' = [] /\ GzipBody r' <> [])).
Proof.
  unfold save_compress.
  destruct (len body =? 0); [same_record|].
  destruct (len body <? _); [same_record|].
  destruct (len (GzipBody r) =? 0) eqn:Hg.
  - apply len_nil_iff in Hg.
    destruct (util.Gzip body (CompressLevel r)) as [[gz e]|];
      [|discriminate]. cbn [mbind option_bind].
    destruct (len gz =? 0) eqn:Hz; cbn [negb mbind option_bind].
    + destruct (len (BrBody r) =? 0) eqn:Hb.
      * apply len_nil_iff in Hb. same_record.
      * same_record.
    + assert (Hgz : gz <> []).
      { intros ->. discriminate Hz. }
      destruct (len (BrBody (set_GzipBody_dropBody gz r)) =? 0) eqn:Hb;
        simpl in Hb.
      * apply len_nil_iff in Hb. same_record.
      * same_record.
  - assert (Hgn : GzipBody r <> []).
    { intros Hx. rewrite Hx in Hg. discriminate Hg. }
    cbn [mbind option_bind].
    destruct (len (BrBody r) =? 0) eqn:Hb.
    + apply len_nil_iff in Hb. same_record.
    + same_record.
Qed.

(** save changes nothing of a record but its three buffers, and never
    loses the content: a populated record stays populated, a compressed
    buffer already there is kept as it is, and the raw body is dropped
    only for a gzip buffer that is not empty. *)
Theorem save_keeps_content now client identity resp compressible client' resp' :
  save now client identity resp compressible = Some (client', resp') ->
  sameMeta resp resp'
  /\ (hasContent resp -> hasContent resp')
  /\ (GzipBody resp <> [] ->
        GzipBody resp' = GzipBody resp /\ Body resp' = Body resp)
  /\ (BrBody resp <> [] -> BrBody resp' = BrBody resp)
  /\ (Body resp' = Body resp \/ (Body resp' = [] /\ GzipBody resp' <> [])).
Proof.
  unfold save.
  destruct ((StatusCode resp =? StatusNoContent) || negb compressible);
    [same_record|].
  destruct (len (Body resp) =? 0).
  - destruct (negb (len (GzipBody resp) =? 0)).
    + destruct (util.Gunzip (GzipBody resp)) as [raw [e|]]; [same_record|].
      apply save_compress_keeps.
    + destruct (negb (len (BrBody resp) =? 0)).
      * destruct (util.BrotliDecode (BrBody resp)) as [raw [e|]];
          [same_record|]. apply save_compress_keeps.
      * apply save_compress_keeps.
  - apply save_compress_keeps.
Qed.

(** A record to compress that holds no content at all is not persisted:
    the store is left as it was and the key becomes HitForPass for the
    default TTL. *)
Theorem save_without_content now client identity resp :
  StatusCode resp <> StatusNoContent ->
  Body resp = [] -> GzipBody resp = [] -> BrBody resp = [] ->
  save now client identity resp true
    = Some (Client_HitForPass identity HitForPassTTL client, resp)
  /\ db (Client_HitForPass identity HitForPassTTL client) = db client.
Proof.
  intros Hsc Hb Hg Hbr. split.
  - unfold save.
    destruct (Z.eqb_spec (StatusCode resp) StatusNoContent); [contradiction|].
    simpl. rewrite Hb, Hg, Hbr. reflexivity.
  - unfold Client_HitForPass, UpdateRequestStatus.
    by destruct (rsMap client !! identity).
Qed.

(** save returns for every record whose compression level is at most 9. *)
Lemma save_compress_no_panic now c key r body :
  CompressLevel r <= 9 -> save_compress now c key r body <> None.
Proof.
  intros Hl. unfold save_compress.
  destruct (len body =? 0); [discriminate|].
  destruct (len body <? _); [discriminate|].
  destruct (len (GzipBody r) =? 0); [|discriminate].
  pose proof (Gzip_level_ok body _ Hl) as Hz.
  destruct (util.Gzip body (CompressLevel r)) as [[gz e]|]; [|contradiction].
  cbn [mbind option_bind]. by destruct (negb (len gz =? 0)).
Qed.

(** From the store procedure to the client: a compressible raw body of
    at least the minimum length, at a level gzip knows, with both
    encoders giving output, is stored as its gzip and brotli encodings
    without the raw bytes, and GetBody serves the record so stored
    with the stored brotli bytes to a client that lists br, and with the
    stored gzip bytes to one that lists gzip only, encoding nothing
    again. *)
Theorem save_then_GetBody now client identity resp client' resp' gz br ebr :
  StatusCode resp <> StatusNoContent ->
  GzipBody resp = [] -> BrBody resp = [] ->
  (if CompressMinLength resp =? 0 then DefaultCompressMinLength
   else CompressMinLength resp) <= len (Body resp) ->
  0 < len (Body resp) ->
  util.Gzip (Body resp) (CompressLevel resp) = Some (gz, None) -> gz <> [] ->
  util.BrotliEncode (Body resp) (CompressLevel resp) = (br, ebr) -> br <> [] ->
  save now client identity resp true = Some (client', resp') ->
  Body resp' = [] /\ GzipBody resp' = gz /\ BrBody resp' = br
  /\ (forall ae, strings_Contains ae "br" = true ->
         GetBody resp' ae = Some (br, "br"%string))
  /\ (forall ae, strings_Contains ae "br" = false ->
         strings_Contains ae "gzip" = true ->
         GetBody resp' ae = Some (gz, "gzip"%string)).
Proof.
  intros Hsc Hg Hbr Hmin Hpos Hz Hgz He Hbrn Hs.
  assert (Hr : resp' = set_BrBody br (set_GzipBody_dropBody gz resp)).
  { unfold save in Hs.
    destruct (Z.eqb_spec (StatusCode resp) StatusNoContent); [contradiction|].
    simpl in Hs.
    destruct (Z.eqb_spec (len (Body resp)) 0) as [|_]; [lia|].
    unfold save_compress in Hs.
    destruct (Z.eqb_spec (len (Body resp)) 0) as [|_]; [lia|].
    destruct (Z.ltb_spec (len (Body resp))
                (if CompressMinLength resp =? 0 then DefaultCompressMinLength
                 else CompressMinLength resp)); [lia|].
    rewrite Hg, Hz in Hs. simpl in Hs. rewrite (len_nonnil _ Hgz) in Hs.
    cbn [negb mbind option_bind] in Hs. simpl in Hs. rewrite Hbr in Hs.
    simpl in Hs. rewrite He in Hs. simpl in Hs. by injection Hs as _ <-. }
  subst resp'. simpl. repeat split.
  - intros ae Hc. unfold GetBody. simpl.
    destruct (Z.eqb_spec (StatusCode resp) StatusNoContent); [contradiction|].
    unfold GetBody_try. unfold BrEncoding at 1. rewrite Hc. simpl.
    by rewrite (len_nonnil _ Hbrn).
  - intros ae Hnb Hc. unfold GetBody. simpl.
    destruct (Z.eqb_spec (StatusCode resp) StatusNoContent); [contradiction|].
    unfold GetBody_try. unfold BrEncoding at 1. rewrite Hnb. simpl.
    unfold GzipEncoding at 1. rewrite Hc. simpl.
    by rewrite (len_nonnil _ Hgz).
Qed.

(** save returns for every record whose compression level is at most
    9; above that it panics whenever it has to produce the gzip buffer
    of a compressible body of at least the minimum length. *)
Theorem save_panics_only_above_gzip_levels now client identity resp compressible :
  (CompressLevel resp <= 9 ->
     save now client identity resp compressible <> None)
  /\ (9 < CompressLevel resp -> compressible = true ->
      StatusCode resp <> StatusNoContent -> GzipBody resp = [] ->
      0 < len (Body resp) ->
      (if CompressMinLength resp =? 0 then DefaultCompressMinLength
       else CompressMinLength resp) <= len (Body resp) ->
      save now client identity resp compressible = None).
Proof.
  split.
  - intros Hl. unfold save.
    destruct ((StatusCode resp =? StatusNoContent) || negb compressible);
      [discriminate|].
    destruct (len (Body resp) =? 0).
    + destruct (negb (len (GzipBody resp) =? 0)).
      * destruct (util.Gunzip (GzipBody resp)) as [raw [e|]]; [discriminate|].
        by apply save_compress_no_panic.
      * destruct (negb (len (BrBody resp) =? 0)).
        -- destruct (util.BrotliDecode (BrBody resp)) as [raw [e|]];
             [discriminate|]. by apply save_compress_no_panic.
        -- by apply save_compress_no_panic.
    + by apply save_compress_no_panic.
  - intros Hl -> Hsc Hg Hpos Hmin. unfold save.
    destruct (Z.eqb_spec (StatusCode resp) StatusNoContent); [contradiction|].
    simpl.
    destruct (Z.eqb_spec (len (Body resp)) 0) as [|_]; [lia|].
    unfold save_compress.
    destruct (Z.eqb_spec (len (Body resp)) 0) as [|_]; [lia|].
    destruct (Z.ltb_spec (len (Body resp))
                (if CompressMinLength resp =? 0 then DefaultCompressMinLength
                 else CompressMinLength resp)); [lia|].
    rewrite Hg. simpl. by rewrite (Gzip_level_high _ _ Hl).
Qed.

End store_procedure.

(** A fetcher and a waiter; the response comes with a TTL. *)
Lemma save_settles_key_witness :
  let r0 := {| cache.CreatedAt := 1500000000; cache.StatusCode := 200;
               cache.TTL := 60; cache.Header := ∅; cache.Body := [x68; x69];
               cache.GzipBody := []; cache.BrBody := [];
               cache.CompressLevel := 0; cache.CompressMinLength := 0 |} in
  let rs0 := {| cache.createdAt := 1500000000; cache.ttl := 0;
                cache.status := cache.Fetching;
                cache.waitingChans := [0%nat] |} in
  let c0 := {| cache.rsMap := {["k" := rs0]}; cache.db := ∅;
               cache.nextChan := 1%nat; cache.trace := [] |} in
  exists c' r' st t,
    middleware.save (codecs := Ref.stored_gzip) (json := Ref.empty_object_json)
      (kv := Ref.accepting_store) 1500000001 c0 "k" r0 true = Some (c', r')
    /\ cache.rsMap c' !! "k"
       = Some {| cache.createdAt := 1500000000; cache.ttl := t;
                 cache.status := st; cache.waitingChans := [] |}
    /\ cache.trace c' = [cache.Send 0%nat st; cache.Close 0%nat].
Proof.
  intros r0 rs0 c0.
  destruct (middleware.save (codecs := Ref.stored_gzip)
              (json := Ref.empty_object_json) (kv := Ref.accepting_store)
              1500000001 c0 "k" r0 true) as [[c' r']|] eqn:E;
    [|vm_compute in E; discriminate E].
  destruct (save_settles_key (codecs := Ref.stored_gzip)
              (json := Ref.empty_object_json) (kv := Ref.accepting_store)
              1500000001 c0 "k" r0 true rs0 c' r' (lookup_singleton_eq _ _) E)
    as (st & t & _ & H1 & H2).
  exists c', r', st, t. split; [reflexivity|]. split; [exact H1|exact H2].
Defined.

Lemma save_without_content_witness :
  let r0 := {| cache.CreatedAt := 1500000000; cache.StatusCode := 200;
               cache.TTL := 60; cache.Header := ∅; cache.Body := [];
               cache.GzipBody := []; cache.BrBody := [];
               cache.CompressLevel := 0; cache.CompressMinLength := 0 |} in
  cache.db (cache.Client_HitForPass "k" middleware.HitForPassTTL (cache.Init ∅))
    = ∅.
Proof.
  intros r0.
  exact (proj2 (save_without_content (codecs := Ref.stored_gzip)
                  (json := Ref.empty_object_json) (kv := Ref.accepting_store)
                  0 (cache.Init ∅) "k" r0 ltac:(discriminate)
                  eq_refl eq_refl eq_refl)).
Defined.

(** A two-byte body with the minimum length set to 1, stored and then
    served. *)
Lemma save_then_GetBody_witness :
  let r0 := {| cache.CreatedAt := 1500000000; cache.StatusCode := 200;
               cache.TTL := 60; cache.Header := ∅; cache.Body := [x68; x69];
               cache.GzipBody := []; cache.BrBody := [];
               cache.CompressLevel := 0; cache.CompressMinLength := 1 |} in
  exists c' r',
    middleware.save (codecs := Ref.stored_gzip) (json := Ref.empty_object_json)
      (kv := Ref.accepting_store) 1500000001 (cache.Init ∅) "k" r0 true
    = Some (c', r')
    /\ cache.Body r' = []
    /\ cache.GetBody (codecs := Ref.stored_gzip) r' "gzip"
       = Some ([x1f; x8b; x68; x69], "gzip"%string).
Proof.
  intros r0.
  destruct (middleware.save (codecs := Ref.stored_gzip)
              (json := Ref.empty_object_json) (kv := Ref.accepting_store)
              1500000001 (cache.Init ∅) "k" r0 true) as [[c' r']|] eqn:E;
    [|vm_compute in E; discriminate E].
  exists c', r'. split; [reflexivity|].
  destruct (save_then_GetBody (codecs := Ref.stored_gzip)
              (json := Ref.empty_object_json) (kv := Ref.accepting_store)
              1500000001 (cache.Init ∅) "k" r0 c' r'
              [x1f; x8b; x68; x69] [xce; x68; x69] None)
    as (Hb & _ & _ & _ & Hgz); try reflexivity; try discriminate; try exact E.
  split; [exact Hb|]. apply Hgz; reflexivity.
Defined.

Lemma save_keeps_content_witness :
  let r0 := {| cache.CreatedAt := 1500000000; cache.StatusCode := 200;
               cache.TTL := 60; cache.Header := ∅; cache.Body := [x68; x69];
               cache.GzipBody := []; cache.BrBody := [];
               cache.CompressLevel := 0; cache.CompressMinLength := 1 |} in
  exists c' r',
    middleware.save (codecs := Ref.stored_gzip) (json := Ref.empty_object_json)
      (kv := Ref.accepting_store) 1500000001 (cache.Init ∅) "k" r0 true
    = Some (c', r')
    /\ StoreInv.hasContent r' /\ cache.TTL r' = 60.
Proof.
  intros r0.
  destruct (middleware.save (codecs := Ref.stored_gzip)
              (json := Ref.empty_object_json) (kv := Ref.accepting_store)
              1500000001 (cache.Init ∅) "k" r0 true) as [[c' r']|] eqn:E;
    [|vm_compute in E; discriminate E].
  exists c', r'. split; [reflexivity|].
  destruct (save_keeps_content (codecs := Ref.stored_gzip)
              (json := Ref.empty_object_json) (kv := Ref.accepting_store)
              1500000001 (cache.Init ∅) "k" r0 true c' r' E)
    as ((_ & _ & Ht & _) & Hc & _).
  split; [|exact Ht]. apply Hc. left. discriminate.
Defined.

(** Level 10 and a body to compress. *)
Lemma save_panics_only_above_gzip_levels_witness :
  let r0 := {| cache.CreatedAt := 1500000000; cache.StatusCode := 200;
               cache.TTL := 60; cache.Header := ∅; cache.Body := [x68; x69];
               cache.GzipBody := []; cache.BrBody := [];
               cache.CompressLevel := 10; cache.CompressMinLength := 1 |} in
  middleware.save (codecs := Ref.stored_gzip) (json := Ref.empty_object_json)
    (kv := Ref.accepting_store) 1500000001 (cache.Init ∅) "k" r0 true = None.
Proof.
  intros r0.
  apply (proj2 (save_panics_only_above_gzip_levels (codecs := Ref.stored_gzip)
                  (json := Ref.empty_object_json) (kv := Ref.accepting_store)
                  1500000001 (cache.Init ∅) "k" r0 true)).
  - simpl. lia.
  - reflexivity.
  - discriminate.
  - reflexivity.
  - unfold len; simpl; lia.
  - unfold len; simpl; lia.
Defined.

(** ** The director's configuration *)

Section director_config.
Import director.

Lemma ContainsString_spec s v : ContainsString s v = true <-> v ∈ s.
Proof.
  induction s as [|x s IH]; simpl.
  - split; [discriminate|]. intros H. by apply elem_of_nil in H.
  - rewrite orb_true_iff, IH, elem_of_cons.
    destruct (String.eqb_spec x v) as [->|Hne].
    + split; intros _; by left.
    + split; (intros [H|H]; [congruence|by right]).
Qed.

Lemma IndexOfString_absent s v : IndexOfString s v = -1 <-> v ∉ s.
Proof.
  induction s as [|x s IH]; simpl.
  - split; [intros _ H; by apply elem_of_nil in H|done].
  - rewrite not_elem_of_cons. destruct (String.eqb_spec x v) as [->|Hne].
    + split; [discriminate|]. intros [H _]. contradiction.
    + destruct (Z.eqb_spec (IndexOfString s v) (-1)) as [He|He].
      * split; [|done]. intros _. split; [congruence|]. by apply IH.
      * split.
        -- intros H. assert (IndexOfString s v = -2) by lia.
           assert (Hge : -1 <= IndexOfString s v).
           { clear. induction s as [|y s IH]; simpl; [lia|].
             destruct (String.eqb y v); [lia|].
             destruct (IndexOfString s v =? -1); lia. }
           lia.
        -- intros [_ H]. apply IH in H. contradiction.
Qed.

Lemma IndexOfString_ge s v : -1 <= IndexOfString s v.
Proof.
  induction s as [|y s IH]; simpl; [lia|].
  destruct (String.eqb y v); [lia|].
  destruct (IndexOfString s v =? -1); lia.
Qed.

(** Cutting at the index of [v] removes its first occurrence. *)
Lemma cutAt_IndexOfString s v :
  v ∈ s ->
  exists pre post,
    s = pre ++ (v :: post) /\ (v ∉ pre)
    /\ cutAt s (IndexOfString s v) = pre ++ post.
Proof.
  induction s as [|x s IH]; intros Hin; [by apply elem_of_nil in Hin|].
  simpl. destruct (String.eqb_spec x v) as [->|Hne].
  - exists [], s. split; [reflexivity|]. split; [apply not_elem_of_nil|].
    unfold cutAt. simpl. by rewrite drop_0.
  - apply elem_of_cons in Hin as [->|Hin]; [contradiction|].
    destruct (IH Hin) as (pre & post & Hs & Hpre & Hcut).
    assert (Hi : IndexOfString s v <> -1).
    { intros H. apply IndexOfString_absent in H. contradiction. }
    pose proof (IndexOfString_ge s v) as Hge.
    destruct (Z.eqb_spec (IndexOfString s v) (-1)) as [|_]; [contradiction|].
    exists (x :: pre), post. split; [by rewrite Hs at 1|].
    split; [apply not_elem_of_cons; split; [congruence|done]|].
    unfold cutAt in *.
    replace (Z.to_nat (IndexOfString s v + 1))
      with (S (Z.to_nat (IndexOfString s v))) by lia.
    replace (Z.to_nat (IndexOfString s v + 1 + 1))
      with (S (Z.to_nat (IndexOfString s v + 1))) by lia.
    simpl. by rewrite Hcut.
Qed.

Lemma RefreshPriority_fresh d : priorityFresh (RefreshPriority d).
Proof.
  unfold priorityFresh, RefreshPriority; simpl.
  destruct (Hosts d) as [|h hs], (Prefixs d) as [|p ps]; reflexivity.
Qed.

Lemma priorityFresh_apply ch d : priorityFresh d -> priorityFresh (apply ch d).
Proof.
  intros Hd. destruct ch; simpl;
    unfold AddHost, RemoveHost, AddPrefix, RemovePrefix, AddBackend,
      RemoveBackend, AddAvailableBackend, RemoveAvailableBackend;
    match goal with
    | |- context [if ?b then _ else _] => destruct b
    end; try exact Hd; try apply RefreshPriority_fresh.
Qed.

(** The stored priority is always the one the host and prefix lists
    call for, whatever changes of configuration follow Prepare: 8, less
    4 with a host configured, less 2 with a prefix configured.  So a
    director with a host sorts before every director without one, and
    the director of priority 8 matches every request. *)
Theorem Priority_tracks_configuration d0 chs :
  let d := foldl (fun d ch => apply ch d) (RefreshPriority d0) chs in
  priorityFresh d
  /\ (forall d', priorityFresh d' -> Hosts d <> [] -> Hosts d' = [] ->
        Less d d' = true)
  /\ (forall (syntax : pike.RegexpSyntax) host uri,
        Priority d = 8 ->
        pike.Match (matcher d) host uri = Some true).
Proof.
  intros d.
  assert (Hd : priorityFresh d).
  { subst d. generalize (RefreshPriority_fresh d0).
    generalize (RefreshPriority d0). induction chs as [|ch chs IH]; simpl.
    - done.
    - intros d Hd. apply IH. by apply priorityFresh_apply. }
  split; [exact Hd|]. split.
  - intros d' Hd' Hh Hh'. unfold Less, priorityFresh in *.
    rewrite Hd, Hd'. apply Z.ltb_lt.
    repeat case_bool_decide; try lia; try contradiction; congruence.
  - intros syntax host uri Hp. unfold priorityFresh in Hd. rewrite Hp in Hd.
    unfold pike.Match; simpl.
    destruct (Hosts d) as [|h hs], (Prefixs d) as [|p ps]; try reflexivity;
      simpl in Hd; repeat case_bool_decide; try done; lia.
Qed.

(** Hosts behave as a set under AddHost and RemoveHost when the list
    has no duplicate: adding puts the host in (once), removing takes it
    out, and neither touches another host.  RemoveHost takes out one
    occurrence only: of a host configured twice, one stays. *)
Theorem Hosts_add_remove h d :
  (h ∈ Hosts (AddHost h d)
   /\ (forall x, x ∈ Hosts (AddHost h d) <-> x = h \/ x ∈ Hosts d)
   /\ (NoDup (Hosts d) -> NoDup (Hosts (AddHost h d))))
  /\ (NoDup (Hosts d) ->
      (h ∉ Hosts (RemoveHost h d))
      /\ NoDup (Hosts (RemoveHost h d))
      /\ (forall x, x ∈ Hosts (RemoveHost h d) <-> x <> h /\ x ∈ Hosts d))
  /\ (forall pre post, Hosts d = pre ++ (h :: post) -> h ∉ pre ->
        Hosts (RemoveHost h d) = pre ++ post).
Proof.
  split; [|split].
  - unfold AddHost. destruct (ContainsString (Hosts d) h) eqn:E; simpl.
    + apply ContainsString_spec in E. split; [exact E|]. split; [|done].
      intros x. split; [by right|]. intros [->|Hx]; done.
    + assert (Hn : h ∉ Hosts d).
      { intros Hin. apply ContainsString_spec in Hin. congruence. }
      split; [|split].
      * apply elem_of_app. right. by apply list_elem_of_singleton.
      * intros x. rewrite elem_of_app, list_elem_of_singleton. tauto.
      * intros Hnd. apply NoDup_app. split; [done|].
        split; [|apply NoDup_singleton].
        intros x Hx Hx'. apply list_elem_of_singleton in Hx'. by subst.
  - intros Hnd. unfold RemoveHost.
    destruct (Z.eqb_spec (IndexOfString (Hosts d) h) (-1)) as [He|He]; simpl.
    + apply IndexOfString_absent in He. split; [exact He|]. split; [exact Hnd|].
      intros x. split; [|by intros [_ Hx]].
      intros Hx. split; [|exact Hx]. intros ->. contradiction.
    + assert (Hin : h ∈ Hosts d).
      { destruct (decide (h ∈ Hosts d)) as [|Hn]; [done|].
        apply IndexOfString_absent in Hn. contradiction. }
      destruct (cutAt_IndexOfString _ _ Hin) as (pre & post & Hs & Hpre & ->).
      rewrite Hs in Hnd. apply NoDup_app in Hnd as (Hnp & Hdisj & Hnpost).
      apply NoDup_cons in Hnpost as [Hhp Hnpost].
      split; [|split].
      * rewrite elem_of_app. intros [Hx|Hx]; contradiction.
      * apply NoDup_app. split; [done|]. split; [|done].
        intros x Hx Hx'. apply (Hdisj x Hx). by right.
      * intros x. rewrite Hs, !elem_of_app, elem_of_cons. split.
        -- intros [Hx|Hx]; (split; [intros ->; contradiction|tauto]).
        -- intros [Hne [Hx|[Hx|Hx]]]; [by left|contradiction|by right].
  - intros pre post Hs Hpre. unfold RemoveHost.
    assert (Hin : h ∈ Hosts d).
    { rewrite Hs. apply elem_of_app. right. by left. }
    destruct (Z.eqb_spec (IndexOfString (Hosts d) h) (-1)) as [He|He]; simpl.
    + apply IndexOfString_absent in He. contradiction.
    + destruct (cutAt_IndexOfString _ _ Hin) as (pre' & post' & Hs' & Hpre' & ->).
      rewrite Hs in Hs'.
      assert (Hpp : pre = pre' /\ post = post').
      { clear -Hs' Hpre Hpre'. revert pre' Hs' Hpre'.
        induction pre as [|a pre IH]; intros [|b pre'] Hs' Hpre'; simpl in *.
        - by injection Hs' as ->.
        - injection Hs' as -> _. exfalso. apply Hpre'. by left.
        - injection Hs' as -> _. exfalso. apply Hpre. by left.
        - injection Hs' as -> Hs'.
          apply not_elem_of_cons in Hpre as [_ Hpre].
          apply not_elem_of_cons in Hpre' as [_ Hpre'].
          destruct (IH Hpre pre' Hs' Hpre') as [-> ->]. done. }
      by destruct Hpp as [-> ->].
Qed.

End director_config.

Lemma Priority_tracks_configuration_witness :
  let d0 := {| director.Name := "api"; director.Policy := "";
               director.Backends := []; director.AvailableBackends := [];
               director.Hosts := []; director.Prefixs := [];
               director.Priority := 0; director.roubin := 0 |} in
  let d := foldl (fun d ch => director.apply ch d)
             (director.RefreshPriority d0)
             [director.ChAddHost "a.com"; director.ChAddPrefix "/api";
              director.ChRemoveHost "a.com"] in
  director.Priority d = 6
  /\ director.priorityFresh d.
Proof.
  intros d0 d. split; [reflexivity|].
  exact (proj1 (Priority_tracks_configuration d0
                  [director.ChAddHost "a.com"; director.ChAddPrefix "/api";
                   director.ChRemoveHost "a.com"])).
Defined.

(** A host configured twice: one RemoveHost leaves it configured. *)
Lemma Hosts_add_remove_witness :
  let d := {| director.Name := "api"; director.Policy := "";
              director.Backends := []; director.AvailableBackends := [];
              director.Hosts := ["a.com"; "b.com"; "a.com"];
              director.Prefixs := []; director.Priority := 4;
              director.roubin := 0 |} in
  director.Hosts (director.RemoveHost "a.com" d) = ["b.com"; "a.com"].
Proof.
  intros d.
  destruct (Hosts_add_remove "a.com" d) as (_ & _ & H).
  apply (H [] ["b.com"; "a.com"]); [reflexivity|apply not_elem_of_nil].
Defined.

(** ** Backend selection *)

Section selection.
Import director.

Lemma nth_in_pool (pool : list string) (i : Z) :
  0 <= i < Z.of_nat (length pool) ->
  nth (Z.to_nat i) pool ""%string ∈ pool.
Proof.
  intros Hi. apply list_elem_of_In, nth_In. lia.
Qed.

Lemma pool_count_bounds (pool : list string) :
  U.uint32 (Z.of_nat (length pool)) <> 0 ->
  0 < U.uint32 (Z.of_nat (length pool)) <= Z.of_nat (length pool).
Proof.
  unfold U.uint32. intros Hne.
  pose proof (Z.mod_pos_bound (Z.of_nat (length pool)) (2 ^ 32) ltac:(lia)).
  split; [lia|]. apply Z.mod_le; lia.
Qed.

(** Select never indexes outside the pool.  When the policy has a
    selector and the count of available backends is not zero, the index
    the selector computes, whatever it is, is reduced modulo that count:
    the reduced index is a position of the pool, Select returns the
    backend at that position, and the director is as the selector left
    it.  When the policy has no selector, or no backend is available,
    Select returns the empty string and the director (its round-robin
    counter included) is as it was. *)
Theorem Select_from_pool selectFuncMap c rnd d :
  let policy :=
    if (String.length (Policy d) =? 0)%nat then roundRobin else Policy d in
  let count := U.uint32 (Z.of_nat (length (AvailableBackends d))) in
  (forall fn index d',
     selectFuncMap !! policy = Some fn ->
     count <> 0 ->
     fn c d rnd = (index, d') ->
     0 <= index mod count < Z.of_nat (length (AvailableBackends d))
     /\ AvailableBackends d !! Z.to_nat (index mod count)
        = Some (Select selectFuncMap c rnd d).1
     /\ (Select selectFuncMap c rnd d).1 ∈ AvailableBackends d
     /\ (Select selectFuncMap c rnd d).2 = d')
  /\ (count = 0 -> Select selectFuncMap c rnd d = (""%string, d))
  /\ (AvailableBackends d = [] ->
      Select selectFuncMap c rnd d = (""%string, d))
  /\ (selectFuncMap !! policy = None ->
      Select selectFuncMap c rnd d = (""%string, d)).
Proof.
  intros policy count.
  assert (Hzero : count = 0 -> Select selectFuncMap c rnd d = (""%string, d)).
  { intros Hz. unfold Select. fold policy. fold count. rewrite Hz.
    by destruct (selectFuncMap !! policy). }
  repeat apply conj.
  - intros fn index d' Hreg Hnz Hfn.
    pose proof (pool_count_bounds _ Hnz) as Hb. fold count in Hb.
    pose proof (Z.mod_pos_bound index count ltac:(lia)) as Hm.
    assert (Hsel : Select selectFuncMap c rnd d
                   = (nth (Z.to_nat (index mod count)) (AvailableBackends d)
                        ""%string, d')).
    { unfold Select. fold policy. fold count.
      unfold SelectFunc in *. rewrite Hreg.
      destruct (Z.eqb_spec count 0) as [Hz|_]; [done|]. by rewrite Hfn. }
    rewrite Hsel. cbn [fst snd].
    split; [lia|]. split; [|split; [apply nth_in_pool; lia|done]].
    destruct (nth_lookup_or_length (AvailableBackends d)
                (Z.to_nat (index mod count)) ""%string) as [Hl|Hl]; [|lia].
    rewrite Hl. by destruct (AvailableBackends d !! _).
  - exact Hzero.
  - intros Hnil. apply Hzero. subst count. by rewrite Hnil.
  - intros Hnone. unfold Select. fold policy. unfold SelectFunc in *.
    by rewrite Hnone.
Qed.

Lemma init_roundRobin :
  init !! roundRobin
  = Some (fun (c : Context) (d : Director) (_ : Z) =>
            let v := U.add32 (roubin d) 1 in (v, set_roubin v d)).
Proof.
  unfold init, AddSelect.
  rewrite lookup_insert_ne by discriminate.
  rewrite lookup_insert_ne by discriminate.
  apply lookup_insert_eq.
Qed.

Lemma Select_roundRobin selectFuncMap c rnd d :
  selectFuncMap !! roundRobin = init !! roundRobin ->
  Policy d = ""%string \/ Policy d = roundRobin ->
  0 < Z.of_nat (length (AvailableBackends d)) < 2 ^ 32 ->
  0 <= roubin d -> roubin d + 1 < 2 ^ 32 ->
  Select selectFuncMap c rnd d
  = (nth (Z.to_nat ((roubin d + 1) mod Z.of_nat (length (AvailableBackends d))))
       (AvailableBackends d) ""%string,
     set_roubin (roubin d + 1) d).
Proof.
  intros Hreg Hpol Hlen Hr0 Hr1. unfold Select. cbv zeta.
  pose proof init_roundRobin as Hinit. unfold SelectFunc in *.
  assert (Hp : (if (String.length (Policy d) =? 0)%nat then roundRobin
                else Policy d) = roundRobin).
  { destruct Hpol as [->| ->]; reflexivity. }
  rewrite Hp, Hreg, Hinit.
  assert (Hc : U.uint32 (Z.of_nat (length (AvailableBackends d)))
               = Z.of_nat (length (AvailableBackends d))).
  { unfold U.uint32. apply Z.mod_small. lia. }
  rewrite Hc. destruct (Z.eqb_spec (Z.of_nat (length (AvailableBackends d))) 0);
    [lia|].
  simpl. unfold U.add32, U.uint32. rewrite (Z.mod_small (roubin d + 1)) by lia.
  reflexivity.
Qed.

Lemma SelectMany_roundRobin selectFuncMap c rnds d :
  selectFuncMap !! roundRobin = init !! roundRobin ->
  Policy d = ""%string \/ Policy d = roundRobin ->
  0 < Z.of_nat (length (AvailableBackends d)) < 2 ^ 32 ->
  0 <= roubin d -> roubin d + Z.of_nat (length rnds) < 2 ^ 32 ->
  (SelectMany selectFuncMap c rnds d).1
  = (fun i : nat =>
       nth (Z.to_nat ((roubin d + 1 + Z.of_nat i)
                      mod Z.of_nat (length (AvailableBackends d))))
         (AvailableBackends d) ""%string) <$> seq 0 (length rnds).
Proof.
  intros Hreg. revert d.
  induction rnds as [|rnd rnds IH]; intros d Hpol Hlen Hr0 Hr1; [reflexivity|].
  simpl in Hr1. cbn [SelectMany].
  rewrite (Select_roundRobin _ _ _ _ Hreg Hpol Hlen Hr0) by lia.
  specialize (IH (set_roubin (roubin d + 1) d)). simpl in IH.
  destruct (SelectMany selectFuncMap c rnds (set_roubin (roubin d + 1) d))
    as [bs d2] eqn:E.
  simpl in *. rewrite IH by (try done; lia).
  cbn [length seq fmap list_fmap]. f_equal.
  - by rewrite Z.add_0_r.
  - rewrite <- seq_shift, <- list_fmap_compose. apply list_fmap_ext.
    intros i x _. simpl. do 3 f_equal. lia.
Qed.

(** Round robin is fair: as many selections in a row as there are
    available backends return each backend exactly once, in the order
    of the pool starting after the position of the counter (while the
    32-bit counter does not wrap). *)
Theorem roundRobin_visits_each_once selectFuncMap c rnds d :
  selectFuncMap !! roundRobin = init !! roundRobin ->
  Policy d = ""%string \/ Policy d = roundRobin ->
  0 < Z.of_nat (length (AvailableBackends d)) < 2 ^ 32 ->
  length rnds = length (AvailableBackends d) ->
  0 <= roubin d -> roubin d + Z.of_nat (length rnds) < 2 ^ 32 ->
  (SelectMany selectFuncMap c rnds d).1
    = rotate (Z.to_nat ((roubin d + 1)
                        mod Z.of_nat (length (AvailableBackends d))))
        (AvailableBackends d)
  /\ (SelectMany selectFuncMap c rnds d).1 ≡ₚ AvailableBackends d.
Proof.
  intros Hreg Hpol Hlen Hn Hr0 Hr1.
  set (pool := AvailableBackends d) in *.
  set (n := Z.of_nat (length pool)) in *.
  assert (Heq : (SelectMany selectFuncMap c rnds d).1
                = rotate (Z.to_nat ((roubin d + 1) mod n)) pool).
  { rewrite (SelectMany_roundRobin _ _ _ _ Hreg Hpol Hlen Hr0 Hr1).
    fold pool. fold n. rewrite Hn.
    apply list_eq. intros i.
    destruct (decide (i < length pool)%nat) as [Hi|Hi].
    - rewrite lookup_rotate_r by done.
      rewrite list_lookup_fmap, lookup_seq_lt by done. simpl.
      unfold rotate_nat_add.
      pose proof (Z.mod_pos_bound (roubin d + 1) n ltac:(lia)).
      rewrite Z2Nat.id by lia. fold n.
      rewrite Z.add_mod_idemp_l by lia.
      pose proof (Z.mod_pos_bound (roubin d + 1 + Z.of_nat i) n ltac:(lia)).
      destruct (nth_lookup_or_length pool
                  (Z.to_nat ((roubin d + 1 + Z.of_nat i) mod n)) ""%string)
        as [Hl|Hl]; [by rewrite Hl|lia].
    - rewrite !lookup_ge_None_2; [done| |].
      + rewrite length_rotate. lia.
      + rewrite length_fmap, length_seq. lia. }
  split; [exact Heq|].
  rewrite Heq. unfold rotate.
  rewrite Permutation_app_comm. by rewrite take_drop.
Qed.

Ltac in_list := apply list_elem_of_In; simpl; tauto.

Lemma Select_registered selectFuncMap c rnd d fn :
  selectFuncMap !! (if (String.length (Policy d) =? 0)%nat
                    then roundRobin else Policy d) = Some fn ->
  0 < Z.of_nat (length (AvailableBackends d)) < 2 ^ 32 ->
  (Select selectFuncMap c rnd d).1 ∈ AvailableBackends d.
Proof.
  intros Hreg Hlen. unfold Select. cbv zeta. unfold SelectFunc in *.
  rewrite Hreg.
  assert (Hc : U.uint32 (Z.of_nat (length (AvailableBackends d)))
               = Z.of_nat (length (AvailableBackends d))).
  { unfold U.uint32. apply Z.mod_small. lia. }
  rewrite Hc.
  destruct (Z.eqb_spec (Z.of_nat (length (AvailableBackends d))) 0); [lia|].
  destruct (fn c d rnd) as [index d']. simpl. apply nth_in_pool.
  apply Z.mod_pos_bound. lia.
Qed.

Lemma init_builtin name :
  name ∈ [first; random; roundRobin; ipHash; uriHash] ->
  is_Some (init !! name).
Proof.
  intros Hin. unfold init, AddSelect, SelectFunc.
  repeat (apply elem_of_cons in Hin as [->|Hin]);
    [..|by apply elem_of_nil in Hin];
    rewrite ?lookup_insert_ne by discriminate;
    rewrite lookup_insert_eq; eauto.
Qed.

Lemma init_other name :
  name ∉ [first; random; roundRobin; ipHash; uriHash] -> init !! name = None.
Proof.
  intros Hn. unfold init, AddSelect, SelectFunc.
  repeat (apply not_elem_of_cons in Hn as [? Hn]).
  rewrite !lookup_insert_ne by done. apply lookup_empty.
Qed.

Lemma length_zero_iff (s : string) : (String.length s =? 0)%nat = true <-> s = ""%string.
Proof. destruct s; simpl; split; intros H; try done. Qed.

(** A policy AddPolicySelectFunc accepts always gets a backend out of a
    pool that is not empty, and one it rejects (it is rejected exactly
    when it is not empty, not one of the five built-in names and starts
    with neither header: nor cookie:) gets none: Select then returns the
    empty string. *)
Theorem AddPolicySelectFunc_then_Select policy c rnd d :
  Policy d = policy ->
  0 < Z.of_nat (length (AvailableBackends d)) < 2 ^ 32 ->
  let reg := (AddPolicySelectFunc policy init).1 in
  let err := (AddPolicySelectFunc policy init).2 in
  (err = None -> (Select reg c rnd d).1 ∈ AvailableBackends d)
  /\ (err <> None -> err = Some errNotSupportPolicy /\ reg = init
                     /\ Select reg c rnd d = (""%string, d))
  /\ (err <> None <->
        policy <> ""%string
        /\ (policy ∉ [first; random; roundRobin; ipHash; uriHash])
        /\ String.prefix headerHashPrefix policy = false
        /\ String.prefix cookieHashPrefix policy = false).
Proof.
  intros Hp Hlen reg err. subst reg err. unfold AddPolicySelectFunc.
  assert (Hbuiltin : forall name, Policy d = name ->
            name ∈ [first; random; roundRobin; ipHash; uriHash] ->
            (Select init c rnd d).1 ∈ AvailableBackends d).
  { intros name Hn Hin. destruct (init_builtin name Hin) as [fn Hfn].
    apply (Select_registered _ _ _ _ fn); [|done]. rewrite Hn.
    destruct (String.length name =? 0)%nat eqn:E; [|done].
    apply length_zero_iff in E. rewrite E in Hin.
    repeat (apply elem_of_cons in Hin as [Hin|Hin]; [discriminate Hin|]).
    by apply elem_of_nil in Hin. }
  destruct (String.length policy =? 0)%nat eqn:El.
  { apply length_zero_iff in El. rewrite El in *. simpl.
    split; [|split; [done|split; [done|by intros [? _]]]].
    intros _. destruct (init_builtin roundRobin) as [fn Hfn];
      [in_list|].
    apply (Select_registered _ _ _ _ fn); [|done]. by rewrite Hp. }
  assert (Hne : policy <> ""%string).
  { intros ->. discriminate El. }
  destruct (String.eqb_spec policy first) as [->|H1].
  { simpl. split; [intros _; apply (Hbuiltin first); [done|in_list]|].
    split; [done|]. split; [done|]. intros (_ & Hn & _). exfalso. apply Hn. in_list. }
  destruct (String.eqb_spec policy random) as [->|H2].
  { simpl. split; [intros _; apply (Hbuiltin random); [done|in_list]|].
    split; [done|]. split; [done|]. intros (_ & Hn & _). exfalso. apply Hn. in_list. }
  destruct (String.eqb_spec policy roundRobin) as [->|H3].
  { simpl. split; [intros _; apply (Hbuiltin roundRobin); [done|in_list]|].
    split; [done|]. split; [done|]. intros (_ & Hn & _). exfalso. apply Hn. in_list. }
  destruct (String.eqb_spec policy ipHash) as [->|H4].
  { simpl. split; [intros _; apply (Hbuiltin ipHash); [done|in_list]|].
    split; [done|]. split; [done|]. intros (_ & Hn & _). exfalso. apply Hn. in_list. }
  destruct (String.eqb_spec policy uriHash) as [->|H5].
  { simpl. split; [intros _; apply (Hbuiltin uriHash); [done|in_list]|].
    split; [done|]. split; [done|]. intros (_ & Hn & _). exfalso. apply Hn. in_list. }
  assert (Hnot : policy ∉ [first; random; roundRobin; ipHash; uriHash]).
  { intros Hin. repeat (apply elem_of_cons in Hin as [Hin|Hin]; [done|]).
    by apply elem_of_nil in Hin. }
  destruct (String.prefix headerHashPrefix policy) eqn:Eh.
  { simpl. split; [|split; [done|split; [done|by intros (_ & _ & ? & _)]]].
    intros _. eapply Select_registered; [|done].
    rewrite Hp, El. unfold AddSelectByHeader, AddSelect, SelectFunc.
    apply lookup_insert_eq. }
  destruct (String.prefix cookieHashPrefix policy) eqn:Ec.
  { simpl. split; [|split; [done|split; [done|by intros (_ & _ & _ & ?)]]].
    intros _. eapply Select_registered; [|done].
    rewrite Hp, El. unfold AddSelectByCookie, AddSelect, SelectFunc.
    apply lookup_insert_eq. }
  simpl. split; [done|]. split; [|done].
  intros _. split; [done|]. split; [done|].
  unfold Select. cbv zeta. rewrite Hp, El.
  pose proof (init_other _ Hnot) as Hio. unfold SelectFunc in *.
  by rewrite Hio.
Qed.

End selection.

(** Three backends and a counter at 4: the round-robin selector counts
    to 5, and Select returns the backend at position 5 mod 3. *)
Lemma Select_from_pool_witness :
  let d := {| director.Name := "api"; director.Policy := "";
              director.Backends := ["x"; "y"; "z"];
              director.AvailableBackends := ["x"; "y"; "z"];
              director.Hosts := []; director.Prefixs := [];
              director.Priority := 8; director.roubin := 4 |} in
  let c := {| director.Header_Get := fun _ => ""%string;
              director.Cookie := fun _ => None;
              director.RealIP := "10.0.0.1";
              director.RequestURI := "/" |} in
  0 <= 5 mod 3 < 3
  /\ ["x"; "y"; "z"]%string !! 2%nat
     = Some (director.Select director.init c 0 d).1
  /\ (director.Select director.init c 0 d).1 ∈ ["x"; "y"; "z"]%string
  /\ (director.Select director.init c 0 d).2 = director.set_roubin 5 d.
Proof.
  intros d c.
  destruct (Select_from_pool director.init c 0 d) as [H _].
  apply (H _ 5 (director.set_roubin 5 d) init_roundRobin);
    [discriminate|reflexivity].
Defined.

(** The spec's scenario: backends x, y, z and a counter at 0 give y, z,
    x. *)
Lemma roundRobin_visits_each_once_witness :
  let d := {| director.Name := "api"; director.Policy := "";
              director.Backends := ["x"; "y"; "z"];
              director.AvailableBackends := ["x"; "y"; "z"];
              director.Hosts := []; director.Prefixs := [];
              director.Priority := 8; director.roubin := 0 |} in
  let c := {| director.Header_Get := fun _ => ""%string;
              director.Cookie := fun _ => None;
              director.RealIP := "10.0.0.1";
              director.RequestURI := "/" |} in
  (director.SelectMany director.init c [0; 0; 0] d).1 = ["y"; "z"; "x"]%string.
Proof.
  intros d c.
  destruct (roundRobin_visits_each_once director.init c [0; 0; 0] d)
    as [H _]; [reflexivity|by left|simpl; lia|reflexivity|simpl; lia
              |simpl; lia|].
  exact H.
Defined.

Lemma AddPolicySelectFunc_then_Select_witness :
  let d := {| director.Name := "api"; director.Policy := "header:X-Token";
              director.Backends := ["x"; "y"];
              director.AvailableBackends := ["x"; "y"];
              director.Hosts := []; director.Prefixs := [];
              director.Priority := 8; director.roubin := 0 |} in
  let c := {| director.Header_Get := fun _ => "ABCD"%string;
              director.Cookie := fun _ => None;
              director.RealIP := "10.0.0.1";
              director.RequestURI := "/" |} in
  (director.Select
     (director.AddPolicySelectFunc "header:X-Token" director.init).1 c 0 d).1
  ∈ ["x"; "y"]%string.
Proof.
  intros d c.
  destruct (AddPolicySelectFunc_then_Select "header:X-Token" c 0 d)
    as (H & _); [reflexivity|simpl; lia|].
  exact (H eq_refl).
Defined.

(** ** util.cut *)

Section cut_facts.
Import humanize.

Lemma cut_rev_split r :
  exists z, r = z ++ cut_rev r /\ Forall zeroOrDot z.
Proof.
  induction r as [|ch r IH]; simpl.
  - exists []. by split.
  - destruct (Ascii.eqb_spec ch (Ascii.Ascii false false false false true true false false))
      as [->|H0]; simpl.
    + destruct IH as (z & Hz & Hf).
      exists (Ascii.Ascii false false false false true true false false :: z).
      split; [by rewrite Hz at 1|]. constructor; [by left|done].
    + destruct (Ascii.eqb_spec ch (Ascii.Ascii false true true true false true false false))
        as [->|H1].
      * destruct IH as (z & Hz & Hf).
        exists (Ascii.Ascii false true true true false true false false :: z).
        split; [by rewrite Hz at 1|]. constructor; [by right|done].
      * exists []. by split.
Qed.

Lemma cut_rev_head r ch rest : cut_rev r = ch :: rest -> ~ zeroOrDot ch.
Proof.
  induction r as [|c r IH]; simpl; [discriminate|].
  destruct (Ascii.eqb_spec c (Ascii.Ascii false false false false true true false false))
    as [->|H0]; simpl; [exact IH|].
  destruct (Ascii.eqb_spec c (Ascii.Ascii false true true true false true false false))
    as [->|H1]; [exact IH|].
  intros [= -> _] [Hz|Hz]; contradiction.
Qed.

Lemma cut_rev_strip z r : Forall zeroOrDot z -> cut_rev (z ++ r) = cut_rev r.
Proof.
  induction 1 as [|c z [->| ->] _ IH]; simpl; [reflexivity|exact IH|exact IH].
Qed.

Lemma list_ascii_of_append s t :
  String.list_ascii_of_string (String.append s t)
  = String.list_ascii_of_string s ++ String.list_ascii_of_string t.
Proof.
  induction s as [|a s IH]; [reflexivity|].
  change (a :: String.list_ascii_of_string (String.append s t)
          = a :: (String.list_ascii_of_string s ++ String.list_ascii_of_string t)).
  by rewrite IH.
Qed.

Lemma string_of_list_app l1 l2 :
  String.string_of_list_ascii (l1 ++ l2)
  = String.append (String.string_of_list_ascii l1)
      (String.string_of_list_ascii l2).
Proof.
  induction l1 as [|a l1 IH]; [reflexivity|].
  change (String a (String.string_of_list_ascii (l1 ++ l2))
          = String a (String.append (String.string_of_list_ascii l1)
                        (String.string_of_list_ascii l2))).
  by rewrite IH.
Qed.

(** cut strips every trailing "0" and "." and nothing else: what it
    returns is the string without its longest suffix of such bytes. It
    does not tell the zeros of a fraction from those of an integer, so
    cut("100.00") is "1". *)
Theorem cut_strips_zeros_and_dots s :
  (exists t, s = String.append (cut s) t
             /\ Forall zeroOrDot (String.list_ascii_of_string t))
  /\ (forall pre ch,
        cut s = String.append pre (String ch EmptyString) -> ~ zeroOrDot ch)
  /\ (forall t, Forall zeroOrDot (String.list_ascii_of_string t) ->
        cut (String.append s t) = cut s).
Proof.
  unfold cut. set (l := String.list_ascii_of_string s).
  split; [|split].
  - destruct (cut_rev_split (rev l)) as (z & Hz & Hf).
    exists (String.string_of_list_ascii (rev z)). split.
    + rewrite <- string_of_list_app, <- rev_app_distr, <- Hz, rev_involutive.
      subst l. by rewrite String.string_of_list_ascii_of_string.
    + rewrite String.list_ascii_of_string_of_list_ascii.
      by apply Forall_rev.
  - intros pre ch Heq.
    apply (f_equal String.list_ascii_of_string) in Heq.
    rewrite String.list_ascii_of_string_of_list_ascii, list_ascii_of_append
      in Heq.
    apply (f_equal (@rev _)) in Heq.
    rewrite rev_involutive, rev_app_distr in Heq. simpl in Heq.
    by apply cut_rev_head in Heq.
  - intros t Ht. do 2 f_equal.
    rewrite list_ascii_of_append, rev_app_distr. fold l.
    apply cut_rev_strip. by apply Forall_rev.
Qed.

End cut_facts.

Lemma cut_strips_zeros_and_dots_witness :
  humanize.cut "100.00" = "1"%string
  /\ humanize.cut "1.50" = "1.5"%string.
Proof.
  split.
  - destruct (cut_strips_zeros_and_dots "1") as (_ & _ & H).
    apply (H "00.00"%string).
    repeat constructor; (by left) || (by right).
  - reflexivity.
Defined.

(** ** The selection policies of package proxy *)

Section policies.
Import proxy.

Lemma at_index_in_range (pool : list UpstreamHost) i :
  0 <= i < Z.of_nat (length pool) -> is_Some (at_index pool i).
Proof. intros Hi. unfold at_index. apply lookup_lt_is_Some. lia. Qed.

(** What the loop of RoundRobin.Select does in [m] rounds. *)
Lemma RoundRobin_loop_spec pool m robin :
  let n := Z.of_nat (length pool) in
  0 < n -> 0 <= robin -> robin + Z.of_nat m < 2 ^ 32 ->
  match RoundRobin_loop pool n m robin with
  | Some (Some h, r') =>
      Available h = true /\ at_index pool (r' mod n) = Some h
      /\ robin < r' <= robin + Z.of_nat m
  | Some (None, r') =>
      r' = robin + Z.of_nat m
      /\ forall i h, 1 <= i <= Z.of_nat m ->
           at_index pool ((robin + i) mod n) = Some h -> Available h = false
  | None => False
  end.
Proof.
  intros n Hn. revert robin.
  induction m as [|m IH]; intros robin Hr0 Hr1; cbn [RoundRobin_loop].
  - split; [lia|]. intros i h Hi. lia.
  - assert (Ha : U.add32 robin 1 = robin + 1).
    { unfold U.add32, U.uint32. apply Z.mod_small. lia. }
    rewrite Ha.
    destruct (at_index_in_range pool ((robin + 1) mod n)) as [h Hh].
    { apply Z.mod_pos_bound. lia. }
    rewrite Hh. cbn [mbind option_bind].
    destruct (Available h) eqn:Hav.
    + split; [done|]. split; [done|lia].
    + specialize (IH (robin + 1) ltac:(lia) ltac:(lia)).
      destruct (RoundRobin_loop pool n m (robin + 1)) as [[[h'|] r']|];
        [| |done].
      * destruct IH as (H1 & H2 & H3). split; [done|]. split; [done|lia].
      * destruct IH as [-> Hall]. split; [lia|].
        intros i h' Hi Hl. destruct (decide (i = 1)) as [->|Hne].
        -- rewrite Hh in Hl. by injection Hl as <-.
        -- apply (Hall (i - 1) h'); [lia|].
           by replace (robin + 1 + (i - 1)) with (robin + i) by lia.
Qed.

(** RoundRobin.Select finds an available host whenever the pool has
    one: it probes as many consecutive positions as the pool has hosts
    (while the 32-bit counter does not wrap), returns the first
    available one it meets and leaves the counter on it; with no host
    available it returns nil and has advanced the counter by the size
    of the pool. *)
Theorem RoundRobin_finds_available pool robin :
  0 < Z.of_nat (length pool) < 2 ^ 32 ->
  0 <= robin -> robin + Z.of_nat (length pool) < 2 ^ 32 ->
  ((exists h, h ∈ pool /\ Available h = true) ->
     exists h r', RoundRobin_Select pool robin = Some (Some h, r')
       /\ Available h = true /\ h ∈ pool
       /\ at_index pool (r' mod Z.of_nat (length pool)) = Some h
       /\ robin < r' <= robin + Z.of_nat (length pool))
  /\ ((forall h, h ∈ pool -> Available h = false) ->
        RoundRobin_Select pool robin
        = Some (None, robin + Z.of_nat (length pool))).
Proof.
  intros Hn Hr0 Hr1. unfold RoundRobin_Select.
  assert (Hc : U.uint32 (Z.of_nat (length pool)) = Z.of_nat (length pool)).
  { unfold U.uint32. apply Z.mod_small. lia. }
  rewrite Hc, Nat2Z.id.
  pose proof (RoundRobin_loop_spec pool (length pool) robin
                ltac:(lia) Hr0 Hr1) as Hspec. simpl in Hspec.
  destruct (RoundRobin_loop pool (Z.of_nat (length pool)) (length pool) robin)
    as [[[h|] r']|]; [| |done].
  - destruct Hspec as (Hav & Hat & Hr). split.
    + intros _. exists h, r'. split; [done|]. split; [done|].
      split; [|done]. unfold at_index in Hat.
      by apply list_elem_of_lookup_2 in Hat.
    + intros Hnone. unfold at_index in Hat.
      apply list_elem_of_lookup_2 in Hat. rewrite (Hnone h Hat) in Hav.
      discriminate Hav.
  - destruct Hspec as [-> Hall]. split; [|done].
    intros (h & Hin & Hav). exfalso.
    apply list_elem_of_lookup_1 in Hin as [j Hj].
    pose proof (lookup_lt_Some _ _ _ Hj) as Hjlt.
    set (n := Z.of_nat (length pool)) in *.
    set (i := (Z.of_nat j - robin - 1) mod n + 1).
    pose proof (Z.mod_pos_bound (Z.of_nat j - robin - 1) n ltac:(lia)) as Hb.
    assert (Hi : (robin + i) mod n = Z.of_nat j).
    { subst i. replace (robin + ((Z.of_nat j - robin - 1) mod n + 1))
        with ((robin + 1) + (Z.of_nat j - robin - 1) mod n) by lia.
      rewrite Z.add_mod_idemp_r by lia.
      replace (robin + 1 + (Z.of_nat j - robin - 1)) with (Z.of_nat j) by lia.
      apply Z.mod_small. lia. }
    rewrite (Hall i h) in Hav; [discriminate Hav|lia|].
    unfold at_index. by rewrite Hi, Nat2Z.id.
Qed.

Lemma hostByHashing_loop_available pool n m i index h :
  hostByHashing_loop pool n m i index = Some (Some h) ->
  Available h = true /\ h ∈ pool.
Proof.
  revert i index. induction m as [|m IH]; intros i index;
    cbn [hostByHashing_loop]; [discriminate|].
  destruct (at_index pool (U.add32 index i mod n)) as [h'|] eqn:Hat;
    cbn [mbind option_bind]; [|discriminate].
  destruct (Available h') eqn:Hav.
  - intros [= <-]. split; [done|]. unfold at_index in Hat.
    by apply list_elem_of_lookup_2 in Hat.
  - apply IH.
Qed.

(** hostByHashing returns only available hosts of the pool, and panics
    on an empty pool (a division by zero).  Its probing, which moves on
    by 0, 1, 2, ... positions, does not reach every host: in a pool of
    three it never looks at the host two places after the hashed one,
    and returns nil when that host is the only one available. *)
Theorem hostByHashing_probing s :
  hostByHashing [] s = None
  /\ (forall pool h, hostByHashing pool s = Some (Some h) ->
        Available h = true /\ h ∈ pool)
  /\ (forall h0 h1 h2,
        let pool := [h0; h1; h2] in
        let k := director.hash s mod 3 in
        (forall j h, 0 <= j < 3 -> j <> (k + 2) mod 3 ->
           at_index pool j = Some h -> Available h = false) ->
        hostByHashing pool s = Some None).
Proof.
  split; [reflexivity|]. split.
  - intros pool h. unfold hostByHashing.
    destruct (U.uint32 (Z.of_nat (length pool)) =? 0); [discriminate|].
    apply hostByHashing_loop_available.
  - intros h0 h1 h2 pool k Hun. unfold hostByHashing.
    replace (U.uint32 (Z.of_nat (length pool))) with 3 by reflexivity.
    fold k. cbn [Z.eqb Z.to_nat Pos.to_nat Pos.iter_op Nat.add].
    assert (Hk : k = 0 \/ k = 1 \/ k = 2).
    { pose proof (Z.mod_pos_bound (director.hash s) 3 ltac:(lia)).
      subst k. lia. }
    destruct Hk as [Hk|[Hk|Hk]]; rewrite Hk in *.
    + assert (H0 : Available h0 = false)
        by (apply (Hun 0 h0); [lia|by vm_compute|reflexivity]).
      assert (H1 : Available h1 = false)
        by (apply (Hun 1 h1); [lia|by vm_compute|reflexivity]).
      cbv -[Available]. by rewrite H0, H1.
    + assert (H1 : Available h1 = false)
        by (apply (Hun 1 h1); [lia|by vm_compute|reflexivity]).
      assert (H2 : Available h2 = false)
        by (apply (Hun 2 h2); [lia|by vm_compute|reflexivity]).
      cbv -[Available]. by rewrite H1, H2.
    + assert (H2 : Available h2 = false)
        by (apply (Hun 2 h2); [lia|by vm_compute|reflexivity]).
      assert (H0 : Available h0 = false)
        by (apply (Hun 0 h0); [lia|by vm_compute|reflexivity]).
      cbv -[Available]. by rewrite H2, H0.
Qed.

(** The state of LeastConn.Select after the hosts [seen]. *)
Lemma LeastConn_fold rand seen :
  (forall h, h ∈ seen -> Conns h <= MaxInt64) ->
  let st := foldl (LeastConn_step rand)
              {| bestHost := None; count := 0; leastConn := MaxInt64;
                 calls := O |} seen in
  (bestHost st = None /\ count st = 0 /\ leastConn st = MaxInt64
   /\ forall h, h ∈ seen -> Available h = false)
  \/ (exists h, bestHost st = Some h /\ h ∈ seen /\ Available h = true
        /\ Conns h = leastConn st /\ 1 <= count st
        /\ forall h', h' ∈ seen -> Available h' = true ->
             leastConn st <= Conns h').
Proof.
  induction seen as [|host seen IH] using rev_ind; intros Hrange; simpl.
  - left. repeat split. intros h Hh. by apply elem_of_nil in Hh.
  - rewrite foldl_app. simpl.
    set (st := foldl _ _ seen) in *.
    assert (Hseen : forall h, h ∈ seen -> Conns h <= MaxInt64).
    { intros h Hh. apply Hrange. apply elem_of_app. by left. }
    assert (Hhost : Conns host <= MaxInt64).
    { apply Hrange. apply elem_of_app. right. by apply list_elem_of_singleton. }
    specialize (IH Hseen). unfold LeastConn_step.
    destruct (Available host) eqn:Hav; simpl.
    2:{ destruct IH as [(Hb & Hc & Hl & Hall)|(h & Hb & Hin & Ha & Hc & Hcnt & Hmin)].
        - left. repeat split; try done. intros h Hh.
          apply elem_of_app in Hh as [Hh|Hh]; [by apply Hall|].
          apply list_elem_of_singleton in Hh. by subst.
        - right. exists h. repeat split; try done.
          + apply elem_of_app. by left.
          + intros h' Hh' Ha'. apply elem_of_app in Hh' as [Hh'|Hh'];
              [by apply Hmin|].
            apply list_elem_of_singleton in Hh'. subst. congruence. }
    right.
    destruct (Z.ltb_spec (Conns host) (leastConn st)) as [Hlt|Hge]; simpl.
    + rewrite Z.eqb_refl. simpl. rewrite Z.rem_1_r. simpl.
      exists host. repeat split; try done.
      * apply elem_of_app. right. by apply list_elem_of_singleton.
      * intros h' Hh' Ha'. apply elem_of_app in Hh' as [Hh'|Hh'].
        -- destruct IH as [(_ & _ & _ & Hall)|(h & _ & _ & _ & _ & _ & Hmin)].
           ++ rewrite (Hall h' Hh') in Ha'. discriminate Ha'.
           ++ specialize (Hmin h' Hh' Ha'). lia.
        -- apply list_elem_of_singleton in Hh'. subst. lia.
    + destruct IH as [(Hb & Hc & Hl & Hall)|(h & Hb & Hin & Ha & Hc & Hcnt & Hmin)].
      * assert (Heq : Conns host = leastConn st) by lia.
        rewrite Heq, Z.eqb_refl, Hc. simpl. rewrite Z.rem_1_r. simpl.
        exists host. repeat split; try done.
        -- apply elem_of_app. right. by apply list_elem_of_singleton.
        -- intros h' Hh' Ha'. apply elem_of_app in Hh' as [Hh'|Hh'].
           ++ rewrite (Hall h' Hh') in Ha'. discriminate Ha'.
           ++ apply list_elem_of_singleton in Hh'. subst. lia.
      * assert (Hkeep : forall h', h' ∈ seen ++ [host] -> Available h' = true ->
                  leastConn st <= Conns h').
        { intros h' Hh' Ha'. apply elem_of_app in Hh' as [Hh'|Hh'];
            [by apply Hmin|].
          apply list_elem_of_singleton in Hh'. by subst. }
        destruct (Z.eqb_spec (Conns host) (leastConn st)) as [Heq|Hne].
        -- destruct (Z.rem (rand (calls st)) (count st + 1) =? 0); simpl.
           ++ exists host. repeat split; try done; try lia.
              apply elem_of_app. right. by apply list_elem_of_singleton.
           ++ exists h. repeat split; try done; try lia.
              apply elem_of_app. by left.
        -- exists h. repeat split; try done.
           apply elem_of_app. by left.
Qed.

(** LeastConn.Select returns an available host with the fewest
    connections among the available hosts of the pool, whatever
    rand.Int() returns, and nil only when no host is available. *)
Theorem LeastConn_selects_least rand pool :
  (forall h, h ∈ pool -> Conns h <= MaxInt64) ->
  match LeastConn_Select rand pool with
  | Some h =>
      h ∈ pool /\ Available h = true
      /\ forall h', h' ∈ pool -> Available h' = true -> Conns h <= Conns h'
  | None => forall h, h ∈ pool -> Available h = false
  end.
Proof.
  intros Hrange. unfold LeastConn_Select.
  destruct (LeastConn_fold rand pool Hrange)
    as [(Hb & _ & _ & Hall)|(h & Hb & Hin & Ha & Hc & _ & Hmin)]; rewrite Hb.
  - exact Hall.
  - split; [done|]. split; [done|]. intros h' Hh' Ha'. rewrite Hc. by apply Hmin.
Qed.

End policies.

(** Three hosts, the first one down, a counter at 0: the second host. *)
Lemma RoundRobin_finds_available_witness :
  let a := {| proxy.Host := "a"; proxy.Conns := 3; proxy.Available := false |} in
  let b := {| proxy.Host := "b"; proxy.Conns := 1; proxy.Available := true |} in
  let c := {| proxy.Host := "c"; proxy.Conns := 1; proxy.Available := true |} in
  exists h r', proxy.RoundRobin_Select [a; b; c] 0 = Some (Some h, r')
               /\ proxy.Available h = true.
Proof.
  intros a b c.
  destruct (RoundRobin_finds_available [a; b; c] 0) as [H _];
    [simpl; lia|lia|simpl; lia|].
  destruct H as (h & r' & Hs & Ha & _).
  - exists b. split; [|reflexivity]. apply list_elem_of_In. simpl. tauto.
  - by exists h, r'.
Defined.

(** Only the third host is up and the key hashes to the first. *)
Lemma hostByHashing_probing_witness :
  let a := {| proxy.Host := "a"; proxy.Conns := 0; proxy.Available := false |} in
  let b := {| proxy.Host := "b"; proxy.Conns := 0; proxy.Available := false |} in
  let c := {| proxy.Host := "c"; proxy.Conns := 0; proxy.Available := true |} in
  director.hash "/users" mod 3 = 0
  /\ proxy.hostByHashing [a; b; c] "/users" = Some None.
Proof.
  intros a b c. split; [reflexivity|].
  destruct (hostByHashing_probing "/users") as (_ & _ & H).
  apply (H a b c). intros j h Hj Hne Hat.
  assert (Hk : (director.hash "/users" mod 3 + 2) mod 3 = 2) by reflexivity.
  rewrite Hk in Hne.
  assert (Hj' : j = 0 \/ j = 1) by lia.
  destruct Hj' as [-> | ->]; injection Hat as <-; reflexivity.
Defined.

Lemma LeastConn_selects_least_witness :
  let a := {| proxy.Host := "a"; proxy.Conns := 3; proxy.Available := true |} in
  let b := {| proxy.Host := "b"; proxy.Conns := 1; proxy.Available := true |} in
  let c := {| proxy.Host := "c"; proxy.Conns := 0; proxy.Available := false |} in
  proxy.LeastConn_Select (fun _ => 7) [a; b; c] = Some b
  /\ forall h', h' ∈ [a; b; c] -> proxy.Available h' = true ->
       proxy.Conns b <= proxy.Conns h'.
Proof.
  intros a b c.
  assert (E : proxy.LeastConn_Select (fun _ => 7) [a; b; c] = Some b)
    by reflexivity.
  split; [exact E|].
  pose proof (LeastConn_selects_least (fun _ => 7) [a; b; c]) as H.
  rewrite E in H. apply H.
  intros h Hh. apply list_elem_of_In in Hh. simpl in Hh.
  destruct Hh as [<-|[<-|[<-|[]]]]; vm_compute; discriminate.
Defined.

Section sampling.
Import proxy.

(** First.Select returns the first available host of the pool, and nil
    when there is none. *)
Lemma First_Select_spec pool :
  match First_Select pool with
  | Some h =>
      exists pre post, pool = pre ++ h :: post /\ Available h = true
                       /\ forall h', h' ∈ pre -> Available h' = false
  | None => forall h, h ∈ pool -> Available h = false
  end.
Proof.
  induction pool as [|host pool IH]; simpl.
  - intros h Hh. by apply elem_of_nil in Hh.
  - destruct (Available host) eqn:Hav.
    + exists [], pool. split; [reflexivity|]. split; [done|].
      intros h' Hh'. by apply elem_of_nil in Hh'.
    + destruct (First_Select pool) as [h|].
      * destruct IH as (pre & post & -> & Ha & Hpre).
        exists (host :: pre), post. split; [reflexivity|]. split; [done|].
        intros h' Hh'. apply elem_of_cons in Hh' as [->|Hh']; [done|].
        by apply Hpre.
      * intros h Hh. apply elem_of_cons in Hh as [->|Hh]; [done|].
        by apply IH.
Qed.

(** Random.Select returns an available host of the pool, whatever
    rand.Int() returns, and nil only when no host is available. *)
Lemma Random_Select_available rand pool :
  match Random_Select rand pool with
  | Some h => h ∈ pool /\ Available h = true
  | None => forall h, h ∈ pool -> Available h = false
  end.
Proof.
  unfold Random_Select.
  assert (H : let st := foldl (Random_step rand) (None, 0, O) pool in
              (st.1.1 = None /\ st.1.2 = 0
               /\ forall h, h ∈ pool -> Available h = false)
              \/ (exists h, st.1.1 = Some h /\ h ∈ pool
                            /\ Available h = true /\ 1 <= st.1.2)).
  { induction pool as [|host pool IH] using rev_ind; simpl.
    - left. repeat split. intros h Hh. by apply elem_of_nil in Hh.
    - rewrite foldl_app. simpl.
      destruct (foldl (Random_step rand) (None, 0, O) pool)
        as [[best cnt] calls]. simpl in *. unfold Random_step.
      destruct (Available host) eqn:Hav; simpl.
      + right.
        destruct IH as [(-> & -> & Hall)|(h & -> & Hin & Ha & Hc)]; simpl.
        * rewrite Z.rem_1_r. simpl. exists host.
          repeat split; try done; try lia.
          apply elem_of_app. right. by apply list_elem_of_singleton.
        * destruct (Z.rem (rand calls) (cnt + 1) =? 0); simpl.
          -- exists host. repeat split; try done; try lia.
             apply elem_of_app. right. by apply list_elem_of_singleton.
          -- exists h. repeat split; try done; try lia.
             apply elem_of_app. by left.
      + destruct IH as [(-> & -> & Hall)|(h & -> & Hin & Ha & Hc)]; simpl.
        * left. repeat split. intros h Hh.
          apply elem_of_app in Hh as [Hh|Hh]; [by apply Hall|].
          apply list_elem_of_singleton in Hh. by subst.
        * right. exists h. repeat split; try done.
          apply elem_of_app. by left. }
  simpl in H. destruct H as [(-> & _ & Hall)|(h & -> & Hin & Ha & _)].
  - exact Hall.
  - by split.
Qed.

End sampling.

Section reencoding.
Import cache.
Context {codecs : Codecs}.

(** A record holding only a gzip buffer, asked by a client that lists
    br: the buffer is decoded and encoded again with brotli; when the
    brotli encoder fails the stored gzip bytes are served to a client
    that lists gzip too, and the decoded bytes, unencoded, to one that
    does not. *)
Theorem GetBody_gzip_record_for_br_client r ae raw :
  StatusCode r <> StatusNoContent ->
  Body r = [] -> GzipBody r <> [] -> BrBody r = [] ->
  strings_Contains ae "br" = true ->
  util.Gunzip (GzipBody r) = (raw, None) ->
  (forall out, util.BrotliEncode raw (CompressLevel r) = (out, None) ->
     GetBody r ae = Some (out, "br"%string))
  /\ (forall out e, util.BrotliEncode raw (CompressLevel r) = (out, Some e) ->
        strings_Contains ae "gzip" = true ->
        GetBody r ae = Some (GzipBody r, "gzip"%string))
  /\ (forall out e, util.BrotliEncode raw (CompressLevel r) = (out, Some e) ->
        strings_Contains ae "gzip" = false ->
        GetBody r ae = Some (raw, ""%string)).
Proof.
  intros Hsc Hb Hg Hbr Hc Hz.
  assert (Hstart : forall res,
    (match util.BrotliEncode raw (CompressLevel r) with
     | (_, Some _) => GetBody_loop r ae [GzipEncoding]
     | (brBody, None) => Some (brBody, BrEncoding)
     end = res) -> GetBody r ae = res).
  { intros res <-. unfold GetBody.
    destruct (Z.eqb_spec (StatusCode r) StatusNoContent) as [|_]; [contradiction|].
    rewrite Hb. simpl.
    unfold GetBody_try at 1. unfold BrEncoding at 1. rewrite Hc. simpl.
    rewrite Hbr. simpl. unfold getRawBody. rewrite Hb, (len_nonnil _ Hg).
    simpl. rewrite Hz.
    by destruct (util.BrotliEncode raw (CompressLevel r)) as [out [e|]]. }
  split; [|split].
  - intros out He. apply Hstart. by rewrite He.
  - intros out e He Hgz. apply Hstart. rewrite He. simpl.
    unfold GetBody_try. unfold GzipEncoding at 1. rewrite Hgz. simpl.
    by rewrite (len_nonnil _ Hg).
  - intros out e He Hgz. apply Hstart. rewrite He. simpl.
    unfold GetBody_try. unfold GzipEncoding at 1. rewrite Hgz. simpl.
    unfold GetBody_fallback. rewrite Hb, (len_nonnil _ Hg). simpl.
    by rewrite Hz.
Qed.

End reencoding.

(** The spec's scenario: a cached record with only a gzip buffer and a
    client that sends Accept-Encoding: br, gzip. *)
Lemma GetBody_gzip_record_for_br_client_witness :
  let r0 := {| cache.CreatedAt := 1500000000; cache.StatusCode := 200;
               cache.TTL := 60; cache.Header := ∅; cache.Body := [];
               cache.GzipBody := [x1f; x8b; x68; x69]; cache.BrBody := [];
               cache.CompressLevel := 0; cache.CompressMinLength := 0 |} in
  cache.GetBody (codecs := Ref.stored_gzip) r0 "br, gzip"
    = Some ([xce; x68; x69], "br"%string).
Proof.
  intros r0.
  destruct (GetBody_gzip_record_for_br_client (codecs := Ref.stored_gzip) r0
              "br, gzip" [x68; x69]) as (H & _);
    [discriminate|reflexivity|discriminate|reflexivity|reflexivity
    |reflexivity|].
  apply H. reflexivity.
Defined.
